(** * pdraim: the real-time event distribution core (SSE)

    A shallow embedding of the server-side catch-up buffer
    ([MessageQueue]), the event bus ([SSEEventEmitter]), the connection
    registry and manager ([SSEManager]), the two HTTP endpoints that use
    them ([/api/sse] and [/api/sse/heartbeat]) and the client's
    reconnect back-off ([SSEClient.calculateBackoff]).

    Conventions of the embedding:
    - a JS [Map<string, V>] is a [gmap string V]; a [Set] is the list of
      its members in insertion order (the order a [for .. of] iterates in),
      kept free of duplicates by [Set.add]; where the source iterates over a
      [Map], the model visits the keys in the [gmap]'s order, which nothing
      stated below observes;
    - an array is a [list]; [Array.prototype.slice] and [findIndex] are
      written out with their JS index arithmetic on [Z];
    - [crypto.randomUUID()] and [Date.now()] are read from the environment:
      the n-th UUID drawn is [uuid n], the clock is a field of the state,
      and where the source reads the clock twice in a row
      ([acknowledgeHeartbeat]) the second reading is later by an amount
      the caller of the model chooses;
      where a property needs it, UUIDs are assumed never to repeat and
      never to be empty ([UuidFresh]);
    - a payload is opaque to this core and is carried as its JSON text;
    - [try { .. } catch { .. }] is a match on a completion record
      ([Normal] or [Throw]). *)

From Stdlib Require Import Ascii QArith Qround Qminmax Qpower Lqa.
From stdpp Require Import gmap strings list fin_maps pretty.

Open Scope Z_scope.

(** ** JavaScript array primitives *)

Module Js.

Section Arrays.
Context {A : Type}.

(** [arr.slice(start)]: a negative [start] counts from the end and is
    clamped at 0, a non-negative one is clamped at the length.
    [-0] is [0], so [slice(-0)] is the whole array. *)
Definition slice (start : Z) (arr : list A) : list A :=
  let len := Z.of_nat (length arr) in
  let k := if start <? 0 then Z.max (len + start) 0 else Z.min start len in
  drop (Z.to_nat k) arr.

(** [arr.findIndex(p)]: index of the first match, [-1] when none. *)
Definition findIndex (P : A → Prop) `{∀ x, Decision (P x)} (arr : list A) : Z :=
  match list_find P arr with
  | Some (i, _) => Z.of_nat i
  | None => -1
  end.

(** The last [n] elements of [arr] (all of it when it is shorter). *)
Definition lastn (n : nat) (arr : list A) : list A :=
  drop (length arr - n)%nat arr.

End Arrays.

End Js.

(** ** Event types (the keys of [SSEEventMap]) *)

Inductive SSEEventType := chatMessage | userStatusUpdate | buddyListUpdate | heartbeat.

#[global] Instance SSEEventType_eq_dec : EqDecision SSEEventType.
Proof. solve_decision. Defined.

Definition type_name (t : SSEEventType) : string :=
  match t with
  | chatMessage => "chatMessage"
  | userStatusUpdate => "userStatusUpdate"
  | buddyListUpdate => "buddyListUpdate"
  | heartbeat => "heartbeat"
  end.

Record SSEEvent := mkEvent {
  ev_type : SSEEventType;
  ev_data : string;
  ev_id : option string
}.

(** ** SSE_CONFIG *)

Module SSE_CONFIG.
Definition HEARTBEAT_INTERVAL : Z := 30000.
Definition STALE_CHECK_INTERVAL : Z := 60000.
Definition MESSAGE_QUEUE_TTL : Z := 5 * 60000.
Definition MESSAGE_QUEUE_MAX_SIZE : nat := 1000.
Definition INITIAL_RECONNECT_DELAY : Z := 1000.
Definition MAX_RECONNECT_DELAY : Z := 60000.
Definition HEARTBEAT_TIMEOUT : Z := 45000.
Definition RETRY_INTERVAL : Z := 3000.
End SSE_CONFIG.

(** ** MessageQueue: the per-room catch-up log *)

Module MessageQueue.

Record QueuedMessage := mkMsg {
  id : string;
  event : string;
  data : string;
  timestamp : Z;
  roomId : string
}.

(** The object's fields. [maxSize] is a count of messages. *)
Record t := mk {
  queues : gmap string (list QueuedMessage);
  ttl : Z;
  maxSize : nat
}.

Definition create (ttl : Z) (maxSize : nat) : t :=
  {| queues := ∅; ttl := ttl; maxSize := maxSize |}.

Definition set_queues (qs : gmap string (list QueuedMessage)) (q : t) : t :=
  {| queues := qs; ttl := ttl q; maxSize := maxSize q |}.

(** [enqueue(roomId, event, data)]; [fresh] is what [crypto.randomUUID()]
    returned and [now] what [Date.now()] returned.  [queue.push] mutates
    the array the map holds, so the map sees the pushed message whether
    or not the trim branch replaces the array. *)
Definition enqueue (fresh : string) (now : Z) (room ev payload : string) (q : t)
  : string * t :=
  let message := {| id := fresh; event := ev; data := payload;
                    timestamp := now; roomId := room |} in
  let queue := default [] (queues q !! room) ++ [message] in
  let queue' :=
    if bool_decide (Z.of_nat (maxSize q) < Z.of_nat (length queue))
    then Js.slice (- Z.of_nat (maxSize q)) queue
    else queue in
  (fresh, set_queues (<[room := queue']> (queues q)) q).

Definition getMessagesSince (room lastEventId : string) (q : t) : list QueuedMessage :=
  match queues q !! room with
  | None => []
  | Some queue =>
      if bool_decide (length queue = 0%nat) then []
      else
        let lastIndex := Js.findIndex (λ m, id m = lastEventId) queue in
        if bool_decide (lastIndex = -1) then Js.slice (-50) queue
        else Js.slice (lastIndex + 1) queue
  end.

Definition getMessages (room : string) (limit : Z) (q : t) : list QueuedMessage :=
  match queues q !! room with
  | None => []
  | Some queue => Js.slice (- limit) queue
  end.

Definition getLatestEventId (room : string) (q : t) : option string :=
  match queues q !! room with
  | None => None
  | Some queue => id <$> last queue
  end.

Definition hasEventId (room eventId : string) (q : t) : bool :=
  match queues q !! room with
  | None => false
  | Some queue => bool_decide (Exists (λ m, id m = eventId) queue)
  end.

(** One room of [cleanup()]: the expired messages are filtered out; an
    unchanged queue stays, an emptied one is deleted. *)
Definition cleanup_room (now ttl : Z) (queue : list QueuedMessage)
  : option (list QueuedMessage) :=
  let filtered := filter (λ m, now - timestamp m < ttl) queue in
  if bool_decide (length filtered ≠ length queue)
  then (if bool_decide (length filtered = 0%nat) then None else Some filtered)
  else Some queue.

Definition removed_in_room (now ttl : Z) (queue : list QueuedMessage) : Z :=
  Z.of_nat (length queue)
  - Z.of_nat (length (filter (λ m, now - timestamp m < ttl) queue)).

Definition cleanup (now : Z) (q : t) : Z * t :=
  (map_fold (λ _ queue acc, acc + removed_in_room now (ttl q) queue) 0 (queues q),
   set_queues (omap (cleanup_room now (ttl q)) (queues q)) q).

Definition clear (q : t) : t := set_queues ∅ q.

(** A room's log, empty when the room has none. *)
Definition log (room : string) (q : t) : list QueuedMessage :=
  default [] (queues q !! room).

(** One call of [enqueue], with what its [randomUUID()] and [Date.now()]
    returned, and the message that call builds. *)
Record EnqueueCall := mkCall {
  c_fresh : string;
  c_now : Z;
  c_room : string;
  c_event : string;
  c_data : string
}.

Definition message_of (c : EnqueueCall) : QueuedMessage :=
  {| id := c_fresh c; event := c_event c; data := c_data c;
     timestamp := c_now c; roomId := c_room c |}.

Definition enqueue_call (q : t) (c : EnqueueCall) : t :=
  (enqueue (c_fresh c) (c_now c) (c_room c) (c_event c) (c_data c) q).2.

Definition enqueue_all (q : t) (calls : list EnqueueCall) : t :=
  foldl enqueue_call q calls.

(** The messages a sequence of calls builds for one room, in call order. *)
Definition messages_for (room : string) (calls : list EnqueueCall) : list QueuedMessage :=
  message_of <$> filter (λ c, c_room c = room) calls.

(** The number of messages held over all rooms. *)
Definition total_messages (qs : gmap string (list QueuedMessage)) : Z :=
  map_fold (λ _ queue acc, acc + Z.of_nat (length queue)) 0 qs.

(** [getStats()]: [(rooms, totalMessages)]. *)
Definition getStats (q : t) : Z * Z :=
  (Z.of_nat (size (queues q)), total_messages (queues q)).

(** No room is stored with an empty log, and within a room no two entries
    share an id. *)
Definition rooms_nonempty (q : t) : Prop :=
  ∀ room queue, queues q !! room = Some queue → queue ≠ [].

Definition ids_distinct (q : t) : Prop :=
  ∀ room queue, queues q !! room = Some queue → NoDup (id <$> queue).

(** What the trim of [enqueue] keeps of a log: its last [max] entries, and
    all of it for [max = 0]. *)
Definition bounded_tail (max : nat) (queue : list QueuedMessage) : list QueuedMessage :=
  if decide (max = 0%nat) then queue else Js.lastn max queue.

End MessageQueue.

(** ** Completions and insertion-ordered sets *)

(** How a call ends: it returns, or it throws. *)
Inductive completion (A : Type) :=
  | Normal (a : A)
  | Throw (err : string).
Arguments Normal {A} a.
Arguments Throw {A} err.

(** A JS [Set], as the list of its members in insertion order. *)
Module JsSet.
Section Ops.
Context {A : Type} `{EqDecision A}.

Definition add (x : A) (s : list A) : list A :=
  if decide (x ∈ s) then s else s ++ [x].

(** [s.delete(x)]: whether [x] was a member, and the set without it. *)
Definition delete (x : A) (s : list A) : bool * list A :=
  (bool_decide (x ∈ s), filter (λ y, y ≠ x) s).

Definition size (s : list A) : Z := Z.of_nat (length s).
End Ops.
End JsSet.

(** ** SSEEventEmitter: the event bus *)

Module SSEEventEmitter.

Record t (L : Type) := mk {
  listeners : gmap string (list L);
  maxListeners : Z;
  listenerCount : Z
}.
Arguments mk {L} _ _ _.
Arguments listeners {L} _.
Arguments maxListeners {L} _.
Arguments listenerCount {L} _.

(** The emitter, the state its listeners act on, and the record of the
    listener invocations made so far (what a test's mock records). *)
Record bus (L W : Type) := mkBus {
  emitter : t L;
  outside : W;
  invoked : list (L * SSEEvent)
}.
Arguments mkBus {L W} _ _ _.
Arguments emitter {L W} _.
Arguments outside {L W} _.
Arguments invoked {L W} _.

Section Emitter.
Context {L : Type} `{EqDecision L} {W : Type}.

(** What calling a listener does: its effect on the state outside the
    emitter and how the call completes.  Listeners do not call back
    into the emitter (the endpoint's [onSSE] does not). *)
Variable call : L → SSEEvent → W → completion unit * W.

Definition create : t L :=
  {| listeners := ∅; maxListeners := 100; listenerCount := 0 |}.

Definition addListener (channel : string) (listener : L) (e : t L) : t L :=
  let channelListeners := default [] (listeners e !! channel) in
  {| listeners := <[channel := JsSet.add listener channelListeners]> (listeners e);
     maxListeners := maxListeners e;
     listenerCount := listenerCount e + 1 |}.

Definition removeListener (channel : string) (listener : L) (e : t L) : bool * t L :=
  match listeners e !! channel with
  | Some channelListeners =>
      let '(removed, rest) := JsSet.delete listener channelListeners in
      if removed then
        (true,
         {| listeners :=
              if bool_decide (JsSet.size rest = 0)
              then delete channel (listeners e)
              else <[channel := rest]> (listeners e);
            maxListeners := maxListeners e;
            listenerCount := listenerCount e - 1 |})
      else (false, e)
  | None => (false, e)
  end.

(** [if (channel)] is false for [undefined] and for the empty string. *)
Definition truthy (channel : option string) : option string :=
  match channel with
  | Some c => if decide (c = "") then None else Some c
  | None => None
  end.

Definition removeAllListeners (channel : option string) (e : t L) : t L :=
  match truthy channel with
  | Some c =>
      match listeners e !! c with
      | Some channelListeners =>
          {| listeners := delete c (listeners e);
             maxListeners := maxListeners e;
             listenerCount := listenerCount e - JsSet.size channelListeners |}
      | None => e
      end
  | None =>
      {| listeners := ∅; maxListeners := maxListeners e; listenerCount := 0 |}
  end.

Definition getListenerCount (channel : option string) (e : t L) : Z :=
  match truthy channel with
  | Some c =>
      match listeners e !! c with
      | Some channelListeners => JsSet.size channelListeners
      | None => 0
      end
  | None => listenerCount e
  end.

Definition hasListeners (channel : string) (e : t L) : bool :=
  match listeners e !! channel with
  | Some channelListeners => bool_decide (0 < JsSet.size channelListeners)
  | None => false
  end.

(** Statements that may throw, over the bus. *)
Definition M (A : Type) : Type := bus L W → completion A * bus L W.

Definition ret {A} (a : A) : M A := λ b, (Normal a, b).

Definition bind {A B} (m : M A) (k : A → M B) : M B :=
  λ b, match m b with
       | (Normal a, b') => k a b'
       | (Throw err, b') => (Throw err, b')
       end.

Definition try_catch {A} (body : M A) (handler : string → M A) : M A :=
  λ b, match body b with
       | (Normal a, b') => (Normal a, b')
       | (Throw err, b') => handler err b'
       end.

Fixpoint for_of {X} (xs : list X) (body : X → M unit) : M unit :=
  match xs with
  | [] => ret tt
  | x :: rest => bind (body x) (λ _, for_of rest body)
  end.

(** [listener(event)] *)
Definition invoke (listener : L) (event : SSEEvent) : M unit :=
  λ b, let '(r, w) := call listener event (outside b) in
       (r, {| emitter := emitter b; outside := w;
              invoked := invoked b ++ [(listener, event)] |}).

(** [this.removeListener(channel, listener)] as a statement. *)
Definition removeListener_stmt (channel : string) (listener : L) : M unit :=
  λ b, (Normal tt,
        {| emitter := (removeListener channel listener (emitter b)).2;
           outside := outside b; invoked := invoked b |}).

(** The body of the loop of [emit]: the call, and the [catch] that removes
    the listener that threw. *)
Definition deliver (event : SSEEvent) (listener : L) : M unit :=
  try_catch (invoke listener event) (λ _, removeListener_stmt "sse" listener).

(** [emit(type, data, id)]: the loop runs over a copy of the set taken
    before the first call. *)
Definition emit (type : SSEEventType) (payload : string) (eid : option string) : M unit :=
  λ b,
    let event := {| ev_type := type; ev_data := payload; ev_id := eid |} in
    match listeners (emitter b) !! "sse" with
    | Some eventListeners =>
        if bool_decide (0 < JsSet.size eventListeners)
        then for_of eventListeners (deliver event) b
        else (Normal tt, b)
    | None => (Normal tt, b)
    end.

(** A listener that throws on [event] whatever the state, and one that
    returns on every event. *)
Definition throws_on (event : SSEEvent) (listener : L) : Prop :=
  ∀ w, ∃ err, (call listener event w).1 = Throw err.

Definition always_returns (listener : L) : Prop :=
  ∀ event w, (call listener event w).1 = Normal tt.

(** One [emit] after another; the completions are collected. *)
Fixpoint emit_all (events : list SSEEvent) (b : bus L W) : list (completion unit) * bus L W :=
  match events with
  | [] => ([], b)
  | e :: rest =>
      let '(r, b1) := emit (ev_type e) (ev_data e) (ev_id e) b in
      let '(rs, b2) := emit_all rest b1 in
      (r :: rs, b2)
  end.

(** The members of a channel's listener set, none when the channel has no
    set. *)
Definition channel_listeners (channel : string) (e : t L) : list L :=
  default [] (listeners e !! channel).

(** The listeners on the broadcast channel. *)
Definition sse_listeners (b : bus L W) : list L :=
  channel_listeners "sse" (emitter b).

(** The sum over all channels of the size of the channel's listener set. *)
Definition sizes (m : gmap string (list L)) : Z :=
  map_fold (λ _ channelListeners acc, acc + JsSet.size channelListeners) 0 m.

Definition total_size (e : t L) : Z := sizes (listeners e).

(** The invariant the counter is meant to keep: it is the sum of the
    sizes, and every listener set is duplicate-free. *)
Definition counter_exact (e : t L) : Prop :=
  listenerCount e = total_size e
  ∧ ∀ c ls, listeners e !! c = Some ls → NoDup ls.

(** The calls that change the listener sets. *)
Inductive SetOp :=
  | Add (channel : string) (listener : L)
  | Remove (channel : string) (listener : L)
  | RemoveAll (channel : option string).

Definition apply_op (e : t L) (o : SetOp) : t L :=
  match o with
  | Add channel listener => addListener channel listener e
  | Remove channel listener => (removeListener channel listener e).2
  | RemoveAll channel => removeAllListeners channel e
  end.

Definition apply_ops (e : t L) (ops : list SetOp) : t L := foldl apply_op e ops.

(** No [Add] of the run finds its listener already on its channel. *)
Fixpoint adds_are_new (e : t L) (ops : list SetOp) : Prop :=
  match ops with
  | [] => True
  | o :: rest =>
      match o with
      | Add channel listener => listener ∉ channel_listeners channel e
      | _ => True
      end ∧ adds_are_new (apply_op e o) rest
  end.

(** [setMaxListeners(n)] *)
Definition setMaxListeners (n : Z) (e : t L) : t L :=
  {| listeners := listeners e; maxListeners := n; listenerCount := listenerCount e |}.

(** Every stored listener set has a member and no duplicate. *)
Definition sets_proper (e : t L) : Prop :=
  ∀ c ls, listeners e !! c = Some ls → ls ≠ [] ∧ NoDup ls.

(** The listener sets are proper and the counter is at least the sum of
    their sizes. *)
Definition well_kept (e : t L) : Prop :=
  sets_proper e ∧ total_size e ≤ listenerCount e.

End Emitter.

(** The listeners of the emitter's own tests: listener 0 throws, any other
    listener records that it was called. *)
Definition mock_call (l : nat) (event : SSEEvent) (w : list nat)
  : completion unit * list nat :=
  if decide (l = 0%nat) then (Throw "Listener error", w) else (Normal tt, w ++ [l]).

End SSEEventEmitter.

(** ** The environment of the server: UUIDs, clock, queue, streams *)

(** [uuid n] is the value of the n-th call of [crypto.randomUUID()]. *)
Class UuidSupply := uuid : nat → string.

(** UUIDs never collide and are never the empty string. *)
Class UuidFresh `{UuidSupply} : Prop := {
  uuid_inj : ∀ m n, uuid m = uuid n → m = n;
  uuid_nonempty : ∀ n, uuid n ≠ ""
}.

(** A supply for examples: ["uuid-0"], ["uuid-1"], ... *)
Definition counter_uuid : UuidSupply := λ n, "uuid-" +:+ pretty n.

(** The controller end of a [ReadableStream]: the chunks written so far,
    and whether the stream was closed (writing then throws). *)
Record stream := mkStream {
  closed : bool;
  written : list string
}.

Record Env := mkEnv {
  next_uuid : nat;
  clock : Z;
  messageQueue : MessageQueue.t;
  streams : gmap nat stream
}.

Definition set_messageQueue (q : MessageQueue.t) (w : Env) : Env :=
  {| next_uuid := next_uuid w; clock := clock w; messageQueue := q; streams := streams w |}.

Definition set_streams (ss : gmap nat stream) (w : Env) : Env :=
  {| next_uuid := next_uuid w; clock := clock w; messageQueue := messageQueue w; streams := ss |}.

Definition set_clock (now : Z) (w : Env) : Env :=
  {| next_uuid := next_uuid w; clock := now; messageQueue := messageQueue w; streams := streams w |}.

Definition nl : string := String "010"%char "".

(** [formatSSEEvent(event, eventId)]: the six lines joined by newlines. *)
Definition formatSSEEvent (event : SSEEvent) (eventId : string) : string :=
  "id: " +:+ eventId +:+ nl +:+
  "event: " +:+ type_name (ev_type event) +:+ nl +:+
  "data: " +:+ ev_data event +:+ nl +:+
  "retry: " +:+ pretty SSE_CONFIG.RETRY_INTERVAL +:+ nl +:+
  nl.

Definition formatKeepAlive : string := ":" +:+ nl +:+ nl.

Section Environment.
Context `{UuidSupply}.

Definition randomUUID (w : Env) : string * Env :=
  (uuid (next_uuid w),
   {| next_uuid := S (next_uuid w); clock := clock w;
      messageQueue := messageQueue w; streams := streams w |}).

Definition Date_now (w : Env) : Z := clock w.

(** [messageQueue.enqueue(roomId, event, data)] on the singleton. *)
Definition enqueue (room ev payload : string) (w : Env) : string * Env :=
  let '(fresh, w1) := randomUUID w in
  let '(i, q) := MessageQueue.enqueue fresh (Date_now w1) room ev payload (messageQueue w1) in
  (i, set_messageQueue q w1).

(** [controller.enqueue(chunk)] *)
Definition controller_enqueue (ctrl : nat) (chunk : string) (w : Env)
  : completion unit * Env :=
  match streams w !! ctrl with
  | Some st =>
      if closed st then (Throw "TypeError: Invalid state", w)
      else (Normal tt,
            set_streams (<[ctrl := {| closed := false; written := written st ++ [chunk] |}]>
                           (streams w)) w)
  | None => (Throw "TypeError: Invalid state", w)
  end.

(** The endpoint's bus listener [onSSE], a closure over its connection's
    room and controller.  Whatever its [try] block throws is caught. *)
Definition onSSE (room : string) (ctrl : nat) (event : SSEEvent) (w : Env)
  : completion unit * Env :=
  let '(eventId, w1) := randomUUID w in
  let payload := formatSSEEvent event eventId in
  match controller_enqueue ctrl payload w1 with
  | (Normal _, w2) =>
      if decide (ev_type event ≠ heartbeat)
      then (Normal tt, (enqueue room (type_name (ev_type event)) (ev_data event) w2).2)
      else (Normal tt, w2)
  | (Throw _, w2) => (Normal tt, w2)
  end.

End Environment.

(** A listener function registered on the bus.  The endpoint registers one
    [onSSE] closure per request; [lid] tells two closures over the same
    room and controller apart. *)
Record Listener := OnSSE {
  lid : nat;
  l_room : string;
  l_ctrl : nat
}.

#[global] Instance Listener_eq_dec : EqDecision Listener.
Proof. solve_decision. Defined.

Definition call_listener `{UuidSupply} (l : Listener) (event : SSEEvent) (w : Env)
  : completion unit * Env :=
  onSSE (l_room l) (l_ctrl l) event w.

(** ** SSEManager: the connection registry *)

Module SSEManager.

Record SSEConnection := mkConn {
  connectionId : string;
  userId : string;
  connectedAt : Z;
  lastActivity : Z;
  lastHeartbeat : Z;
  roomId : string;
  controller : option nat
}.

Record t := mk {
  connections : gmap string SSEConnection;
  userConnections : gmap string (list string)
}.

Definition create : t := {| connections := ∅; userConnections := ∅ |}.

Record RemoveResult := mkRemove {
  removed : bool;
  isLastConnection : bool;
  removedUserId : option string
}.

(** [addConnection]; [fresh] and [now] are its [randomUUID()] and
    [Date.now()]. Returns [(connectionId, isNewUser)]. *)
Definition addConnection (fresh : string) (now : Z) (user room : string) (ctrl : nat) (m : t)
  : (string * bool) * t :=
  let connection := {| connectionId := fresh; userId := user; connectedAt := now;
                       lastActivity := now; lastHeartbeat := now; roomId := room;
                       controller := Some ctrl |} in
  let userConns := userConnections m !! user in
  let isNewUser := match userConns with
                   | None => true
                   | Some s => bool_decide (JsSet.size s = 0)
                   end in
  ((fresh, isNewUser),
   {| connections := <[fresh := connection]> (connections m);
      userConnections := <[user := JsSet.add fresh (default [] userConns)]> (userConnections m) |}).

Definition removeConnection (cid : string) (m : t) : RemoveResult * t :=
  match connections m !! cid with
  | None => ({| removed := false; isLastConnection := false; removedUserId := None |}, m)
  | Some connection =>
      let user := userId connection in
      let conns := delete cid (connections m) in
      match userConnections m !! user with
      | Some userConns =>
          let rest := (JsSet.delete cid userConns).2 in
          ({| removed := true;
              isLastConnection := bool_decide (JsSet.size rest = 0);
              removedUserId := Some user |},
           {| connections := conns;
              userConnections :=
                if bool_decide (JsSet.size rest = 0)
                then delete user (userConnections m)
                else <[user := rest]> (userConnections m) |})
      | None =>
          ({| removed := true; isLastConnection := true; removedUserId := Some user |},
           {| connections := conns; userConnections := userConnections m |})
      end
  end.

Definition getConnection (cid : string) (m : t) : option SSEConnection :=
  connections m !! cid.

Definition hasUserConnection (user : string) (m : t) : bool :=
  match userConnections m !! user with
  | Some s => bool_decide (0 < JsSet.size s)
  | None => false
  end.

Definition getUserConnectionIds (user : string) (m : t) : list string :=
  default [] (userConnections m !! user).

Definition updateActivity (now : Z) (cid : string) (m : t) : t :=
  match connections m !! cid with
  | Some c =>
      {| connections :=
           <[cid := {| connectionId := connectionId c; userId := userId c;
                       connectedAt := connectedAt c; lastActivity := now;
                       lastHeartbeat := lastHeartbeat c; roomId := roomId c;
                       controller := controller c |}]> (connections m);
         userConnections := userConnections m |}
  | None => m
  end.

(** [acknowledgeHeartbeat]: the two timestamps come from two reads of the
    clock, [now1] for [lastHeartbeat] and then [now2] for [lastActivity]. *)
Definition acknowledgeHeartbeat (now1 now2 : Z) (cid : string) (m : t) : bool * t :=
  match connections m !! cid with
  | Some c =>
      (true,
       {| connections :=
            <[cid := {| connectionId := connectionId c; userId := userId c;
                        connectedAt := connectedAt c; lastActivity := now2;
                        lastHeartbeat := now1; roomId := roomId c;
                        controller := controller c |}]> (connections m);
          userConnections := userConnections m |})
  | None => (false, m)
  end.

(** The ids [cleanupStaleConnections] collects before it removes any. *)
Definition staleConnections (now : Z) (m : t) : list string :=
  (map_to_list
     (filter (λ kc, SSE_CONFIG.HEARTBEAT_TIMEOUT < now - lastHeartbeat kc.2)
             (connections m))).*1.

Definition cleanupStaleConnections (now : Z) (m : t) : t :=
  foldl (λ acc cid, (removeConnection cid acc).2) m (staleConnections now m).

Definition getActiveUserIds (m : t) : list string :=
  (map_to_list (userConnections m)).*1.

(** [getStats()], its registry part: [(totalConnections, uniqueUsers)]. *)
Definition getStats (m : t) : Z * Z :=
  (Z.of_nat (size (connections m)), Z.of_nat (size (userConnections m))).

(** The users that own at least one entry of the connection table. *)
Definition owners (m : t) : gset string :=
  list_to_set ((userId <$> (map_to_list (connections m)).*2)).

(** What the registry promises: the keys of the user map are exactly the
    users that own a connection, and no stored set is empty. *)
Definition mirrors (m : t) : Prop :=
  dom (userConnections m) = owners m
  ∧ ∀ user s, userConnections m !! user = Some s → s ≠ [].

(** The invariant behind it: a user's set holds exactly the ids of the
    user's connections, and is stored only when it has a member. *)
Definition consistent (m : t) : Prop :=
  (∀ user s, userConnections m !! user = Some s →
     s ≠ [] ∧ ∀ cid, cid ∈ s ↔ ∃ c, connections m !! cid = Some c ∧ userId c = user)
  ∧ (∀ cid c, connections m !! cid = Some c → is_Some (userConnections m !! userId c)).

End SSEManager.

(** ** The server: manager, bus and queue singletons together *)

Record Server := mkServer {
  bus : SSEEventEmitter.bus Listener Env;
  manager : SSEManager.t
}.

Definition env (s : Server) : Env := SSEEventEmitter.outside (bus s).

Definition sseEmitter (s : Server) : SSEEventEmitter.t Listener :=
  SSEEventEmitter.emitter (bus s).

Definition set_env (w : Env) (s : Server) : Server :=
  {| bus := {| SSEEventEmitter.emitter := SSEEventEmitter.emitter (bus s);
               SSEEventEmitter.outside := w;
               SSEEventEmitter.invoked := SSEEventEmitter.invoked (bus s) |};
     manager := manager s |}.

Definition set_emitter (e : SSEEventEmitter.t Listener) (s : Server) : Server :=
  {| bus := {| SSEEventEmitter.emitter := e;
               SSEEventEmitter.outside := SSEEventEmitter.outside (bus s);
               SSEEventEmitter.invoked := SSEEventEmitter.invoked (bus s) |};
     manager := manager s |}.

Definition set_manager (m : SSEManager.t) (s : Server) : Server :=
  {| bus := bus s; manager := m |}.

(** The state at module load: nothing registered, empty queue with the
    configured bounds. *)
Definition boot (ttl : Z) (maxSize : nat) : Server :=
  {| bus := {| SSEEventEmitter.emitter := SSEEventEmitter.create;
               SSEEventEmitter.outside :=
                 {| next_uuid := 0; clock := 0;
                    messageQueue := MessageQueue.create ttl maxSize;
                    streams := ∅ |};
               SSEEventEmitter.invoked := [] |};
     manager := SSEManager.create |}.

(** What [request.json()] and the destructuring of [connectionId] give the
    heartbeat endpoint. *)
Inductive HeartbeatBody :=
  | BodyThrows
  | FieldMissing
  | FieldNotString (truthy : bool)
  | FieldString (connectionId : string).

Record Response := mkResponse {
  status : Z;
  success : bool;
  error : option string
}.

Section ServerOps.
Context `{UuidSupply}.

Definition addConnection (user room : string) (ctrl : nat) (s : Server)
  : (string * bool) * Server :=
  let '(connectionId, w) := randomUUID (env s) in
  let '(r, m) := SSEManager.addConnection connectionId (Date_now w) user room ctrl (manager s) in
  (r, set_manager m (set_env w s)).

Definition removeConnection (cid : string) (s : Server) : SSEManager.RemoveResult * Server :=
  let '(r, m) := SSEManager.removeConnection cid (manager s) in
  (r, set_manager m s).

Definition updateActivity (cid : string) (s : Server) : Server :=
  set_manager (SSEManager.updateActivity (Date_now (env s)) cid (manager s)) s.

(** [acknowledgeHeartbeat(connectionId)] on the singleton.  [Date.now()]
    is read twice; by the second read the clock has moved on by [elapsed]
    (never backwards), and it stays there. *)
Definition acknowledgeHeartbeat (cid : string) (elapsed : Z) (s : Server) : bool * Server :=
  let now1 := Date_now (env s) in
  let w := set_clock (clock (env s) + Z.max elapsed 0) (env s) in
  match SSEManager.acknowledgeHeartbeat now1 (Date_now w) cid (manager s) with
  | (true, m) => (true, set_manager m (set_env w s))
  | (false, _) => (false, s)
  end.

Definition cleanupStaleConnections (s : Server) : Server :=
  set_manager (SSEManager.cleanupStaleConnections (Date_now (env s)) (manager s)) s.

(** [sendToConnection(connectionId, event, eventId?)] *)
Definition sendToConnection (cid : string) (event : SSEEvent) (eventId : option string)
    (s : Server) : bool * Server :=
  match SSEManager.connections (manager s) !! cid with
  | None => (false, s)
  | Some connection =>
      match SSEManager.controller connection with
      | None => (false, s)
      | Some ctrl =>
          let '(i, w1) := match eventId with
                          | Some i => (i, env s)
                          | None => randomUUID (env s)
                          end in
          let payload := formatSSEEvent event i in
          match controller_enqueue ctrl payload w1 with
          | (Normal _, w2) =>
              (true,
               set_env (enqueue (SSEManager.roomId connection)
                                (type_name (ev_type event)) (ev_data event) w2).2 s)
          | (Throw _, w2) => (false, set_env w2 s)
          end
      end
  end.

Definition sendToUser (user : string) (event : SSEEvent) (s : Server) : Z * Server :=
  foldl (λ '(sent, acc) connId,
           let '(ok, acc') := sendToConnection connId event None acc in
           (if ok then sent + 1 else sent, acc'))
        (0, s) (SSEManager.getUserConnectionIds user (manager s)).

Definition emit (type : SSEEventType) (payload : string) (eid : option string)
    (s : Server) : completion unit * Server :=
  let '(r, b) := SSEEventEmitter.emit call_listener type payload eid (bus s) in
  (r, {| bus := b; manager := manager s |}).

(** [broadcast(type, data, roomId?)]: [if (roomId)] skips the queue for an
    absent room id and for the empty string. *)
Definition broadcast (type : SSEEventType) (payload : string) (room : option string)
    (s : Server) : completion unit * Server :=
  let '(eventId, w1) := randomUUID (env s) in
  let w2 := match SSEEventEmitter.truthy room with
            | Some r => (enqueue r (type_name type) payload w1).2
            | None => w1
            end in
  emit type payload (Some eventId) (set_env w2 s).

(** The payload of a heartbeat event, carried as text: it keeps the
    connection id and the timestamp and leaves out [serverTime], the ISO
    rendering of the same timestamp; nothing below reads the text. *)
Definition heartbeat_data (cid : string) (now : Z) : string :=
  "{" +:+ "connectionId:" +:+ cid +:+ ",timestamp:" +:+ pretty now +:+ "}".

(** One connection of [sendHeartbeats]; a failed write is swallowed. *)
Definition sendHeartbeat (now : Z) (w : Env) (kc : string * SSEManager.SSEConnection) : Env :=
  match SSEManager.controller kc.2 with
  | Some ctrl =>
      let heartbeatEvent := {| ev_type := heartbeat; ev_data := heartbeat_data kc.1 now;
                               ev_id := None |} in
      let '(i, w1) := randomUUID w in
      (controller_enqueue ctrl (formatSSEEvent heartbeatEvent i) w1).2
  | None => w
  end.

Definition sendHeartbeats (s : Server) : Server :=
  let now := Date_now (env s) in
  set_env (foldl (sendHeartbeat now) (env s)
                 (map_to_list (SSEManager.connections (manager s)))) s.

(** POST /api/sse/heartbeat; [caller] is [locals.user?.id], [elapsed] the
    time between the two clock reads of [acknowledgeHeartbeat]. *)
Definition heartbeat_POST (caller : option string) (body : HeartbeatBody) (elapsed : Z)
    (s : Server) : Response * Server :=
  match caller with
  | None => ({| status := 401; success := false; error := Some "Unauthorized" |}, s)
  | Some callerId =>
      match body with
      | BodyThrows =>
          ({| status := 500; success := false; error := Some "Internal server error" |}, s)
      | FieldMissing | FieldNotString _ =>
          ({| status := 400; success := false; error := Some "Invalid connectionId" |}, s)
      | FieldString connectionId =>
          if decide (connectionId = "") then
            ({| status := 400; success := false; error := Some "Invalid connectionId" |}, s)
          else
            match SSEManager.getConnection connectionId (manager s) with
            | None =>
                ({| status := 404; success := false; error := Some "Connection not found" |}, s)
            | Some connection =>
                if decide (SSEManager.userId connection ≠ callerId) then
                  ({| status := 403; success := false; error := Some "Unauthorized" |}, s)
                else
                  let '(acknowledged, s') := acknowledgeHeartbeat connectionId elapsed s in
                  if acknowledged
                  then ({| status := 200; success := true; error := None |}, s')
                  else ({| status := 500; success := false;
                           error := Some "Failed to acknowledge" |}, s')
            end
      end
  end.

(** Everything that can happen to the server between two observations. *)
Inductive Op :=
  | AddConnection (user room : string) (ctrl : nat)
  | RemoveConnection (cid : string)
  | UpdateActivity (cid : string)
  | AcknowledgeHeartbeat (cid : string) (elapsed : Z)
  | CleanupStaleConnections
  | SendToConnection (cid : string) (event : SSEEvent) (eventId : option string)
  | SendToUser (user : string) (event : SSEEvent)
  | Broadcast (type : SSEEventType) (payload : string) (room : option string)
  | Emit (type : SSEEventType) (payload : string) (eid : option string)
  | SendHeartbeats
  | HeartbeatPOST (caller : option string) (body : HeartbeatBody) (elapsed : Z)
  | AddListener (channel : string) (listener : Listener)
  | RemoveListener (channel : string) (listener : Listener)
  | RemoveAllListeners (channel : option string)
  | Enqueue (room event payload : string)
  | QueueCleanup
  | QueueClear
  | OpenStream (ctrl : nat)
  | CloseStream (ctrl : nat)
  | WriteStream (ctrl : nat) (chunk : string)
  | Tick (elapsed : Z).

Definition step (s : Server) (o : Op) : Server :=
  match o with
  | AddConnection user room ctrl => (addConnection user room ctrl s).2
  | RemoveConnection cid => (removeConnection cid s).2
  | UpdateActivity cid => updateActivity cid s
  | AcknowledgeHeartbeat cid elapsed => (acknowledgeHeartbeat cid elapsed s).2
  | CleanupStaleConnections => cleanupStaleConnections s
  | SendToConnection cid event eventId => (sendToConnection cid event eventId s).2
  | SendToUser user event => (sendToUser user event s).2
  | Broadcast type payload room => (broadcast type payload room s).2
  | Emit type payload eid => (emit type payload eid s).2
  | SendHeartbeats => sendHeartbeats s
  | HeartbeatPOST caller body elapsed => (heartbeat_POST caller body elapsed s).2
  | AddListener channel listener =>
      set_emitter (SSEEventEmitter.addListener channel listener (sseEmitter s)) s
  | RemoveListener channel listener =>
      set_emitter (SSEEventEmitter.removeListener channel listener (sseEmitter s)).2 s
  | RemoveAllListeners channel =>
      set_emitter (SSEEventEmitter.removeAllListeners channel (sseEmitter s)) s
  | Enqueue room event payload => set_env (enqueue room event payload (env s)).2 s
  | QueueCleanup =>
      set_env (set_messageQueue
                 (MessageQueue.cleanup (Date_now (env s)) (messageQueue (env s))).2 (env s)) s
  | QueueClear =>
      set_env (set_messageQueue (MessageQueue.clear (messageQueue (env s))) (env s)) s
  | OpenStream ctrl =>
      set_env (set_streams (<[ctrl := {| closed := false; written := [] |}]>
                              (streams (env s))) (env s)) s
  | CloseStream ctrl =>
      set_env (set_streams (alter (λ st, {| closed := true; written := written st |}) ctrl
                                  (streams (env s))) (env s)) s
  | WriteStream ctrl chunk => set_env (controller_enqueue ctrl chunk (env s)).2 s
  | Tick elapsed => set_env (set_clock (clock (env s) + Z.max elapsed 0) (env s)) s
  end.

Definition run (s : Server) (ops : list Op) : Server := foldl step s ops.

(** Every id held in the queue was drawn from the UUID supply. *)
Definition queue_ids_allocated (w : Env) : Prop :=
  ∀ room q m,
    MessageQueue.queues (messageQueue w) !! room = Some q → m ∈ q →
    ∃ k, (k < next_uuid w)%nat ∧ MessageQueue.id m = uuid k.

(** Every connection id was drawn from the first [n] UUIDs. *)
Definition connection_ids_allocated (n : nat) (m : SSEManager.t) : Prop :=
  ∀ cid c, SSEManager.connections m !! cid = Some c → ∃ k, (k < n)%nat ∧ cid = uuid k.

(** The invariant of the reachable server states. *)
Definition wf (s : Server) : Prop :=
  queue_ids_allocated (env s)
  ∧ connection_ids_allocated (next_uuid (env s)) (manager s)
  ∧ SSEManager.consistent (manager s).

(** [w'] is a later environment than [w]: the supply only advances, and
    a message of the later queue either was in the earlier queue of the
    same room or carries a UUID drawn in between. *)
Definition grows (w w' : Env) : Prop :=
  (next_uuid w ≤ next_uuid w')%nat
  ∧ ∀ room q' m,
      MessageQueue.queues (messageQueue w') !! room = Some q' → m ∈ q' →
      (∃ q, MessageQueue.queues (messageQueue w) !! room = Some q ∧ m ∈ q)
      ∨ (∃ k, (next_uuid w ≤ k < next_uuid w')%nat ∧ MessageQueue.id m = uuid k).

(** No entry of any room's log carries the id [i]. *)
Definition absent_from_queue (i : string) (w : Env) : Prop :=
  ∀ room q m,
    MessageQueue.queues (messageQueue w) !! room = Some q → m ∈ q →
    MessageQueue.id m ≠ i.

(** A registry whose table has no key the earlier table lacked. *)
Definition no_new_connection (m m' : SSEManager.t) : Prop :=
  ∀ cid c', SSEManager.connections m' !! cid = Some c' →
            is_Some (SSEManager.connections m !! cid).



End ServerOps.

(** ** The SSE endpoint: GET /api/sse *)

(** What the registry can become in one step of the server when the next
    UUID is [uuid n]. *)
Inductive registry_change `{UuidSupply} (n : nat) (m : SSEManager.t) : SSEManager.t → Prop :=
  | rc_same : registry_change n m m
  | rc_add now user room ctrl :
      registry_change n m (SSEManager.addConnection (uuid n) now user room ctrl m).2
  | rc_remove cid : registry_change n m (SSEManager.removeConnection cid m).2
  | rc_activity now cid : registry_change n m (SSEManager.updateActivity now cid m)
  | rc_heartbeat now1 now2 cid :
      registry_change n m (SSEManager.acknowledgeHeartbeat now1 now2 cid m).2
  | rc_sweep now : registry_change n m (SSEManager.cleanupStaleConnections now m).

(** The registry as its users see it: every user's set lists the ids of
    the user's connections without repetition, and every connection is
    stored under its own id. *)
Definition registry_exact (m : SSEManager.t) : Prop :=
  SSEManager.consistent m
  ∧ (∀ user set, SSEManager.userConnections m !! user = Some set → NoDup set)
  ∧ (∀ cid c, SSEManager.connections m !! cid = Some c → SSEManager.connectionId c = cid).

(** The catch-up queue as its users see it. *)
Definition queue_sound `{UuidSupply} (w : Env) : Prop :=
  queue_ids_allocated w
  ∧ MessageQueue.rooms_nonempty (messageQueue w)
  ∧ MessageQueue.ids_distinct (messageQueue w)
  ∧ ((0 < MessageQueue.maxSize (messageQueue w))%nat →
     ∀ room queue, MessageQueue.queues (messageQueue w) !! room = Some queue →
                   (length queue ≤ MessageQueue.maxSize (messageQueue w))%nat).

(** Whether the stream behind a controller accepts a write. *)
Definition stream_open (w : Env) (ctrl : nat) : bool :=
  match streams w !! ctrl with
  | Some st => negb (closed st)
  | None => false
  end.

(** Whether a bus listener belongs to [room] and can write to its stream. *)
Definition is_live (room : string) (w : Env) (l : Listener) : bool :=
  bool_decide (l_room l = room) && stream_open w (l_ctrl l).

(** The bus listeners that belong to [room] and can write. *)
Definition live_listeners (room : string) (w : Env) (ls : list Listener) : list Listener :=
  filter (λ l, is_live room w l = true) ls.

(** The chunks written so far to the stream behind a controller. *)
Definition written_to (w : Env) (ctrl : nat) : list string :=
  match streams w !! ctrl with
  | Some st => written st
  | None => []
  end.

(** Whether [cid] names a registered connection that holds a controller
    whose stream accepts a write. *)
Definition deliverable (s : Server) (cid : string) : bool :=
  match SSEManager.connections (manager s) !! cid with
  | Some c =>
      match SSEManager.controller c with
      | Some ctrl => stream_open (env s) ctrl
      | None => false
      end
  | None => false
  end.

(** The frame of a queued message: [formatSSEEvent] applied to
    [{ type: msg.event, data: msg.data }] and [msg.id]. *)
Definition format_queued (msg : MessageQueue.QueuedMessage) : string :=
  "id: " +:+ MessageQueue.id msg +:+ nl +:+
  "event: " +:+ MessageQueue.event msg +:+ nl +:+
  "data: " +:+ MessageQueue.data msg +:+ nl +:+
  "retry: " +:+ pretty SSE_CONFIG.RETRY_INTERVAL +:+ nl +:+
  nl.

(** [DEFAULT_CHAT_ROOM_ID]: the configured id, or the built-in one when
    none (or the empty string) is configured. *)
Definition DEFAULT_CHAT_ROOM_ID (configured : option string) : string :=
  match SSEEventEmitter.truthy configured with
  | Some room => room
  | None => "00000000-0000-0000-0000-000000000001"
  end.

Section Endpoint.
Context `{UuidSupply}.

(** [JSON.stringify] of the payload [{ userId, status, lastSeen }]. *)
Variable status_json : string → string → Z → string.

(** The presence broadcast that follows a successful database update. *)
Definition announce (user status : string) (s : Server) : Server :=
  (emit userStatusUpdate (status_json user status (Date_now (env s))) None s).2.

(** The catch-up loop: one frame per missed message, in order; a write
    that throws ends it. *)
Fixpoint replay (ctrl : nat) (missed : list MessageQueue.QueuedMessage) (w : Env)
  : completion unit * Env :=
  match missed with
  | [] => (Normal tt, w)
  | msg :: rest =>
      match controller_enqueue ctrl (format_queued msg) w with
      | (Normal _, w1) => replay ctrl rest w1
      | (Throw err, w1) => (Throw err, w1)
      end
  end.

(** The first part of [start(controller)]: register the connection and,
    for a user without another connection, announce it once the database
    update went through ([db_ok]). *)
Definition GET_register (user room : string) (ctrl : nat) (db_ok : bool) (s : Server)
  : (string * bool) * Server :=
  let '((connId, isNewUser), s1) := addConnection user room ctrl s in
  ((connId, isNewUser),
   if isNewUser && db_ok then announce user "online" s1 else s1).

(** The rest of [start(controller)]: the connect frame, the catch-up
    frames when a [Last-Event-ID] was presented, and the registration of
    the [onSSE] closure [lid]. *)
Definition GET_stream (user room : string) (lastEventId : option string) (ctrl lid : nat)
    (s : Server) : completion unit * Server :=
  let '(i, w1) := randomUUID (env s) in
  let connectEvent :=
    formatSSEEvent {| ev_type := userStatusUpdate;
                      ev_data := status_json user "connected" (Date_now w1);
                      ev_id := None |} i in
  match controller_enqueue ctrl connectEvent w1 with
  | (Throw err, w2) => (Throw err, set_env w2 s)
  | (Normal _, w2) =>
      let '(r, w3) :=
        match SSEEventEmitter.truthy lastEventId with
        | Some last =>
            replay ctrl (MessageQueue.getMessagesSince room last (messageQueue w2)) w2
        | None => (Normal tt, w2)
        end in
      match r with
      | Throw err => (Throw err, set_env w3 s)
      | Normal _ =>
          (Normal tt,
           set_emitter (SSEEventEmitter.addListener "sse" (OnSSE lid room ctrl)
                          (sseEmitter (set_env w3 s)))
                       (set_env w3 s))
      end
  end.

Definition GET_start (user room : string) (lastEventId : option string) (ctrl lid : nat)
    (db_ok : bool) (s : Server) : completion string * Server :=
  let '((connId, _), s1) := GET_register user room ctrl db_ok s in
  match GET_stream user room lastEventId ctrl lid s1 with
  | (Normal _, s2) => (Normal connId, s2)
  | (Throw err, s2) => (Throw err, s2)
  end.


(** The request handler: no stream without an authenticated user. The
    stream it creates is new, so its controller starts open and empty. *)
Definition GET (caller : option string) (room : string) (lastEventId : option string)
    (ctrl lid : nat) (db_ok : bool) (s : Server) : Z * Server :=
  match caller with
  | None => (401, s)
  | Some user =>
      (200,
       (GET_start user room lastEventId ctrl lid db_ok
          (set_env (set_streams (<[ctrl := {| closed := false; written := [] |}]>
                                   (streams (env s))) (env s)) s)).2)
  end.

End Endpoint.

(** ** SSEClient: the reconnect back-off *)

Module SSEClient.

Inductive ConnectionStatus := connecting | connected | reconnecting | disconnected.

(** The fields the reconnect logic reads and writes.  A timer is the delay
    it was armed with; [eventSource] tells whether a transport handle is
    held. *)
Record t := mk {
  status : ConnectionStatus;
  reconnectAttempts : nat;
  heartbeatTimer : option Z;
  reconnectTimer : option Z;
  eventSource : bool
}.

Definition create : t :=
  {| status := disconnected; reconnectAttempts := 0; heartbeatTimer := None;
     reconnectTimer := None; eventSource := false |}.

(** [Math.min(base * Math.pow(2, attempts), max)] *)
Definition exponentialDelay (base max : Z) (attempts : nat) : Z :=
  Z.min (base * 2 ^ Z.of_nat attempts) max.

(** [calculateBackoff()]; [random] is what [Math.random()] returned, a
    number in [0, 1).  The two products and the sum are exact here, where
    the source rounds each of them to a double.  Rounding is monotone
    and, for the configured base and cap, both [d] and [5d/4] are
    doubles, so it moves the argument of [Math.floor] only within
    [d .. 5d/4], the upper end included (the exact value stays below
    it): the bounds stated of this function are the inclusive ones, which
    hold with and without rounding. *)
Definition calculateBackoff_with (base max : Z) (random : Q) (attempts : nat) : Z :=
  let d := exponentialDelay base max attempts in
  let jitter := (inject_Z d * random * (1 # 4))%Q in
  Qfloor (inject_Z d + jitter)%Q.

Definition calculateBackoff (random : Q) (c : t) : Z :=
  calculateBackoff_with SSE_CONFIG.INITIAL_RECONNECT_DELAY SSE_CONFIG.MAX_RECONNECT_DELAY
                        random (reconnectAttempts c).

(** [cleanup()]: both timers cleared, the transport handle closed. *)
Definition cleanup (c : t) : t :=
  {| status := status c; reconnectAttempts := reconnectAttempts c;
     heartbeatTimer := None; reconnectTimer := None; eventSource := false |}.

(** [handleDisconnection()]: the counter is incremented before the delay
    is computed from it. *)
Definition handleDisconnection (random : Q) (c : t) : t :=
  let c1 := cleanup c in
  let c2 := {| status := reconnecting; reconnectAttempts := S (reconnectAttempts c1);
               heartbeatTimer := heartbeatTimer c1; reconnectTimer := reconnectTimer c1;
               eventSource := eventSource c1 |} in
  let delay := calculateBackoff random c2 in
  {| status := status c2; reconnectAttempts := reconnectAttempts c2;
     heartbeatTimer := heartbeatTimer c2; reconnectTimer := Some delay;
     eventSource := eventSource c2 |}.

(** [getReconnectDelay()]: the delay, in seconds, the client reports for
    the current attempt; it reads [attempts - 1]. *)
Definition getReconnectDelay (c : t) : option Z :=
  match status c with
  | reconnecting =>
      let base := inject_Z SSE_CONFIG.INITIAL_RECONNECT_DELAY in
      let max := inject_Z SSE_CONFIG.MAX_RECONNECT_DELAY in
      let d := Qmin (base * Qpower (2 # 1) (Z.of_nat (reconnectAttempts c) - 1)) max in
      Some (Qceiling (d / inject_Z 1000))
  | _ => None
  end.

(** The attempt number the client is at after [k] disconnections in a row
    from a connected client, and the delay it armed for that attempt. *)
Definition after_disconnections (randoms : list Q) : t :=
  foldl (λ c r, handleDisconnection r c) create randoms.

End SSEClient.

(** * Properties *)

(** ** Array primitives *)

Section JsFacts.
Context {A : Type}.
Implicit Types (l : list A) (n : nat).

Lemma slice_zero l : Js.slice 0 l = l.
Proof.
  unfold Js.slice. simpl.
  replace (Z.to_nat (Z.min 0 (Z.of_nat (length l)))) with 0%nat by lia.
  reflexivity.
Qed.

Lemma slice_from_end n l : (0 < n)%nat → Js.slice (- Z.of_nat n) l = Js.lastn n l.
Proof.
  intros Hn. unfold Js.slice, Js.lastn.
  destruct (Z.ltb_spec (- Z.of_nat n) 0) as [_|?]; [|lia].
  f_equal. lia.
Qed.

Lemma slice_from_start n l : Js.slice (Z.of_nat n) l = drop n l.
Proof.
  unfold Js.slice.
  destruct (Z.ltb_spec (Z.of_nat n) 0) as [?|_]; [lia|].
  destruct (decide (n ≤ length l)%nat).
  - f_equal. lia.
  - rewrite !drop_ge by lia. reflexivity.
Qed.

Lemma lastn_length n l : length (Js.lastn n l) = Nat.min n (length l).
Proof. unfold Js.lastn. rewrite length_drop. lia. Qed.

Lemma lastn_all n l : (length l ≤ n)%nat → Js.lastn n l = l.
Proof.
  intros Hle. unfold Js.lastn.
  replace (length l - n)%nat with 0%nat by lia. reflexivity.
Qed.

Lemma lastn_suffix n l : Js.lastn n l `suffix_of` l.
Proof. apply suffix_drop. Qed.

Lemma lastn_app n l1 l2 :
  (n ≤ length l2)%nat → Js.lastn n (l1 ++ l2) = Js.lastn n l2.
Proof.
  intros Hle. unfold Js.lastn. rewrite length_app, drop_app.
  rewrite drop_ge by lia. simpl. f_equal. lia.
Qed.

(** Trimming, appending and trimming again is appending and trimming once. *)
Lemma lastn_app_lastn n l l2 :
  Js.lastn n (Js.lastn n l ++ l2) = Js.lastn n (l ++ l2).
Proof.
  unfold Js.lastn.
  rewrite !length_app, length_drop, !drop_app, drop_drop, length_drop.
  f_equal; f_equal; lia.
Qed.

Lemma lastn_last n l x : (0 < n)%nat → last (Js.lastn n (l ++ [x])) = Some x.
Proof.
  intros Hn. unfold Js.lastn. rewrite length_app. simpl.
  rewrite drop_app_le by lia. apply last_snoc.
Qed.

Lemma filter_id (P : A → Prop) `{∀ x, Decision (P x)} l :
  Forall P l → filter P l = l.
Proof.
  induction 1 as [|x l Hx _ IH]; [done|].
  rewrite filter_cons_True by done. by rewrite IH.
Qed.

Lemma elem_of_slice k l x : x ∈ Js.slice k l → x ∈ l.
Proof.
  unfold Js.slice. intros Hin.
  apply list_elem_of_lookup in Hin as [i Hi]. rewrite lookup_drop in Hi.
  eapply list_elem_of_lookup_2, Hi.
Qed.



Lemma findIndex_none (P : A → Prop) `{∀ x, Decision (P x)} l :
  Js.findIndex P l = -1 ↔ Forall (λ x, ¬ P x) l.
Proof.
  unfold Js.findIndex. destruct (list_find P l) as [[i x]|] eqn:Hf.
  - split; [lia|]. intros Hall. apply list_find_Some in Hf as (Hi & HP & _).
    rewrite Forall_forall in Hall. exfalso. eapply Hall; [|exact HP].
    eapply list_elem_of_lookup_2; eauto.
  - split; [|done]. intros _. by apply (list_find_None P).
Qed.


End JsFacts.

(** ** The catch-up log *)

Module MessageQueueFacts.
Import MessageQueue.

Lemma enqueue_maxSize fresh now room ev payload q :
  maxSize (enqueue fresh now room ev payload q).2 = maxSize q.
Proof. reflexivity. Qed.

Lemma enqueue_returns fresh now room ev payload q :
  (enqueue fresh now room ev payload q).1 = fresh.
Proof. reflexivity. Qed.

Lemma enqueue_log_other fresh now room ev payload q room' :
  room' ≠ room → log room' (enqueue fresh now room ev payload q).2 = log room' q.
Proof.
  intros Hne. unfold log, enqueue. simpl.
  by rewrite lookup_insert_ne.
Qed.

(** With a positive bound, [enqueue] pushes and keeps the newest
    [maxSize] messages of the room. *)
Lemma enqueue_log fresh now room ev payload q :
  (0 < maxSize q)%nat →
  log room (enqueue fresh now room ev payload q).2 =
  Js.lastn (maxSize q) (log room q ++ [mkMsg fresh ev payload now room]).
Proof.
  intros Hpos. unfold log at 1. unfold enqueue. simpl.
  rewrite lookup_insert_eq. simpl. fold (log room q).
  case_bool_decide as Hlen.
  - by apply slice_from_end.
  - symmetry. apply lastn_all. lia.
Qed.

(** With bound 0 the trim is [slice(-0)], which drops nothing. *)
Lemma enqueue_log_unbounded fresh now room ev payload q :
  maxSize q = 0%nat →
  log room (enqueue fresh now room ev payload q).2 =
  log room q ++ [mkMsg fresh ev payload now room].
Proof.
  intros Hz. unfold log at 1. unfold enqueue. simpl.
  rewrite lookup_insert_eq. simpl. fold (log room q). rewrite Hz. simpl.
  case_bool_decide; [apply slice_zero | reflexivity].
Qed.

(** After any [enqueue], the room's log is not empty and ends with the
    message just pushed. *)
Lemma enqueue_last fresh now room ev payload q :
  last (log room (enqueue fresh now room ev payload q).2)
  = Some (mkMsg fresh ev payload now room).
Proof.
  destruct (decide (maxSize q = 0%nat)) as [Hz|Hnz].
  - rewrite enqueue_log_unbounded by done. apply last_snoc.
  - rewrite enqueue_log by lia. apply lastn_last. lia.
Qed.

Lemma enqueue_queue_is_log fresh now room ev payload q :
  queues (enqueue fresh now room ev payload q).2 !! room
  = Some (log room (enqueue fresh now room ev payload q).2).
Proof. unfold log, enqueue. simpl. by rewrite lookup_insert_eq. Qed.

(** A message of the queue after [enqueue] is the pushed one, in its
    room, or was in the queue of the same room before. *)
Lemma enqueue_elem fresh now room ev payload q room' q' m :
  queues (enqueue fresh now room ev payload q).2 !! room' = Some q' → m ∈ q' →
  (room' = room ∧ m = mkMsg fresh ev payload now room)
  ∨ (∃ q0, queues q !! room' = Some q0 ∧ m ∈ q0).
Proof.
  unfold enqueue. simpl. destruct (decide (room = room')) as [<-|Hne].
  - rewrite lookup_insert_eq. intros [= <-] Hin.
    assert (Hin' : m ∈ default [] (queues q !! room) ++ [mkMsg fresh ev payload now room]).
    { case_bool_decide; [by eapply elem_of_slice | done]. }
    apply elem_of_app in Hin' as [Hold|Hnew%list_elem_of_singleton]; [|by left].
    right. destruct (queues q !! room) as [q0|]; simpl in Hold; [eauto|].
    by apply elem_of_nil in Hold.
  - rewrite lookup_insert_ne by done. eauto.
Qed.

Lemma cleanup_elem now q room q' m :
  queues (cleanup now q).2 !! room = Some q' → m ∈ q' →
  ∃ q0, queues q !! room = Some q0 ∧ m ∈ q0.
Proof.
  unfold cleanup. simpl. rewrite lookup_omap.
  destruct (queues q !! room) as [q0|]; simpl; [|done].
  unfold cleanup_room. intros Hq Hin. exists q0. split; [done|].
  repeat case_bool_decide; simplify_eq; [|done].
  by apply list_elem_of_filter in Hin as [_ ?].
Qed.

Lemma enqueue_all_maxSize q calls : maxSize (enqueue_all q calls) = maxSize q.
Proof.
  revert q. induction calls as [|c calls IH]; intros q; [done|].
  simpl. rewrite IH. reflexivity.
Qed.

Lemma messages_for_cons_same c calls :
  messages_for (c_room c) (c :: calls) = message_of c :: messages_for (c_room c) calls.
Proof. unfold messages_for. rewrite filter_cons_True by done. reflexivity. Qed.

Lemma messages_for_cons_other room c calls :
  c_room c ≠ room → messages_for room (c :: calls) = messages_for room calls.
Proof. intros Hne. unfold messages_for. by rewrite filter_cons_False. Qed.

(** The log of a room after a sequence of [enqueue] calls on any rooms:
    the newest [maxSize] of what the room held plus what the calls pushed
    for it, in insertion order. *)
Lemma enqueue_all_log q calls room :
  (0 < maxSize q)%nat →
  (length (log room q) ≤ maxSize q)%nat →
  log room (enqueue_all q calls) =
  Js.lastn (maxSize q) (log room q ++ messages_for room calls).
Proof.
  intros Hpos. revert q Hpos.
  induction calls as [|c calls IH]; intros q Hpos Hlen.
  - simpl. unfold messages_for. simpl. rewrite app_nil_r.
    symmetry. by apply lastn_all.
  - simpl. unfold enqueue_call at 1.
    destruct (decide (c_room c = room)) as [<-|Hne].
    + rewrite IH; rewrite ?enqueue_maxSize, ?enqueue_log; try done.
      * rewrite messages_for_cons_same, lastn_app_lastn, <- app_assoc. reflexivity.
      * rewrite lastn_length. lia.
    + rewrite IH; rewrite ?enqueue_maxSize, ?enqueue_log_other; try done.
      by rewrite messages_for_cons_other.
Qed.

(** From an empty queue with a positive bound: after any sequence of
    [enqueue] calls the room's log is within the bound and holds exactly
    the newest [maxSize] messages pushed for the room, in insertion order. *)
Lemma enqueue_retains_newest ttl0 max calls room :
  (0 < max)%nat →
  let q := enqueue_all (create ttl0 max) calls in
  (length (log room q) ≤ max)%nat
  ∧ log room q = Js.lastn max (messages_for room calls).
Proof.
  intros Hpos q.
  assert (Hlog : log room q = Js.lastn max (messages_for room calls)).
  { unfold q. rewrite enqueue_all_log; simpl; try done.
    unfold log. simpl. rewrite lookup_empty. simpl. lia. }
  split; [|done]. rewrite Hlog, lastn_length. lia.
Qed.

(** With bound 0 nothing is ever dropped. *)
Lemma enqueue_all_unbounded q calls room :
  maxSize q = 0%nat →
  log room (enqueue_all q calls) = log room q ++ messages_for room calls.
Proof.
  revert q. induction calls as [|c calls IH]; intros q Hz.
  - simpl. unfold messages_for. simpl. by rewrite app_nil_r.
  - simpl. rewrite IH by done. unfold enqueue_call.
    destruct (decide (c_room c = room)) as [<-|Hne].
    + rewrite enqueue_log_unbounded, messages_for_cons_same, <- app_assoc by done.
      reflexivity.
    + by rewrite enqueue_log_other, messages_for_cons_other.
Qed.

(** C5, at the bound the code misses: a queue configured with max size 0
    holds one message after one [enqueue] (and every message after more):
    the trim it runs is [queue.slice(-0)], the whole array. *)
Theorem enqueue_bound_zero_not_enforced :
  let q := enqueue_all (create SSE_CONFIG.MESSAGE_QUEUE_TTL 0)
                       [mkCall "e1" 0 "room1" "chatMessage" "{}"] in
  maxSize q = 0%nat
  ∧ log "room1" q = [mkMsg "e1" "chatMessage" "{}" 0 "room1"]
  ∧ (maxSize q < length (log "room1" q))%nat.
Proof. vm_compute. split; [done|]. split; [done|]. lia. Qed.

Lemma getMessagesSince_spec room lastEventId q :
  getMessagesSince room lastEventId q =
  let queue := log room q in
  let lastIndex := Js.findIndex (λ m, id m = lastEventId) queue in
  if bool_decide (lastIndex = -1) then Js.slice (-50) queue
  else Js.slice (lastIndex + 1) queue.
Proof.
  unfold getMessagesSince, log. destruct (queues q !! room) as [queue|]; simpl.
  - case_bool_decide as Hlen; [|done].
    apply nil_length_inv in Hlen. subst. reflexivity.
  - reflexivity.
Qed.


(** The fallback path: an id carried by no entry of the room's log is
    not found, and the last 50 entries are returned. *)
Lemma getMessagesSince_fallback room lastEventId q :
  lastEventId ∉ (id <$> log room q) →
  Js.findIndex (λ m, id m = lastEventId) (log room q) = -1
  ∧ getMessagesSince room lastEventId q = Js.lastn 50 (log room q).
Proof.
  intros Hnot.
  assert (Hidx : Js.findIndex (λ m, id m = lastEventId) (log room q) = -1).
  { apply findIndex_none, Forall_forall. intros m Hm Hid.
    apply Hnot. rewrite <- Hid. apply list_elem_of_fmap_2. exact Hm. }
  split; [done|]. rewrite getMessagesSince_spec. simpl.
  rewrite bool_decide_eq_true_2 by done. apply (slice_from_end 50). lia.
Qed.

(** C6: when [lastEventId] is the id of no entry of the room's log,
    [getMessagesSince] returns the last 50 entries of the log (all of it
    when it is shorter), in order; its length is the smaller of 50 and the
    log's length; for a room without a log it returns the empty array. *)
Theorem getMessagesSince_unknown_id room lastEventId q :
  lastEventId ∉ (id <$> log room q) →
  getMessagesSince room lastEventId q = Js.lastn 50 (log room q)
  ∧ length (getMessagesSince room lastEventId q) = Nat.min 50 (length (log room q))
  ∧ (queues q !! room = None → getMessagesSince room lastEventId q = []).
Proof.
  intros Hnot.
  pose proof (getMessagesSince_fallback room lastEventId q Hnot) as [_ Heq].
  split; [exact Heq|]. split.
  - rewrite Heq. apply lastn_length.
  - intros Hnone. unfold getMessagesSince. by rewrite Hnone.
Qed.

Lemma getMessagesSince_unknown_id_witness :
  let q := enqueue_all (create 1000 10)
             [mkCall "a" 0 "room1" "chatMessage" "{0}";
              mkCall "b" 1 "room1" "chatMessage" "{1}"] in
  getMessagesSince "room1" "unknown-id" q = Js.lastn 50 (log "room1" q)
  ∧ length (getMessagesSince "room1" "unknown-id" q) = Nat.min 50 (length (log "room1" q))
  ∧ (queues q !! "room1" = None → getMessagesSince "room1" "unknown-id" q = []).
Proof.
  intros q. apply (getMessagesSince_unknown_id "room1" "unknown-id" q).
  vm_compute. intros Hin.
  repeat (apply elem_of_cons in Hin as [Hin|Hin]; [discriminate Hin|]).
  by apply elem_of_nil in Hin.
Defined.

End MessageQueueFacts.

(** ** The event bus *)

Module SSEEventEmitterFacts.
Import SSEEventEmitter.

Section Bus.
Context {L : Type} `{EqDecision L} {W : Type}.
Variable call : L → SSEEvent → W → completion unit * W.
Implicit Types (e : t L) (b : bus L W) (l : L).

Lemma removeListener_members channel l e :
  channel_listeners channel (removeListener channel l e).2
  = filter (λ y, y ≠ l) (channel_listeners channel e).
Proof.
  unfold channel_listeners, removeListener.
  destruct (listeners e !! channel) as [ls|] eqn:Hls; simpl; [|by rewrite Hls].
  case_bool_decide as Hin; simpl.
  - case_bool_decide as Hsz; simpl.
    + rewrite lookup_delete_eq. simpl.
      unfold JsSet.size in Hsz. symmetry. apply nil_length_inv. lia.
    + by rewrite lookup_insert_eq.
  - rewrite Hls. simpl. symmetry. apply filter_id, Forall_forall.
    intros y Hy ->. done.
Qed.

Lemma removeListener_other_channel channel channel' l e :
  channel' ≠ channel →
  channel_listeners channel' (removeListener channel l e).2 = channel_listeners channel' e.
Proof.
  intros Hne. unfold channel_listeners, removeListener.
  destruct (listeners e !! channel) as [ls|] eqn:Hls; simpl; [|done].
  case_bool_decide as Hin; simpl; [|done].
  case_bool_decide; simpl; by rewrite ?lookup_delete_ne, ?lookup_insert_ne.
Qed.

Lemma deliver_spec event l b :
  ∃ b', deliver call event l b = (Normal tt, b')
        ∧ invoked b' = invoked b ++ [(l, event)]
        ∧ outside b' = (call l event (outside b)).2
        ∧ ((∃ u, (call l event (outside b)).1 = Normal u) → emitter b' = emitter b)
        ∧ ((∃ err, (call l event (outside b)).1 = Throw err) →
           emitter b' = (removeListener "sse" l (emitter b)).2).
Proof.
  unfold deliver, try_catch, invoke, removeListener_stmt.
  destruct (call l event (outside b)) as [[[]|err] w] eqn:Hc; simpl.
  - eexists. split; [done|]. simpl. repeat split; try done.
    intros [? [=]].
  - eexists. split; [done|]. simpl. repeat split; try done.
    intros [? [=]].
Qed.

Lemma deliver_members event l b b' :
  deliver call event l b = (Normal tt, b') →
  (∀ l', l' ∈ sse_listeners b' → l' ∈ sse_listeners b)
  ∧ (∀ l', l' ∈ sse_listeners b → l' ≠ l ∨ always_returns call l' → l' ∈ sse_listeners b')
  ∧ (throws_on call event l → l ∉ sse_listeners b').
Proof.
  intros Hd. destruct (deliver_spec event l b) as (b1 & Hd1 & _ & _ & Hok & Hthrow).
  rewrite Hd in Hd1. injection Hd1 as <-.
  destruct (call l event (outside b)).1 as [[]|err] eqn:Hc.
  - unfold sse_listeners. rewrite Hok by eauto. split; [done|]. split; [done|].
    intros Ht. destruct (Ht (outside b)) as [err Herr]. congruence.
  - unfold sse_listeners. rewrite Hthrow by eauto. rewrite removeListener_members.
    split; [|split].
    + intros l' [_ ?]%list_elem_of_filter. done.
    + intros l' Hin [Hne|Hret]; apply list_elem_of_filter; split; try done.
      intros ->. specialize (Hret event (outside b)). congruence.
    + intros _ [? _]%list_elem_of_filter. done.
Qed.

(** The loop of [emit] over a snapshot [xs]: it completes normally, it
    calls every member of the snapshot once, in order, and it removes
    from the channel only listeners that threw. *)
Lemma for_of_deliver event xs b :
  ∃ b', for_of xs (deliver call event) b = (Normal tt, b')
        ∧ invoked b' = invoked b ++ ((λ l, (l, event)) <$> xs)
        ∧ (∀ l, l ∈ sse_listeners b' → l ∈ sse_listeners b)
        ∧ (∀ l, l ∈ sse_listeners b → always_returns call l → l ∈ sse_listeners b')
        ∧ (∀ l, l ∈ xs → throws_on call event l → l ∉ sse_listeners b').
Proof.
  revert b. induction xs as [|x xs IH]; intros b.
  - exists b. simpl. rewrite app_nil_r. repeat split; try done.
    intros l Hl. by apply elem_of_nil in Hl.
  - destruct (deliver_spec event x b) as (b1 & Hd & Hinv & _).
    destruct (deliver_members event x b b1 Hd) as (Hsub & Hkeep & Hgone).
    destruct (IH b1) as (b' & Hloop & Hinv' & Hsub' & Hkeep' & Hgone').
    exists b'. split; [|split; [|split; [|split]]].
    + simpl. unfold bind. rewrite Hd. exact Hloop.
    + rewrite Hinv', Hinv, <- app_assoc. reflexivity.
    + intros l Hl. apply Hsub, Hsub', Hl.
    + intros l Hl Hret. apply Hkeep'; [|done]. apply Hkeep; [done|]. by right.
    + intros l [->|Hin]%elem_of_cons Ht.
      * intros Hl. apply (Hgone Ht), Hsub', Hl.
      * by apply Hgone'.
Qed.

(** A property of the state outside the emitter that every call of a
    snapshot member preserves still holds after the loop. *)
Lemma for_of_deliver_outside (P : W → Prop) event xs b :
  (∀ l w, l ∈ xs → P w → P (call l event w).2) →
  P (outside b) → P (outside (for_of xs (deliver call event) b).2).
Proof.
  revert b. induction xs as [|x xs IH]; intros b Hstep HP; [done|].
  destruct (deliver_spec event x b) as (b1 & Hd & _ & Hout & _).
  simpl. unfold bind. rewrite Hd. apply IH.
  - intros l w Hl. apply Hstep. by right.
  - rewrite Hout. apply Hstep; [by left | done].
Qed.

Lemma emit_unfold type payload eid b :
  emit call type payload eid b
  = for_of (sse_listeners b) (deliver call (mkEvent type payload eid)) b.
Proof.
  unfold emit, sse_listeners, channel_listeners.
  destruct (listeners (emitter b) !! "sse") as [ls|]; simpl; [|done].
  case_bool_decide as Hsz; [done|].
  unfold JsSet.size in Hsz. destruct ls; [done | simpl in Hsz; lia].
Qed.

(** [emit] never throws; it calls every listener that was on the
    broadcast channel when it started, once and in registration order;
    afterwards the channel has lost exactly listeners that threw. *)
Lemma emit_spec type payload eid b :
  let event := mkEvent type payload eid in
  ∃ b', emit call type payload eid b = (Normal tt, b')
        ∧ invoked b' = invoked b ++ ((λ l, (l, event)) <$> sse_listeners b)
        ∧ (∀ l, l ∈ sse_listeners b' → l ∈ sse_listeners b)
        ∧ (∀ l, l ∈ sse_listeners b → always_returns call l → l ∈ sse_listeners b')
        ∧ (∀ l, l ∈ sse_listeners b → throws_on call event l → l ∉ sse_listeners b').
Proof. intros event. rewrite emit_unfold. apply for_of_deliver. Qed.

Lemma emit_outside (P : W → Prop) type payload eid b :
  (∀ l w, l ∈ sse_listeners b → P w → P (call l (mkEvent type payload eid) w).2) →
  P (outside b) → P (outside (emit call type payload eid b).2).
Proof. rewrite emit_unfold. apply for_of_deliver_outside. Qed.

(** A run of [emit] calls: none throws, a listener that always returns
    stays on the channel and is called for every event, and a listener
    that is not on the channel is never called. *)
Lemma emit_all_spec events b :
  ∃ b' calls, emit_all call events b = (const (Normal tt) <$> events, b')
        ∧ invoked b' = invoked b ++ calls
        ∧ (∀ l, l ∈ sse_listeners b' → l ∈ sse_listeners b)
        ∧ (∀ l, l ∈ sse_listeners b → always_returns call l →
                l ∈ sse_listeners b' ∧ ∀ event, event ∈ events → (l, event) ∈ calls)
        ∧ (∀ l event, l ∉ sse_listeners b → (l, event) ∉ calls).
Proof.
  revert b. induction events as [|ev events IH]; intros b.
  - exists b, []. simpl. rewrite app_nil_r. repeat split; try done.
    + intros event Hin. by apply elem_of_nil in Hin.
    + intros l event _ Hin. by apply elem_of_nil in Hin.
  - destruct (emit_spec (ev_type ev) (ev_data ev) (ev_id ev) b)
      as (b1 & He & Hinv & Hsub & Hkeep & _).
    destruct (IH b1) as (b' & calls & Hes & Hinv' & Hsub' & Hkeep' & Hnot').
    exists b', (((λ l, (l, ev)) <$> sse_listeners b) ++ calls).
    split; [|split; [|split; [|split]]].
    + simpl. rewrite He, Hes. reflexivity.
    + rewrite Hinv', Hinv, <- app_assoc. by destruct ev.
    + eauto.
    + intros l Hin Hret. destruct (Hkeep' l (Hkeep l Hin Hret) Hret) as [Hin' Hcalls].
      split; [done|]. intros event [->|Hev]%elem_of_cons; apply elem_of_app.
      * left. apply list_elem_of_fmap. eauto.
      * right. eauto.
    + intros l event Hnot [Hin|Hin]%elem_of_app.
      * apply list_elem_of_fmap in Hin as (l' & [= -> _] & Hl'). done.
      * eapply Hnot'; [|exact Hin]. eauto.
Qed.

(** C7: let [L1] and [L2] be two listeners on the broadcast channel (in
    either order; in particular [L1] registered first), [L1] throwing on
    the emitted event and [L2] never throwing.  Then the [emit] call
    completes normally, it calls both [L1] and [L2], afterwards [L1] is
    off the channel and [L2] still on it, and in every later run of
    [emit] calls each call completes normally, [L2] is called for every
    event and [L1] is not called again. *)
Theorem emit_isolates_throwing_listener type payload eid b L1 L2 :
  let event := mkEvent type payload eid in
  L1 ∈ sse_listeners b → L2 ∈ sse_listeners b →
  throws_on call event L1 → always_returns call L2 →
  ∃ b1 first,
    emit call type payload eid b = (Normal tt, b1)
    ∧ invoked b1 = invoked b ++ first
    ∧ (L1, event) ∈ first ∧ (L2, event) ∈ first
    ∧ (L1 ∉ sse_listeners b1) ∧ (L2 ∈ sse_listeners b1)
    ∧ ∀ events, ∃ b2 later,
        emit_all call events b1 = (const (Normal tt) <$> events, b2)
        ∧ invoked b2 = invoked b1 ++ later
        ∧ (∀ ev, ev ∈ events → (L2, ev) ∈ later)
        ∧ (∀ ev, (L1, ev) ∉ later)
        ∧ (L2 ∈ sse_listeners b2).
Proof.
  intros event H1 H2 Hthrow Hret.
  destruct (emit_spec type payload eid b) as (b1 & He & Hinv & Hsub & Hkeep & Hgone).
  exists b1, ((λ l, (l, event)) <$> sse_listeners b).
  split; [done|]. split; [done|].
  split; [apply list_elem_of_fmap; eauto|].
  split; [apply list_elem_of_fmap; eauto|].
  split; [eauto|]. split; [eauto|].
  intros events.
  destruct (emit_all_spec events b1) as (b2 & later & Hes & Hinv2 & _ & Hkeep2 & Hnot2).
  exists b2, later. split; [done|]. split; [done|].
  destruct (Hkeep2 L2 (Hkeep L2 H2 Hret) Hret) as [Hin2 Hcalls].
  split; [done|]. split; [|done].
  intros ev. apply Hnot2. eauto.
Qed.

End Bus.

Lemma emit_isolates_throwing_listener_witness :
  let e := addListener "sse" 1%nat (addListener "sse" 0%nat create) in
  let b := mkBus e ([] : list nat) [] in
  let event := mkEvent buddyListUpdate "[]" None in
  ∃ b1 first,
    emit mock_call buddyListUpdate "[]" None b = (Normal tt, b1)
    ∧ invoked b1 = invoked b ++ first
    ∧ (0%nat, event) ∈ first ∧ (1%nat, event) ∈ first
    ∧ (0%nat ∉ sse_listeners b1) ∧ (1%nat ∈ sse_listeners b1)
    ∧ ∀ events, ∃ b2 later,
        emit_all mock_call events b1 = (const (Normal tt) <$> events, b2)
        ∧ invoked b2 = invoked b1 ++ later
        ∧ (∀ ev, ev ∈ events → (1%nat, ev) ∈ later)
        ∧ (∀ ev, (0%nat, ev) ∉ later)
        ∧ (1%nat ∈ sse_listeners b2).
Proof.
  intros e b event.
  apply (emit_isolates_throwing_listener mock_call buddyListUpdate "[]" None b 0%nat 1%nat).
  - vm_compute. apply list_elem_of_here.
  - vm_compute. apply list_elem_of_further, list_elem_of_here.
  - intros w. exists "Listener error". reflexivity.
  - intros ev w. reflexivity.
Defined.

(** *** The global listener counter *)

Section Counter.
Context {L : Type} `{EqDecision L}.
Implicit Types (e : t L) (m : gmap string (list L)) (l : L).

Lemma sizes_delete m c ls :
  m !! c = Some ls → sizes m = sizes (delete c m) + JsSet.size ls.
Proof.
  intros Hc. unfold sizes.
  rewrite (map_fold_delete_L _ _ c ls m); [done| |done].
  intros. lia.
Qed.

Lemma sizes_insert_new m c ls :
  m !! c = None → sizes (<[c := ls]> m) = sizes m + JsSet.size ls.
Proof.
  intros Hc. unfold sizes. rewrite map_fold_insert_L; [done| |done].
  intros. lia.
Qed.

Lemma sizes_insert m c ls :
  sizes (<[c := ls]> m) = sizes (delete c m) + JsSet.size ls.
Proof.
  rewrite <- insert_delete_eq. apply sizes_insert_new, lookup_delete_eq.
Qed.

Lemma sizes_delete_absent m c : m !! c = None → sizes (delete c m) = sizes m.
Proof. intros Hc. by rewrite delete_id. Qed.

Lemma delete_one_size l (ls : list L) :
  NoDup ls → l ∈ ls → JsSet.size (JsSet.delete l ls).2 = JsSet.size ls - 1.
Proof.
  unfold JsSet.size, JsSet.delete. simpl.
  induction 1 as [|x ls Hx Hnd IH]; intros Hin.
  - by apply elem_of_nil in Hin.
  - destruct (decide (x = l)) as [->|Hne].
    + rewrite filter_cons_False by (intros ?; done).
      rewrite filter_id; [simpl; lia|].
      apply Forall_forall. intros y Hy ->. done.
    + rewrite filter_cons_True by done. simpl.
      apply elem_of_cons in Hin as [->|Hin]; [done|].
      specialize (IH Hin). destruct ls; [by apply elem_of_nil in Hin|].
      simpl in *. lia.
Qed.

Lemma create_counter_exact : counter_exact (create (L := L)).
Proof.
  split; [reflexivity|]. intros c ls. simpl. by rewrite lookup_empty.
Qed.

Lemma addListener_counter_exact c l e :
  counter_exact e → l ∉ channel_listeners c e → counter_exact (addListener c l e).
Proof.
  intros [Hcnt Hnd] Hnew. unfold channel_listeners in Hnew. split.
  - unfold total_size, addListener in *. simpl.
    rewrite sizes_insert. unfold JsSet.add. rewrite decide_False by done.
    unfold JsSet.size. rewrite length_app. simpl.
    destruct (listeners e !! c) as [ls|] eqn:Hc; simpl.
    + rewrite (sizes_delete _ c ls) in Hcnt by done. unfold JsSet.size in Hcnt. lia.
    + rewrite sizes_delete_absent by done. lia.
  - intros c' ls. unfold addListener. simpl.
    destruct (decide (c = c')) as [<-|Hne].
    + rewrite lookup_insert_eq. intros [= <-]. unfold JsSet.add.
      rewrite decide_False by done. apply NoDup_app. split; [|split].
      * destruct (listeners e !! c) eqn:Hc; simpl; [eauto | constructor].
      * intros x Hx ->%list_elem_of_singleton. done.
      * apply NoDup_singleton.
    + rewrite lookup_insert_ne by done. apply Hnd.
Qed.

Lemma removeListener_counter_exact c l e :
  counter_exact e → counter_exact (removeListener c l e).2.
Proof.
  intros [Hcnt Hnd]. unfold removeListener.
  destruct (listeners e !! c) as [ls|] eqn:Hc; simpl; [|done].
  case_bool_decide as Hin; simpl; [|done].
  pose proof (delete_one_size l ls (Hnd c ls Hc) Hin) as Hsz.
  unfold JsSet.delete in Hsz. simpl in Hsz.
  unfold total_size in *.
  rewrite (sizes_delete _ c ls) in Hcnt by done.
  split.
  - unfold total_size. simpl. case_bool_decide as Hz; simpl.
    + lia.
    + rewrite sizes_insert. lia.
  - intros c' ls'. simpl. case_bool_decide as Hz.
    + intros Hl. apply lookup_delete_Some in Hl as [_ Hl]. eauto.
    + destruct (decide (c = c')) as [<-|Hne].
      * rewrite lookup_insert_eq. intros [= <-]. apply NoDup_filter. eauto.
      * rewrite lookup_insert_ne by done. eauto.
Qed.

Lemma removeAllListeners_counter_exact oc e :
  counter_exact e → counter_exact (removeAllListeners oc e).
Proof.
  intros [Hcnt Hnd]. unfold removeAllListeners.
  destruct (truthy oc) as [c|].
  - destruct (listeners e !! c) as [ls|] eqn:Hc; [|done].
    unfold total_size in *.
    rewrite (sizes_delete _ c ls) in Hcnt by done.
    split.
    + unfold total_size. simpl. lia.
    + intros c' ls'. simpl. intros Hl. apply lookup_delete_Some in Hl as [_ Hl]. eauto.
  - split; [reflexivity|]. intros c ls. simpl. by rewrite lookup_empty.
Qed.

(** The counter is exact after any run of [addListener], [removeListener]
    and [removeAllListeners] calls in which no [addListener] is given a
    listener that is already on its channel. *)
Lemma counter_exact_without_duplicate_add ops e :
  counter_exact e → adds_are_new e ops →
  getListenerCount None (apply_ops e ops) = total_size (apply_ops e ops).
Proof.
  revert e. induction ops as [|o ops IH]; intros e Hex Hnew.
  - apply Hex.
  - destruct Hnew as [Ho Hnew]. simpl. apply IH; [|done].
    destruct o; simpl.
    + by apply addListener_counter_exact.
    + by apply removeListener_counter_exact.
    + by apply removeAllListeners_counter_exact.
Qed.

End Counter.

(** C10, where the code departs from it: adding one listener function to
    the same channel twice leaves one member in the channel's set but
    counts two, so [getListenerCount()] is 2 while the sizes sum to 1. *)
Theorem listenerCount_counts_duplicate_add :
  let e := apply_ops create [Add "sse" 7%nat; Add "sse" 7%nat] in
  getListenerCount None e = 2
  ∧ total_size e = 1
  ∧ getListenerCount (Some "sse") e = 1.
Proof. vm_compute. done. Qed.

End SSEEventEmitterFacts.

(** ** The connection registry *)

Module SSEManagerFacts.
Import SSEManager.

Implicit Types (m : t) (cid user : string) (c : SSEConnection).

Lemma elem_of_owners m user :
  user ∈ owners m ↔ ∃ cid c, connections m !! cid = Some c ∧ userId c = user.
Proof.
  unfold owners. rewrite elem_of_list_to_set, list_elem_of_fmap. split.
  - intros (c & -> & Hc). apply list_elem_of_fmap in Hc as ([cid c'] & -> & Hin).
    apply elem_of_map_to_list in Hin. eauto.
  - intros (cid & c & Hc & <-). exists c. split; [done|].
    apply list_elem_of_fmap. exists (cid, c). split; [done|].
    by apply elem_of_map_to_list.
Qed.

Lemma consistent_mirrors m : consistent m → mirrors m.
Proof.
  intros [Hsets Hown]. split.
  - apply set_eq. intros user. rewrite elem_of_dom, elem_of_owners. split.
    + intros [s Hs]. destruct (Hsets user s Hs) as [Hne Hmem].
      destruct s as [|cid s]; [done|].
      destruct (proj1 (Hmem cid)) as (c & Hc & Hu); [apply list_elem_of_here|]. eauto.
    + intros (cid & c & Hc & <-). eauto.
  - intros user s Hs. by destruct (Hsets user s Hs).
Qed.

Lemma create_consistent : consistent create.
Proof.
  split.
  - intros user s. simpl. by rewrite lookup_empty.
  - intros cid c. simpl. by rewrite lookup_empty.
Qed.

Lemma elem_of_add (x y : string) (s : list string) :
  x ∈ JsSet.add y s ↔ x = y ∨ x ∈ s.
Proof.
  unfold JsSet.add. destruct (decide (y ∈ s)) as [Hin|Hnot].
  - split; [by right|]. intros [->|?]; done.
  - rewrite elem_of_app, list_elem_of_singleton. tauto.
Qed.

Lemma add_nonempty (y : string) (s : list string) : JsSet.add y s ≠ [].
Proof.
  intros Hnil. assert (Hin : y ∈ JsSet.add y s) by (apply elem_of_add; by left).
  rewrite Hnil in Hin. by apply elem_of_nil in Hin.
Qed.

(** [addConnection] keeps the invariant when its id is new to the table. *)
Lemma addConnection_consistent fresh now user room ctrl m :
  connections m !! fresh = None → consistent m →
  consistent (addConnection fresh now user room ctrl m).2.
Proof.
  intros Hnew [Hsets Hown]. unfold addConnection. simpl. split.
  - intros user' s. simpl.
    destruct (decide (user = user')) as [<-|Hne].
    + rewrite lookup_insert_eq. intros [= <-]. split; [apply add_nonempty|].
      intros cid. rewrite elem_of_add. split.
      * intros [->|Hin].
        -- rewrite lookup_insert_eq. eauto.
        -- destruct (userConnections m !! user) as [s|] eqn:Hs; simpl in Hin;
             [|by apply elem_of_nil in Hin].
           apply (Hsets user s Hs) in Hin as (c & Hc & Hu).
           exists c. rewrite lookup_insert_ne; [done|]. intros ->. congruence.
      * intros (c & Hc & Hu). destruct (decide (fresh = cid)) as [->|Hne]; [by left|].
        right. rewrite lookup_insert_ne in Hc by done.
        destruct (Hown cid c Hc) as [s Hs]. rewrite Hu in Hs. rewrite Hs. simpl.
        apply (Hsets user s Hs). eauto.
    + rewrite lookup_insert_ne by done. intros Hs.
      destruct (Hsets user' s Hs) as [Hnil Hmem]. split; [done|].
      intros cid. rewrite Hmem. split.
      * intros (c & Hc & Hu). exists c. rewrite lookup_insert_ne; [done|].
        intros ->. congruence.
      * intros (c & Hc & Hu). destruct (decide (fresh = cid)) as [->|Hnec].
        -- rewrite lookup_insert_eq in Hc. injection Hc as <-. simpl in Hu. done.
        -- rewrite lookup_insert_ne in Hc by done. eauto.
  - intros cid c. simpl. destruct (decide (fresh = cid)) as [->|Hne].
    + rewrite lookup_insert_eq. intros [= <-]. simpl. rewrite lookup_insert_eq. eauto.
    + rewrite lookup_insert_ne by done. intros Hc.
      destruct (decide (user = userId c)) as [->|Hneu].
      * rewrite lookup_insert_eq. eauto.
      * rewrite lookup_insert_ne by done. eauto.
Qed.

Lemma elem_of_delete (x y : string) (s : list string) :
  x ∈ (JsSet.delete y s).2 ↔ x ≠ y ∧ x ∈ s.
Proof. unfold JsSet.delete. simpl. by rewrite list_elem_of_filter. Qed.

Lemma removeConnection_consistent cid m :
  consistent m → consistent (removeConnection cid m).2.
Proof.
  intros [Hsets Hown]. unfold removeConnection.
  destruct (connections m !! cid) as [c0|] eqn:Hc0; [|done].
  destruct (Hown cid c0 Hc0) as [s0 Hs0]. rewrite Hs0.
  set (rest := (JsSet.delete cid s0).2).
  assert (Hrest : ∀ x, x ∈ rest ↔
            ∃ c, delete cid (connections m) !! x = Some c ∧ userId c = userId c0).
  { intros x. unfold rest. rewrite elem_of_delete.
    rewrite (proj2 (Hsets _ _ Hs0) x). split.
    - intros (Hne & c & Hc & Hu). exists c. by rewrite lookup_delete_ne.
    - intros (c & Hc & Hu). apply lookup_delete_Some in Hc as [Hne Hc]. eauto. }
  simpl. split.
  - intros user s. simpl. case_bool_decide as Hz.
    + intros Hs. apply lookup_delete_Some in Hs as [Hne Hs].
      destruct (Hsets user s Hs) as [Hnil Hmem]. split; [done|].
      intros x. rewrite Hmem. split.
      * intros (c & Hc & Hu). exists c. split; [|done].
        rewrite lookup_delete_ne; [done|]. intros ->. congruence.
      * intros (c & Hc & Hu). apply lookup_delete_Some in Hc as [_ Hc]. eauto.
    + destruct (decide (userId c0 = user)) as [<-|Hne].
      * rewrite lookup_insert_eq. intros [= <-]. split; [|exact Hrest].
        intros Hnil. apply Hz. unfold JsSet.size. fold rest. by rewrite Hnil.
      * rewrite lookup_insert_ne by done. intros Hs.
        destruct (Hsets user s Hs) as [Hnil Hmem]. split; [done|].
        intros x. rewrite Hmem. split.
        -- intros (c & Hc & Hu). exists c. split; [|done].
           rewrite lookup_delete_ne; [done|]. intros ->. congruence.
        -- intros (c & Hc & Hu). apply lookup_delete_Some in Hc as [_ Hc]. eauto.
  - intros x c. simpl. intros Hc. pose proof Hc as Hc'.
    apply lookup_delete_Some in Hc' as [Hne Hcm].
    case_bool_decide as Hz.
    + rewrite lookup_delete_ne; [eauto|]. intros Hu.
      assert (Hin : x ∈ rest) by (apply Hrest; eauto).
      unfold JsSet.size in Hz. fold rest in Hz.
      destruct rest; [by apply elem_of_nil in Hin | simpl in Hz; lia].
    + destruct (decide (userId c0 = userId c)) as [<-|Hneu].
      * rewrite lookup_insert_eq. eauto.
      * rewrite lookup_insert_ne by done. eauto.
Qed.

Lemma updateActivity_consistent now cid m :
  consistent m → consistent (updateActivity now cid m).
Proof.
  intros [Hsets Hown]. unfold updateActivity.
  destruct (connections m !! cid) as [c0|] eqn:Hc0; [|done].
  split; simpl.
  - intros user s Hs. destruct (Hsets user s Hs) as [Hnil Hmem]. split; [done|].
    intros x. rewrite Hmem. split.
    + intros (c & Hc & Hu). destruct (decide (cid = x)) as [->|Hne].
      * rewrite lookup_insert_eq. eexists. split; [done|]. simpl. congruence.
      * rewrite lookup_insert_ne by done. eauto.
    + intros (c & Hc & Hu). destruct (decide (cid = x)) as [->|Hne].
      * rewrite lookup_insert_eq in Hc. injection Hc as <-. simpl in Hu. eauto.
      * rewrite lookup_insert_ne in Hc by done. eauto.
  - intros x c. destruct (decide (cid = x)) as [->|Hne].
    + rewrite lookup_insert_eq. intros [= <-]. simpl. eauto.
    + rewrite lookup_insert_ne by done. eauto.
Qed.

Lemma acknowledgeHeartbeat_consistent now1 now2 cid m :
  consistent m → consistent (acknowledgeHeartbeat now1 now2 cid m).2.
Proof.
  intros [Hsets Hown]. unfold acknowledgeHeartbeat.
  destruct (connections m !! cid) as [c0|] eqn:Hc0; [|done].
  split; simpl.
  - intros user s Hs. destruct (Hsets user s Hs) as [Hnil Hmem]. split; [done|].
    intros x. rewrite Hmem. split.
    + intros (c & Hc & Hu). destruct (decide (cid = x)) as [->|Hne].
      * rewrite lookup_insert_eq. eexists. split; [done|]. simpl. congruence.
      * rewrite lookup_insert_ne by done. eauto.
    + intros (c & Hc & Hu). destruct (decide (cid = x)) as [->|Hne].
      * rewrite lookup_insert_eq in Hc. injection Hc as <-. simpl in Hu. eauto.
      * rewrite lookup_insert_ne in Hc by done. eauto.
  - intros x c. destruct (decide (cid = x)) as [->|Hne].
    + rewrite lookup_insert_eq. intros [= <-]. simpl. eauto.
    + rewrite lookup_insert_ne by done. eauto.
Qed.

Lemma remove_all_consistent cids m :
  consistent m → consistent (foldl (λ acc cid, (removeConnection cid acc).2) m cids).
Proof.
  revert m. induction cids as [|cid cids IH]; intros m Hm; [done|].
  simpl. apply IH. by apply removeConnection_consistent.
Qed.

Lemma cleanupStaleConnections_consistent now m :
  consistent m → consistent (cleanupStaleConnections now m).
Proof. apply remove_all_consistent. Qed.

(** C8: removing an id that is not in the connection table reports
    removed = false, isLastConnection = false, userId = null and returns
    the registry as it was: both maps unchanged. *)
Theorem removeConnection_absent cid m :
  connections m !! cid = None →
  removeConnection cid m
  = ({| removed := false; isLastConnection := false; removedUserId := None |}, m).
Proof. intros Hnone. unfold removeConnection. by rewrite Hnone. Qed.

Lemma removeConnection_absent_witness :
  let m := (removeConnection "c1" (addConnection "c1" 5 "alice" "room" 0 create).2).2 in
  removeConnection "c1" m
  = ({| removed := false; isLastConnection := false; removedUserId := None |}, m).
Proof. intros m. apply (removeConnection_absent "c1" m). vm_compute. reflexivity. Defined.

End SSEManagerFacts.

(** ** The server *)

Section EnvFacts.
Context `{UuidSupply}.
Implicit Types (w : Env) (s : Server).

Lemma grows_refl w : grows w w.
Proof. split; [done|]. intros room q m Hq Hm. left. eauto. Qed.

Lemma grows_trans w1 w2 w3 : grows w1 w2 → grows w2 w3 → grows w1 w3.
Proof.
  intros [Hn12 Hq12] [Hn23 Hq23]. split; [lia|].
  intros room q3 m Hq Hm.
  destruct (Hq23 room q3 m Hq Hm) as [(q2 & Hq2 & Hm2)|(k & Hk & Hid)].
  - destruct (Hq12 room q2 m Hq2 Hm2) as [?|(k & Hk & Hid)]; [by left|].
    right. exists k. split; [lia|done].
  - right. exists k. split; [lia|done].
Qed.

(** A step that leaves the queue alone and does not rewind the supply. *)
Lemma grows_same_queue w w' :
  (next_uuid w ≤ next_uuid w')%nat →
  MessageQueue.queues (messageQueue w') = MessageQueue.queues (messageQueue w) →
  grows w w'.
Proof.
  intros Hn Hq. split; [done|]. intros room q m. rewrite Hq. left. eauto.
Qed.

Lemma randomUUID_grows w : grows w (randomUUID w).2.
Proof. apply grows_same_queue; simpl; [lia|done]. Qed.

Lemma enqueue_grows room ev payload w : grows w (enqueue room ev payload w).2.
Proof.
  unfold enqueue. simpl. split; simpl; [lia|].
  intros room' q' m Hq Hm.
  destruct (MessageQueueFacts.enqueue_elem _ _ _ _ _ _ _ _ _ Hq Hm) as [[_ ->]|?].
  - right. exists (next_uuid w). split; [lia|done].
  - by left.
Qed.

Lemma controller_enqueue_grows ctrl chunk w :
  grows w (controller_enqueue ctrl chunk w).2.
Proof.
  unfold controller_enqueue.
  destruct (streams w !! ctrl) as [st|]; [|apply grows_refl].
  destruct (closed st); [apply grows_refl|].
  by apply grows_same_queue.
Qed.

Lemma onSSE_grows room ctrl event w : grows w (onSSE room ctrl event w).2.
Proof.
  unfold onSSE.
  pose proof (randomUUID_grows w) as H1.
  destruct (randomUUID w) as [eventId w1]. simpl in H1.
  pose proof (controller_enqueue_grows ctrl (formatSSEEvent event eventId) w1) as H2.
  destruct (controller_enqueue ctrl (formatSSEEvent event eventId) w1) as [[[]|err] w2];
    simpl in H2.
  - destruct (decide (ev_type event ≠ heartbeat)); simpl.
    + eapply grows_trans; [|apply enqueue_grows]. by eapply grows_trans.
    + by eapply grows_trans.
  - simpl. by eapply grows_trans.
Qed.

Lemma queue_ids_allocated_grows w w' :
  grows w w' → queue_ids_allocated w → queue_ids_allocated w'.
Proof.
  intros [Hn Hq] Hall room q' m Hq' Hm.
  destruct (Hq room q' m Hq' Hm) as [(q & Hq0 & Hm0)|(k & Hk & Hid)].
  - destruct (Hall room q m Hq0 Hm0) as (k & Hk & Hid). exists k. split; [lia|done].
  - exists k. split; [lia|done].
Qed.

Lemma absent_from_queue_grows `{!UuidFresh} i k w w' :
  grows w w' → (k < next_uuid w)%nat → i = uuid k →
  absent_from_queue i w → absent_from_queue i w'.
Proof.
  intros [Hn Hq] Hk -> Habs room q' m Hq' Hm.
  destruct (Hq room q' m Hq' Hm) as [(q & Hq0 & Hm0)|(k' & Hk' & Hid)].
  - eauto.
  - rewrite Hid. intros Heq%uuid_inj. lia.
Qed.

Lemma connection_ids_allocated_mono n n' m :
  (n ≤ n')%nat → connection_ids_allocated n m → connection_ids_allocated n' m.
Proof.
  intros Hn Hall cid c Hc. destruct (Hall cid c Hc) as (k & Hk & ->).
  exists k. split; [lia|done].
Qed.

End EnvFacts.

Section StepFacts.
Context `{UuidSupply}.
Implicit Types (w : Env) (s : Server) (o : Op).

Lemma emit_completes type payload eid s : (emit type payload eid s).1 = Normal tt.
Proof.
  unfold emit.
  destruct (SSEEventEmitterFacts.emit_spec call_listener type payload eid (bus s))
    as (b' & -> & _). reflexivity.
Qed.

Lemma emit_manager type payload eid s : manager (emit type payload eid s).2 = manager s.
Proof.
  unfold emit. by destruct (SSEEventEmitter.emit call_listener type payload eid (bus s)).
Qed.

Lemma emit_env type payload eid s :
  env (emit type payload eid s).2
  = SSEEventEmitter.outside (SSEEventEmitter.emit call_listener type payload eid (bus s)).2.
Proof.
  unfold emit. by destruct (SSEEventEmitter.emit call_listener type payload eid (bus s)).
Qed.

(** A property of the environment that every [onSSE] call preserves
    holds after [emit]. *)
Lemma emit_env_invariant (P : Env → Prop) type payload eid s :
  (∀ room ctrl w, P w → P (onSSE room ctrl (mkEvent type payload eid) w).2) →
  P (env s) → P (env (emit type payload eid s).2).
Proof.
  intros Hstep HP. rewrite emit_env.
  apply SSEEventEmitterFacts.emit_outside; [|done].
  intros l w _. apply Hstep.
Qed.

Lemma emit_grows type payload eid s : grows (env s) (env (emit type payload eid s).2).
Proof.
  apply (emit_env_invariant (grows (env s))); [|apply grows_refl].
  intros room ctrl w Hw. eapply grows_trans; [exact Hw | apply onSSE_grows].
Qed.

Lemma sendToConnection_grows cid event eventId s :
  grows (env s) (env (sendToConnection cid event eventId s).2)
  ∧ manager (sendToConnection cid event eventId s).2 = manager s.
Proof.
  unfold sendToConnection.
  destruct (SSEManager.connections (manager s) !! cid) as [c|];
    [|split; [apply grows_refl | done]].
  destruct (SSEManager.controller c) as [ctrl|]; [|split; [apply grows_refl | done]].
  assert (H1 : grows (env s)
                 (match eventId with Some i => (i, env s) | None => randomUUID (env s) end).2).
  { destruct eventId; [apply grows_refl | apply randomUUID_grows]. }
  destruct (match eventId with Some i => (i, env s) | None => randomUUID (env s) end)
    as [i w1]. simpl in H1.
  pose proof (controller_enqueue_grows ctrl (formatSSEEvent event i) w1) as H2.
  destruct (controller_enqueue ctrl (formatSSEEvent event i) w1) as [[[]|err] w2];
    simpl in *; (split; [|done]).
  - eapply grows_trans; [|apply enqueue_grows]. by eapply grows_trans.
  - by eapply grows_trans.
Qed.

Lemma sendToUser_fold event ids sent s :
  let r := foldl (λ '(sent, acc) connId,
                    let '(ok, acc') := sendToConnection connId event None acc in
                    (if ok then sent + 1 else sent, acc'))
                 (sent, s) ids in
  grows (env s) (env r.2) ∧ manager r.2 = manager s.
Proof.
  revert sent s. induction ids as [|cid ids IH]; intros sent s.
  - simpl. split; [apply grows_refl | done].
  - simpl. destruct (sendToConnection_grows cid event None s) as [Hg Hm].
    destruct (sendToConnection cid event None s) as [ok s1]. simpl in *.
    destruct (IH (if ok then sent + 1 else sent) s1) as [Hg' Hm'].
    split; [by eapply grows_trans | congruence].
Qed.

Lemma sendHeartbeat_grows now w kc : grows w (sendHeartbeat now w kc).
Proof.
  unfold sendHeartbeat. destruct (SSEManager.controller kc.2) as [ctrl|];
    [|apply grows_refl].
  pose proof (randomUUID_grows w) as H1.
  destruct (randomUUID w) as [i w1]. simpl in H1.
  eapply grows_trans; [exact H1 | apply controller_enqueue_grows].
Qed.

Lemma sendHeartbeats_fold now kcs w : grows w (foldl (sendHeartbeat now) w kcs).
Proof.
  revert w. induction kcs as [|kc kcs IH]; intros w; [apply grows_refl|].
  simpl. eapply grows_trans; [apply sendHeartbeat_grows | apply IH].
Qed.

Lemma broadcast_grows type payload room s :
  grows (env s) (env (broadcast type payload room s).2)
  ∧ manager (broadcast type payload room s).2 = manager s.
Proof.
  unfold broadcast.
  pose proof (randomUUID_grows (env s)) as H1.
  destruct (randomUUID (env s)) as [eventId w1]. simpl in H1.
  set (w2 := match SSEEventEmitter.truthy room with
             | Some r => (enqueue r (type_name type) payload w1).2
             | None => w1
             end).
  assert (H2 : grows (env s) w2).
  { unfold w2. destruct (SSEEventEmitter.truthy room); [|done].
    eapply grows_trans; [exact H1 | apply enqueue_grows]. }
  split.
  - eapply grows_trans; [exact H2|]. apply (emit_grows _ _ _ (set_env w2 s)).
  - by rewrite emit_manager.
Qed.

(** The server-level [acknowledgeHeartbeat] moves the clock and nothing
    else of the environment; its registry is the manager's. *)
Lemma acknowledgeHeartbeat_env cid elapsed s :
  next_uuid (env (acknowledgeHeartbeat cid elapsed s).2) = next_uuid (env s)
  ∧ messageQueue (env (acknowledgeHeartbeat cid elapsed s).2) = messageQueue (env s)
  ∧ streams (env (acknowledgeHeartbeat cid elapsed s).2) = streams (env s)
  ∧ sseEmitter (acknowledgeHeartbeat cid elapsed s).2 = sseEmitter s.
Proof.
  unfold acknowledgeHeartbeat.
  by destruct (SSEManager.acknowledgeHeartbeat _ _ cid (manager s)) as [[] m].
Qed.

Lemma acknowledgeHeartbeat_manager cid elapsed s :
  manager (acknowledgeHeartbeat cid elapsed s).2
  = (SSEManager.acknowledgeHeartbeat (clock (env s)) (clock (env s) + Z.max elapsed 0)
       cid (manager s)).2.
Proof.
  unfold acknowledgeHeartbeat, SSEManager.acknowledgeHeartbeat. simpl.
  by destruct (SSEManager.connections (manager s) !! cid).
Qed.

Lemma heartbeat_POST_env caller body elapsed s :
  next_uuid (env (heartbeat_POST caller body elapsed s).2) = next_uuid (env s)
  ∧ messageQueue (env (heartbeat_POST caller body elapsed s).2) = messageQueue (env s)
  ∧ streams (env (heartbeat_POST caller body elapsed s).2) = streams (env s)
  ∧ sseEmitter (heartbeat_POST caller body elapsed s).2 = sseEmitter s.
Proof.
  unfold heartbeat_POST. destruct caller as [callerId|]; [|done].
  destruct body as [| | |connectionId]; try done.
  destruct (decide (connectionId = "")); [done|].
  destruct (SSEManager.getConnection connectionId (manager s)) as [c|] eqn:Hc; [|done].
  destruct (decide (SSEManager.userId c ≠ callerId)); [done|].
  pose proof (acknowledgeHeartbeat_env connectionId elapsed s) as He.
  by destruct (acknowledgeHeartbeat connectionId elapsed s) as [[] s'].
Qed.

(** What the handler does to the registry is what [acknowledgeHeartbeat]
    does, or nothing. *)
Lemma heartbeat_POST_manager caller body elapsed s :
  manager (heartbeat_POST caller body elapsed s).2 = manager s
  ∨ ∃ cid, manager (heartbeat_POST caller body elapsed s).2
           = (SSEManager.acknowledgeHeartbeat (clock (env s))
                (clock (env s) + Z.max elapsed 0) cid (manager s)).2.
Proof.
  unfold heartbeat_POST. destruct caller as [callerId|]; [|by left].
  destruct body as [| | |connectionId]; try (by left).
  destruct (decide (connectionId = "")); [by left|].
  destruct (SSEManager.getConnection connectionId (manager s)) as [c|] eqn:Hc; [|by left].
  destruct (decide (SSEManager.userId c ≠ callerId)); [by left|].
  right. exists connectionId.
  pose proof (acknowledgeHeartbeat_manager connectionId elapsed s) as Hm.
  by destruct (acknowledgeHeartbeat connectionId elapsed s) as [[] s'].
Qed.

(** Every step moves the environment forward. *)
Lemma step_grows s o : grows (env s) (env (step s o)).
Proof.
  destruct o; simpl.
  - unfold addConnection. apply randomUUID_grows.
  - unfold removeConnection.
    destruct (SSEManager.removeConnection cid (manager s)). apply grows_refl.
  - apply grows_refl.
  - destruct (acknowledgeHeartbeat_env cid elapsed s) as (Hn & Hq & _).
    apply grows_same_queue; [lia | by rewrite Hq].
  - apply grows_refl.
  - apply sendToConnection_grows.
  - apply sendToUser_fold.
  - apply broadcast_grows.
  - apply emit_grows.
  - apply sendHeartbeats_fold.
  - destruct (heartbeat_POST_env caller body elapsed s) as (Hn & Hq & _).
    apply grows_same_queue; [lia | by rewrite Hq].
  - apply grows_refl.
  - apply grows_refl.
  - apply grows_refl.
  - apply enqueue_grows.
  - split; simpl; [done|]. intros room q' m Hq Hm. left.
    exact (MessageQueueFacts.cleanup_elem _ _ _ _ _ Hq Hm).
  - split; simpl; [done|]. intros room q' m Hq. by rewrite lookup_empty in Hq.
  - by apply grows_same_queue.
  - by apply grows_same_queue.
  - apply controller_enqueue_grows.
  - by apply grows_same_queue.
Qed.

Lemma run_grows ops s : grows (env s) (env (run s ops)).
Proof.
  revert s. induction ops as [|o ops IH]; intros s; [apply grows_refl|].
  simpl. eapply grows_trans; [apply step_grows | apply IH].
Qed.

End StepFacts.

Section Invariant.
Context `{UuidSupply}.
Implicit Types (w : Env) (s : Server) (o : Op) (m : SSEManager.t).

Lemma connection_ids_allocated_shrink n m m' :
  no_new_connection m m' → connection_ids_allocated n m → connection_ids_allocated n m'.
Proof. intros Hsub Hall cid c' Hc'. destruct (Hsub cid c' Hc') as [c Hc]. eauto. Qed.

Lemma removeConnection_no_new cid m :
  no_new_connection m (SSEManager.removeConnection cid m).2.
Proof.
  unfold SSEManager.removeConnection, no_new_connection.
  destruct (SSEManager.connections m !! cid) as [c0|] eqn:Hc0; [|eauto].
  destruct (SSEManager.userConnections m !! SSEManager.userId c0); simpl;
    intros x c' Hx; apply lookup_delete_Some in Hx as [_ Hx]; eauto.
Qed.

Lemma remove_all_no_new cids m :
  no_new_connection m (foldl (λ acc cid, (SSEManager.removeConnection cid acc).2) m cids).
Proof.
  revert m. induction cids as [|cid cids IH]; intros m; [unfold no_new_connection; eauto|].
  simpl. intros x c' Hx. apply IH in Hx as [c1 Hc1].
  eapply removeConnection_no_new, Hc1.
Qed.

Lemma updateActivity_no_new now cid m :
  no_new_connection m (SSEManager.updateActivity now cid m).
Proof.
  unfold SSEManager.updateActivity, no_new_connection.
  destruct (SSEManager.connections m !! cid) as [c0|] eqn:Hc0; [|eauto].
  simpl. intros x c' Hx. destruct (decide (cid = x)) as [->|Hne]; [eauto|].
  rewrite lookup_insert_ne in Hx by done. eauto.
Qed.

Lemma acknowledgeHeartbeat_no_new now1 now2 cid m :
  no_new_connection m (SSEManager.acknowledgeHeartbeat now1 now2 cid m).2.
Proof.
  unfold SSEManager.acknowledgeHeartbeat, no_new_connection.
  destruct (SSEManager.connections m !! cid) as [c0|] eqn:Hc0; [|eauto].
  simpl. intros x c' Hx. destruct (decide (cid = x)) as [->|Hne]; [eauto|].
  rewrite lookup_insert_ne in Hx by done. eauto.
Qed.

Lemma addConnection_ids_allocated n now user room ctrl m :
  connection_ids_allocated n m →
  connection_ids_allocated (S n) (SSEManager.addConnection (uuid n) now user room ctrl m).2.
Proof.
  intros Hall cid c. unfold SSEManager.addConnection. simpl.
  destruct (decide (uuid n = cid)) as [<-|Hne].
  - intros _. exists n. split; [lia|done].
  - rewrite lookup_insert_ne by done. intros Hc.
    destruct (Hall cid c Hc) as (k & Hk & ->). exists k. split; [lia|done].
Qed.

Lemma allocated_fresh `{!UuidFresh} n m :
  connection_ids_allocated n m → SSEManager.connections m !! uuid n = None.
Proof.
  intros Hall. destruct (SSEManager.connections m !! uuid n) as [c|] eqn:Hc; [|done].
  destruct (Hall _ c Hc) as (k & Hk & Heq%uuid_inj). lia.
Qed.

(** What a step does to the registry: nothing, one [addConnection] with
    the next UUID, or a change that keeps the invariant and adds no key. *)
Lemma step_manager s o :
  manager (step s o) = manager s
  ∨ (∃ now user room ctrl,
       manager (step s o)
       = (SSEManager.addConnection (uuid (next_uuid (env s))) now user room ctrl (manager s)).2
       ∧ next_uuid (env (step s o)) = S (next_uuid (env s)))
  ∨ (no_new_connection (manager s) (manager (step s o))
     ∧ (SSEManager.consistent (manager s) → SSEManager.consistent (manager (step s o)))).
Proof.
  destruct o; simpl; try (by left).
  - right. left. unfold addConnection. simpl. eauto 10.
  - right. right. unfold removeConnection.
    pose proof (removeConnection_no_new cid (manager s)) as Hn.
    pose proof (SSEManagerFacts.removeConnection_consistent cid (manager s)) as Hc.
    destruct (SSEManager.removeConnection cid (manager s)). done.
  - right. right. split; [apply updateActivity_no_new|].
    apply SSEManagerFacts.updateActivity_consistent.
  - right. right. rewrite acknowledgeHeartbeat_manager.
    split; [apply acknowledgeHeartbeat_no_new|].
    apply SSEManagerFacts.acknowledgeHeartbeat_consistent.
  - right. right. split; [apply remove_all_no_new|].
    apply SSEManagerFacts.cleanupStaleConnections_consistent.
  - left. apply sendToConnection_grows.
  - left. apply sendToUser_fold.
  - left. apply broadcast_grows.
  - left. apply emit_manager.
  - destruct (heartbeat_POST_manager caller body elapsed s) as [->|[cid ->]]; [by left|].
    right. right. split; [apply acknowledgeHeartbeat_no_new|].
    apply SSEManagerFacts.acknowledgeHeartbeat_consistent.
Qed.

Lemma boot_wf ttl0 max : wf (boot ttl0 max).
Proof.
  split; [|split].
  - intros room q m. simpl. by rewrite lookup_empty.
  - intros cid c. simpl. by rewrite lookup_empty.
  - apply SSEManagerFacts.create_consistent.
Qed.

Lemma step_wf `{!UuidFresh} s o : wf s → wf (step s o).
Proof.
  intros (Hq & Hids & Hcons). pose proof (step_grows s o) as Hg.
  split; [by eapply queue_ids_allocated_grows|].
  destruct (step_manager s o)
    as [-> | [(now & user & room & ctrl & -> & ->) | [Hsub Hkeep]]].
  - split; [|done]. eapply connection_ids_allocated_mono; [apply Hg | done].
  - split; [by apply addConnection_ids_allocated|].
    apply SSEManagerFacts.addConnection_consistent; [|done].
    by apply allocated_fresh.
  - split; [|by apply Hkeep].
    eapply connection_ids_allocated_mono; [apply Hg|].
    by eapply connection_ids_allocated_shrink.
Qed.

Lemma run_wf `{!UuidFresh} ops s : wf s → wf (run s ops).
Proof.
  revert s. induction ops as [|o ops IH]; intros s Hs; [done|].
  simpl. apply IH. by apply step_wf.
Qed.

(** C4: after any finite run of server operations from start-up (every
    interleaving of [addConnection], [removeConnection] and stale sweeps,
    and of everything else the server does), the keys of the
    user-to-connections map are exactly the users that own an entry of the
    connection table, and no set stored in that map is empty. *)
Theorem registry_mirrors_connection_table `{!UuidFresh} ttl0 max ops :
  dom (SSEManager.userConnections (manager (run (boot ttl0 max) ops)))
  = SSEManager.owners (manager (run (boot ttl0 max) ops))
  ∧ ∀ user set,
      SSEManager.userConnections (manager (run (boot ttl0 max) ops)) !! user = Some set →
      set ≠ [].
Proof.
  apply SSEManagerFacts.consistent_mirrors.
  apply (run_wf ops (boot ttl0 max)), boot_wf.
Qed.

End Invariant.

(** ** Broadcast and catch-up *)

Section Broadcast.
Context `{UuidSupply}.
Implicit Types (w : Env) (s : Server).

Lemma enqueue_env room ev payload w :
  next_uuid (enqueue room ev payload w).2 = S (next_uuid w)
  ∧ messageQueue (enqueue room ev payload w).2
    = (MessageQueue.enqueue (uuid (next_uuid w)) (clock w) room ev payload
                            (messageQueue w)).2.
Proof. done. Qed.




Lemma controller_enqueue_queue ctrl chunk w :
  next_uuid (controller_enqueue ctrl chunk w).2 = next_uuid w
  ∧ messageQueue (controller_enqueue ctrl chunk w).2 = messageQueue w.
Proof.
  unfold controller_enqueue. destruct (streams w !! ctrl) as [st|]; [|done].
  by destruct (closed st).
Qed.




End Broadcast.

(** ** The example UUID supply *)

Lemma counter_uuid_fresh : @UuidFresh counter_uuid.
Proof.
  split.
  - intros m n Heq. unfold uuid, counter_uuid in Heq. simpl in Heq.
    injection Heq as Heq. by apply (inj pretty).
  - intros n. unfold uuid, counter_uuid. simpl. discriminate.
Qed.

Section Claims.
Context `{UuidSupply} `{!UuidFresh}.
Implicit Types (w : Env) (s : Server).


(** C9: in every state the server can reach, a heartbeat acknowledgment
    from an authenticated caller that names a registered connection
    owned by another user is answered 403 (success false, error
    "Unauthorized") and the server state, both registry maps and every
    connection's timestamps included, is returned unchanged. *)
Theorem heartbeat_POST_foreign_connection ttl0 max ops callerId cid c elapsed :
  let s := run (boot ttl0 max) ops in
  SSEManager.getConnection cid (manager s) = Some c →
  SSEManager.userId c ≠ callerId →
  heartbeat_POST (Some callerId) (FieldString cid) elapsed s
  = ({| status := 403; success := false; error := Some "Unauthorized" |}, s).
Proof.
  intros s Hc Huser. unfold heartbeat_POST.
  assert (Hne : cid ≠ "").
  { destruct (run_wf ops (boot ttl0 max) (boot_wf ttl0 max)) as (_ & Hids & _).
    destruct (Hids cid c Hc) as (k & _ & ->). apply uuid_nonempty. }
  rewrite decide_False by done. fold s. rewrite Hc.
  by rewrite decide_True.
Qed.

(** C2: let the endpoint's listener [onSSE] run on an event that is not
    a heartbeat, in a server state whose queue ids were all drawn from
    the UUID supply (every reachable state is such, and so is every state
    in the middle of an emit), with its stream open.  The id on the frame
    it writes is the next UUID, the id of the log entry it enqueues is
    the one after, and the two differ.  In every state any run of server
    operations leads to from there, for every room, the frame's id is
    found in no log: [findIndex] gives -1 and [getMessagesSince] returns
    the last 50 entries, its fallback for an unknown id (the empty array
    when the room has no entry left). *)
Theorem live_event_id_never_in_log s room ctrl event st ops r :
  queue_ids_allocated (env s) →
  ev_type event ≠ heartbeat →
  streams (env s) !! ctrl = Some st → closed st = false →
  let wire := uuid (next_uuid (env s)) in
  let w' := (onSSE room ctrl event (env s)).2 in
  let s'' := run (set_env w' s) ops in
  (∃ st', streams w' !! ctrl = Some st'
          ∧ written st' = written st ++ [formatSSEEvent event wire])
  ∧ (∃ m, last (MessageQueue.log room (messageQueue w')) = Some m
          ∧ MessageQueue.event m = type_name (ev_type event)
          ∧ MessageQueue.data m = ev_data event
          ∧ MessageQueue.id m = uuid (S (next_uuid (env s)))
          ∧ MessageQueue.id m ≠ wire)
  ∧ Js.findIndex (λ m, MessageQueue.id m = wire)
                 (MessageQueue.log r (messageQueue (env s''))) = -1
  ∧ MessageQueue.getMessagesSince r wire (messageQueue (env s''))
    = Js.lastn 50 (MessageQueue.log r (messageQueue (env s''))).
Proof.
  intros Hall Hty Hst Hopen wire w' s''.
  set (w := env s) in *. set (n := next_uuid w) in *.
  set (w1 := (randomUUID w).2).
  set (w2 := set_streams (<[ctrl := {| closed := false;
                 written := written st ++ [formatSSEEvent event wire] |}]> (streams w1)) w1).
  assert (Hw' : w' = (enqueue room (type_name (ev_type event)) (ev_data event) w2).2).
  { unfold w', onSSE. simpl. unfold controller_enqueue. simpl. fold w.
    rewrite Hst, Hopen. rewrite decide_True by done. reflexivity. }
  destruct (enqueue_env room (type_name (ev_type event)) (ev_data event) w2)
    as [Hnext Hq]. rewrite <- Hw' in Hnext, Hq.
  assert (Habs : absent_from_queue wire w').
  { intros room' q' m Hq' Hm. rewrite Hq in Hq'.
    destruct (MessageQueueFacts.enqueue_elem _ _ _ _ _ _ _ _ _ Hq' Hm)
      as [[_ ->]|(q0 & Hq0 & Hm0)].
    - simpl. intros Heq%uuid_inj. lia.
    - destruct (Hall room' q0 m Hq0 Hm0) as (k & Hk & ->).
      intros Heq%uuid_inj. unfold n in *. lia. }
  split; [|split].
  - rewrite Hw'. exists {| closed := false;
                          written := written st ++ [formatSSEEvent event wire] |}.
    split; [|done]. unfold enqueue. simpl. by rewrite lookup_insert_eq.
  - rewrite Hq. eexists. split; [apply MessageQueueFacts.enqueue_last|].
    simpl. repeat split; try done. intros Heq%uuid_inj. lia.
  - apply MessageQueueFacts.getMessagesSince_fallback.
    assert (Habs'' : absent_from_queue wire (env s'')).
    { eapply (absent_from_queue_grows wire n); [|  |reflexivity|exact Habs].
      - apply (run_grows ops (set_env w' s)).
      - rewrite Hnext. simpl. lia. }
    intros Hin. apply list_elem_of_fmap in Hin as (m & Hid & Hm).
    unfold MessageQueue.log in Hm.
    destruct (MessageQueue.queues (messageQueue (env s'')) !! r) as [q|] eqn:Hqr;
      simpl in Hm; [|by apply elem_of_nil in Hm].
    by eapply Habs''.
Qed.

End Claims.

(** *** The claims at concrete inputs *)



Lemma registry_mirrors_connection_table_witness :
  let s := run (H := counter_uuid)
               (boot SSE_CONFIG.MESSAGE_QUEUE_TTL SSE_CONFIG.MESSAGE_QUEUE_MAX_SIZE)
               [AddConnection "alice" "room1" 0; AddConnection "alice" "room1" 1;
                AddConnection "bob" "room1" 2; RemoveConnection "uuid-0";
                Tick 50000; AcknowledgeHeartbeat "uuid-1" 2; CleanupStaleConnections] in
  dom (SSEManager.userConnections (manager s)) = SSEManager.owners (manager s)
  ∧ ∀ user set, SSEManager.userConnections (manager s) !! user = Some set → set ≠ [].
Proof.
  apply (@registry_mirrors_connection_table counter_uuid counter_uuid_fresh).
Defined.

Lemma heartbeat_POST_foreign_connection_witness :
  let s := run (H := counter_uuid)
               (boot SSE_CONFIG.MESSAGE_QUEUE_TTL SSE_CONFIG.MESSAGE_QUEUE_MAX_SIZE)
               [AddConnection "alice" "room1" 0] in
  heartbeat_POST (Some "mallory") (FieldString "uuid-0") 2 s
  = ({| status := 403; success := false; error := Some "Unauthorized" |}, s).
Proof.
  eapply (@heartbeat_POST_foreign_connection counter_uuid counter_uuid_fresh
            SSE_CONFIG.MESSAGE_QUEUE_TTL SSE_CONFIG.MESSAGE_QUEUE_MAX_SIZE
            [AddConnection "alice" "room1" 0] "mallory" "uuid-0" _ 2).
  - vm_compute. reflexivity.
  - vm_compute. discriminate.
Defined.

Lemma live_event_id_never_in_log_witness :
  let s := run (H := counter_uuid)
               (boot SSE_CONFIG.MESSAGE_QUEUE_TTL SSE_CONFIG.MESSAGE_QUEUE_MAX_SIZE)
               [OpenStream 0; Enqueue "room1" "chatMessage" "{0}"] in
  let event := mkEvent chatMessage "{1}" (Some "uuid-9") in
  let wire := "uuid-1" in
  let w' := (onSSE (H := counter_uuid) "room1" 0 event (env s)).2 in
  let s'' := run (H := counter_uuid) (set_env w' s)
                 [Broadcast buddyListUpdate "[]" (Some "room1"); Tick 1000; QueueCleanup] in
  (∃ st', streams w' !! 0%nat = Some st'
          ∧ written st' = [] ++ [formatSSEEvent event wire])
  ∧ (∃ m, last (MessageQueue.log "room1" (messageQueue w')) = Some m
          ∧ MessageQueue.event m = type_name chatMessage
          ∧ MessageQueue.data m = "{1}"
          ∧ MessageQueue.id m = "uuid-2"
          ∧ MessageQueue.id m ≠ wire)
  ∧ Js.findIndex (λ m, MessageQueue.id m = wire)
                 (MessageQueue.log "room1" (messageQueue (env s''))) = -1
  ∧ MessageQueue.getMessagesSince "room1" wire (messageQueue (env s''))
    = Js.lastn 50 (MessageQueue.log "room1" (messageQueue (env s''))).
Proof.
  apply (@live_event_id_never_in_log counter_uuid counter_uuid_fresh
           (run (H := counter_uuid)
                (boot SSE_CONFIG.MESSAGE_QUEUE_TTL SSE_CONFIG.MESSAGE_QUEUE_MAX_SIZE)
                [OpenStream 0; Enqueue "room1" "chatMessage" "{0}"])
           "room1" 0%nat (mkEvent chatMessage "{1}" (Some "uuid-9"))
           {| closed := false; written := [] |}
           [Broadcast buddyListUpdate "[]" (Some "room1"); Tick 1000; QueueCleanup]
           "room1").
  - apply (@run_wf counter_uuid counter_uuid_fresh), boot_wf.
  - discriminate.
  - vm_compute. reflexivity.
  - reflexivity.
Defined.

(** ** The client's reconnect back-off *)

Module SSEClientFacts.
Import SSEClient.

(** The deterministic component never exceeds the cap. *)
Lemma exponentialDelay_capped base max k : exponentialDelay base max k ≤ max.
Proof. unfold exponentialDelay. lia. Qed.

(** The deterministic component is non-decreasing in the attempt number. *)
Lemma exponentialDelay_monotone base max j k :
  0 ≤ base → (j ≤ k)%nat → exponentialDelay base max j ≤ exponentialDelay base max k.
Proof.
  intros Hbase Hjk. unfold exponentialDelay.
  apply Z.min_le_compat_r, Z.mul_le_mono_nonneg_l; [done|].
  apply Z.pow_le_mono_r; lia.
Qed.

(** From the sixth attempt on, the configured delay is the cap. *)
Lemma exponentialDelay_from_six k :
  (6 ≤ k)%nat →
  exponentialDelay SSE_CONFIG.INITIAL_RECONNECT_DELAY SSE_CONFIG.MAX_RECONNECT_DELAY k
  = 60000.
Proof.
  intros Hk. apply Z.le_antisymm; [apply exponentialDelay_capped|].
  change 60000 with (exponentialDelay SSE_CONFIG.INITIAL_RECONNECT_DELAY
                                      SSE_CONFIG.MAX_RECONNECT_DELAY 6).
  by apply exponentialDelay_monotone.
Qed.

(** The jitter adds at least nothing and at most a quarter. *)
Lemma floor_with_jitter (d : Z) (r : Q) :
  0 < d → (0 <= r)%Q → (r < 1)%Q →
  d ≤ Qfloor (inject_Z d + inject_Z d * r * (1 # 4))%Q
  ∧ 4 * Qfloor (inject_Z d + inject_Z d * r * (1 # 4))%Q ≤ 5 * d.
Proof.
  intros Hd Hr0 Hr1.
  assert (HdQ : (0 < inject_Z d)%Q).
  { change 0%Q with (inject_Z 0). rewrite <- Zlt_Qlt. exact Hd. }
  set (D := inject_Z d) in *.
  set (x := (D + D * r * (1 # 4))%Q).
  assert (Hlo : (D <= x)%Q) by (unfold x; nra).
  assert (Hhi : (x <= D * (5 # 4))%Q) by (unfold x; nra).
  split.
  - rewrite <- (Qfloor_Z d). apply Qfloor_resp_le. exact Hlo.
  - pose proof (Qfloor_le x) as Hf.
    rewrite Zle_Qle, !inject_Z_mult. fold D.
    change (inject_Z 4) with (4 # 1)%Q. change (inject_Z 5) with (5 # 1)%Q.
    clearbody x D. lra.
Qed.

Lemma calculateBackoff_with_bounds base max r k :
  0 < exponentialDelay base max k → (0 <= r)%Q → (r < 1)%Q →
  exponentialDelay base max k ≤ calculateBackoff_with base max r k
  ∧ 4 * calculateBackoff_with base max r k ≤ 5 * exponentialDelay base max k.
Proof. intros. unfold calculateBackoff_with. by apply floor_with_jitter. Qed.

(** What [handleDisconnection] leaves behind. *)
Lemma handleDisconnection_spec r c :
  let c' := handleDisconnection r c in
  status c' = reconnecting
  ∧ reconnectAttempts c' = S (reconnectAttempts c)
  ∧ reconnectTimer c'
    = Some (calculateBackoff_with SSE_CONFIG.INITIAL_RECONNECT_DELAY
                                  SSE_CONFIG.MAX_RECONNECT_DELAY r
                                  (S (reconnectAttempts c)))
  ∧ heartbeatTimer c' = None ∧ eventSource c' = false.
Proof. done. Qed.

(** After [k] disconnections in a row the client is at attempt [k], and
    the timer armed for attempt [k + 1] is computed from [k + 1]. *)
Lemma after_disconnections_attempts rs :
  reconnectAttempts (after_disconnections rs) = length rs.
Proof.
  unfold after_disconnections.
  induction rs as [|r rs IH] using rev_ind; [done|].
  rewrite foldl_snoc, length_app.
  change (reconnectAttempts (handleDisconnection r ?c)) with (S (reconnectAttempts c)).
  rewrite IH. simpl. lia.
Qed.

Lemma after_disconnections_timer rs r :
  reconnectTimer (after_disconnections (rs ++ [r]))
  = Some (calculateBackoff_with SSE_CONFIG.INITIAL_RECONNECT_DELAY
                                SSE_CONFIG.MAX_RECONNECT_DELAY r (S (length rs))).
Proof.
  unfold after_disconnections. rewrite foldl_snoc.
  fold (after_disconnections rs).
  rewrite <- (after_disconnections_attempts rs). reflexivity.
Qed.

(** With base 1000 and cap 60000, the delay of attempt [k ≥ 6] (so of
    attempt 10 and beyond) lies in 60000-75000. *)
Lemma backoff_at_cap r c :
  (0 <= r)%Q → (r < 1)%Q → (5 ≤ reconnectAttempts c)%nat →
  ∃ d, reconnectTimer (handleDisconnection r c) = Some d ∧ 60000 ≤ d ≤ 75000.
Proof.
  intros Hr0 Hr1 Hk.
  destruct (handleDisconnection_spec r c) as (_ & _ & -> & _).
  eexists. split; [done|].
  destruct (calculateBackoff_with_bounds SSE_CONFIG.INITIAL_RECONNECT_DELAY
              SSE_CONFIG.MAX_RECONNECT_DELAY r (S (reconnectAttempts c)))
    as [Hlo Hhi]; try done; rewrite exponentialDelay_from_six in * by lia; lia.
Qed.

(** C3, where the code departs from it: [handleDisconnection] increments
    the attempt counter before [calculateBackoff] reads it, so the delay
    of attempt [k] is built from [base * 2^k].  For every jitter draw in
    [0, 1): attempt 1 waits at least 2000 and at most 2500 ms (not
    1000-1250) while [getReconnectDelay], which reads [attempts - 1],
    reports 1 second for it; attempt 6 waits at least 60000 and at most
    75000 ms (not 32000-40000). *)
Theorem backoff_starts_at_twice_the_base (r : Q) :
  (0 <= r)%Q → (r < 1)%Q →
  let c1 := handleDisconnection r create in
  let c6 := handleDisconnection r
              {| status := reconnecting; reconnectAttempts := 5; heartbeatTimer := None;
                 reconnectTimer := None; eventSource := false |} in
  reconnectAttempts c1 = 1%nat
  ∧ (∃ d, reconnectTimer c1 = Some d ∧ 2000 ≤ d ≤ 2500)
  ∧ getReconnectDelay c1 = Some 1
  ∧ reconnectAttempts c6 = 6%nat
  ∧ (∃ d, reconnectTimer c6 = Some d ∧ 60000 ≤ d ≤ 75000).
Proof.
  intros Hr0 Hr1 c1 c6.
  split; [done|]. split; [|split; [|split; [done|]]].
  - destruct (handleDisconnection_spec r create) as (_ & _ & Ht & _).
    eexists. split; [exact Ht|].
    destruct (calculateBackoff_with_bounds SSE_CONFIG.INITIAL_RECONNECT_DELAY
                SSE_CONFIG.MAX_RECONNECT_DELAY r 1) as [Hlo Hhi]; try done.
    change (exponentialDelay _ _ 1) with 2000 in *. simpl. lia.
  - reflexivity.
  - by apply backoff_at_cap.
Qed.

Lemma backoff_starts_at_twice_the_base_witness :
  let c1 := handleDisconnection (1 # 2) create in
  let c6 := handleDisconnection (1 # 2)
              {| status := reconnecting; reconnectAttempts := 5; heartbeatTimer := None;
                 reconnectTimer := None; eventSource := false |} in
  reconnectAttempts c1 = 1%nat
  ∧ (∃ d, reconnectTimer c1 = Some d ∧ 2000 ≤ d ≤ 2500)
  ∧ getReconnectDelay c1 = Some 1
  ∧ reconnectAttempts c6 = 6%nat
  ∧ (∃ d, reconnectTimer c6 = Some d ∧ 60000 ≤ d ≤ 75000).
Proof. apply (backoff_starts_at_twice_the_base (1 # 2)); vm_compute; congruence. Defined.

End SSEClientFacts.

(** * Further properties of the code *)

(** ** The catch-up log: lookups, replay and expiry *)

Module MessageQueueMore.
Import MessageQueue.

Lemma findIndex_first (P : QueuedMessage → Prop) `{∀ x, Decision (P x)} pre m post :
  Forall (λ x, ¬ P x) pre → P m →
  Js.findIndex P (pre ++ m :: post) = Z.of_nat (length pre).
Proof.
  intros Hpre Hm. unfold Js.findIndex.
  assert (Hf : list_find P (pre ++ m :: post) = Some (length pre, m)).
  { apply list_find_Some. split; [|split; [done|]].
    - by rewrite lookup_app_r, Nat.sub_diag by lia.
    - intros j y Hj Hlt. rewrite lookup_app_l in Hj by done.
      rewrite Forall_forall in Hpre. apply Hpre. eapply list_elem_of_lookup_2, Hj. }
  by rewrite Hf.
Qed.

(** X1: [enqueue] returns the id it stored; right after it that id is
    the room's latest event id and [hasEventId] finds it, whatever the
    size bound; the logs of the other rooms are as before. *)
Theorem enqueue_then_lookup fresh now room ev payload q :
  (enqueue fresh now room ev payload q).1 = fresh
  ∧ getLatestEventId room (enqueue fresh now room ev payload q).2 = Some fresh
  ∧ hasEventId room fresh (enqueue fresh now room ev payload q).2 = true
  ∧ ∀ room', room' ≠ room →
      log room' (enqueue fresh now room ev payload q).2 = log room' q.
Proof.
  pose proof (MessageQueueFacts.enqueue_last fresh now room ev payload q) as Hlast.
  pose proof (MessageQueueFacts.enqueue_queue_is_log fresh now room ev payload q) as Hq.
  split; [done|]. split; [|split].
  - unfold getLatestEventId. rewrite Hq, Hlast. reflexivity.
  - unfold hasEventId. rewrite Hq. apply bool_decide_eq_true_2, Exists_exists.
    eexists. split; [eapply last_Some_elem_of, Hlast | done].
  - intros room' Hne. by apply MessageQueueFacts.enqueue_log_other.
Qed.

(** X2: when the presented id is the id of an entry of the room's log,
    [getMessagesSince] returns exactly the entries after the first entry
    with that id, in log order (none when it is the newest entry). *)
Theorem getMessagesSince_known_id room q pre m post :
  log room q = pre ++ m :: post →
  id m ∉ (id <$> pre) →
  getMessagesSince room (id m) q = post.
Proof.
  intros Hlog Hpre. rewrite MessageQueueFacts.getMessagesSince_spec. simpl.
  rewrite Hlog. rewrite (findIndex_first (λ x, id x = id m) pre m post); [| |done].
  - rewrite bool_decide_eq_false_2 by lia.
    replace (Z.of_nat (length pre) + 1) with (Z.of_nat (S (length pre))) by lia.
    rewrite slice_from_start.
    change (m :: post) with ([m] ++ post). rewrite app_assoc.
    rewrite drop_app_length'; [done|]. rewrite length_app. simpl. lia.
  - apply Forall_forall. intros x Hx Hid. apply Hpre. rewrite <- Hid.
    by apply list_elem_of_fmap_2.
Qed.

Lemma getMessagesSince_known_id_witness :
  let q := enqueue_all (create 1000 10)
             [mkCall "e1" 0 "room1" "chatMessage" "{1}";
              mkCall "e2" 1 "room1" "chatMessage" "{2}";
              mkCall "e3" 2 "room1" "chatMessage" "{3}"] in
  getMessagesSince "room1" "e1" q
  = [mkMsg "e2" "chatMessage" "{2}" 1 "room1"; mkMsg "e3" "chatMessage" "{3}" 2 "room1"].
Proof.
  intros q.
  apply (getMessagesSince_known_id "room1" q [] (mkMsg "e1" "chatMessage" "{1}" 0 "room1")).
  - vm_compute. reflexivity.
  - simpl. apply not_elem_of_nil.
Defined.

(** X3: [getMessages(room, limit)] returns the last [limit] entries of the
    room's log for a positive [limit], all of it when it is shorter, and
    the whole log for [limit = 0], where the slice is [slice(-0)]. *)
Theorem getMessages_limit room (n : nat) q :
  getMessages room (Z.of_nat n) q
  = (if decide (n = 0%nat) then log room q else Js.lastn n (log room q))
  ∧ (n ≠ 0%nat → (length (getMessages room (Z.of_nat n) q) ≤ n)%nat).
Proof.
  assert (Heq : getMessages room (Z.of_nat n) q
                = if decide (n = 0%nat) then log room q else Js.lastn n (log room q)).
  { unfold getMessages, log. destruct (queues q !! room) as [queue|]; simpl.
    - destruct (decide (n = 0%nat)) as [->|Hn]; [apply slice_zero|].
      apply slice_from_end. lia.
    - by destruct (decide (n = 0%nat)). }
  split; [done|]. intros Hn. rewrite Heq, decide_False by done.
  rewrite lastn_length. lia.
Qed.

Lemma filter_all_of_length {A} (P : A → Prop) `{∀ x, Decision (P x)} (l : list A) :
  length (filter P l) = length l → filter P l = l.
Proof.
  induction l as [|x l IH]; [done|]. rewrite filter_cons.
  destruct (decide (P x)); simpl.
  - intros Hlen. f_equal. apply IH. lia.
  - intros Hlen. pose proof (length_filter P l). lia.
Qed.

Lemma cleanup_room_contents now ttl0 queue :
  default [] (cleanup_room now ttl0 queue)
  = filter (λ m, now - timestamp m < ttl0) queue.
Proof.
  unfold cleanup_room. case_bool_decide as Hchanged.
  - case_bool_decide as Hempty; simpl; [|done].
    symmetry. by apply nil_length_inv.
  - simpl. symmetry. apply filter_all_of_length.
    destruct (decide (length (filter (λ m, now - timestamp m < ttl0) queue)
                      = length queue)); [done|]. by destruct Hchanged.
Qed.

Lemma cleanup_log now q room :
  log room (cleanup now q).2 = filter (λ m, now - timestamp m < ttl q) (log room q).
Proof.
  unfold log, cleanup. simpl. rewrite lookup_omap.
  destruct (queues q !! room) as [queue|]; simpl; [|done].
  apply cleanup_room_contents.
Qed.

Lemma total_messages_insert qs room queue :
  qs !! room = None →
  total_messages (<[room := queue]> qs) = total_messages qs + Z.of_nat (length queue).
Proof.
  intros Hnone. unfold total_messages. rewrite map_fold_insert_L; [done| |done].
  intros. lia.
Qed.

Lemma cleanup_counts now ttl0 qs :
  map_fold (λ _ queue acc, acc + removed_in_room now ttl0 queue) 0 qs
  = total_messages qs - total_messages (omap (cleanup_room now ttl0) qs).
Proof.
  induction qs as [|room queue qs Hnone IH] using map_ind.
  - rewrite omap_empty. unfold total_messages. by rewrite !map_fold_empty.
  - rewrite map_fold_insert_L; [|intros; lia|done].
    rewrite IH, total_messages_insert by done.
    pose proof (cleanup_room_contents now ttl0 queue) as Hc.
    assert (Hafter : total_messages (omap (cleanup_room now ttl0) (<[room:=queue]> qs))
                     = total_messages (omap (cleanup_room now ttl0) qs)
                       + Z.of_nat (length (filter (λ m, now - timestamp m < ttl0) queue))).
    { rewrite <- Hc. destruct (cleanup_room now ttl0 queue) as [kept|] eqn:Hroom; simpl.
      - rewrite (omap_insert_Some _ _ _ _ kept) by done.
        apply total_messages_insert. by rewrite lookup_omap, Hnone.
      - rewrite omap_insert_None by done.
        rewrite delete_id by (by rewrite lookup_omap, Hnone). lia. }
    rewrite Hafter. unfold removed_in_room. lia.
Qed.

(** X4: [cleanup()] keeps, in every room and in their order, exactly the
    entries younger than the TTL ([now - timestamp < ttl], so an entry
    that is exactly [ttl] old goes), and the number it returns is the
    number of messages [getStats] counted before minus the number it
    counts after. *)
Theorem cleanup_keeps_unexpired now q :
  (∀ room, log room (cleanup now q).2
           = filter (λ m, now - timestamp m < ttl q) (log room q))
  ∧ (cleanup now q).1 = (getStats q).2 - (getStats (cleanup now q).2).2.
Proof.
  split; [intros room; apply cleanup_log|].
  unfold cleanup, getStats. simpl. apply cleanup_counts.
Qed.

(** X5: a second [cleanup()] at the same instant removes nothing: it
    returns 0 and leaves the queues as the first one left them. *)
Theorem cleanup_twice now q :
  cleanup now (cleanup now q).2 = (0, (cleanup now q).2).
Proof.
  assert (Hfix : omap (cleanup_room now (ttl q)) (queues (cleanup now q).2)
                 = queues (cleanup now q).2).
  { apply map_eq. intros room. rewrite lookup_omap.
    destruct (queues (cleanup now q).2 !! room) as [queue|] eqn:Hq; simpl; [|done].
    assert (Hall : filter (λ m, now - timestamp m < ttl q) queue = queue).
    { pose proof (cleanup_log now q room) as Hlog. unfold log at 1 in Hlog.
      rewrite Hq in Hlog. simpl in Hlog. rewrite Hlog.
      apply filter_id, Forall_forall. intros m Hm.
      by apply list_elem_of_filter in Hm as [? _]. }
    unfold cleanup_room. rewrite Hall. by rewrite bool_decide_eq_false_2 by (intros ?; done). }
  unfold cleanup at 1. f_equal.
  - change (ttl (cleanup now q).2) with (ttl q). rewrite cleanup_counts, Hfix. lia.
  - change (ttl (cleanup now q).2) with (ttl q). rewrite Hfix. reflexivity.
Qed.

End MessageQueueMore.

(** ** The event bus: listener sets, counter and delivery *)

Module SSEEventEmitterMore.
Import SSEEventEmitter.

Section Sets.
Context {L : Type} `{EqDecision L}.
Implicit Types (e : t L) (l : L) (c : string).

Lemma add_proper l (ls : list L) : NoDup ls → JsSet.add l ls ≠ [] ∧ NoDup (JsSet.add l ls).
Proof.
  intros Hnd. unfold JsSet.add. destruct (decide (l ∈ ls)) as [Hin|Hnot].
  - split; [|done]. intros ->. by apply elem_of_nil in Hin.
  - split; [by destruct ls|]. apply NoDup_app. split; [done|]. split.
    + intros x Hx ->%list_elem_of_singleton. done.
    + apply NoDup_singleton.
Qed.

Lemma add_size l (ls : list L) : JsSet.size (JsSet.add l ls) ≤ JsSet.size ls + 1.
Proof.
  unfold JsSet.add, JsSet.size. destruct (decide (l ∈ ls)); [lia|].
  rewrite length_app. simpl. lia.
Qed.

Lemma addListener_well_kept c l e : well_kept e → well_kept (addListener c l e).
Proof.
  intros [Hsets Hcnt]. split.
  - intros c' ls. unfold addListener. simpl.
    destruct (decide (c = c')) as [<-|Hne].
    + rewrite lookup_insert_eq. intros [= <-]. apply add_proper.
      destruct (listeners e !! c) as [ls0|] eqn:Hc; simpl; [|constructor].
      by destruct (Hsets c ls0 Hc).
    + rewrite lookup_insert_ne by done. apply Hsets.
  - unfold total_size, addListener in *. simpl.
    rewrite SSEEventEmitterFacts.sizes_insert.
    pose proof (add_size l (default [] (listeners e !! c))) as Hadd.
    destruct (listeners e !! c) as [ls0|] eqn:Hc; simpl in *.
    + rewrite (SSEEventEmitterFacts.sizes_delete _ c ls0) in Hcnt by done. lia.
    + rewrite SSEEventEmitterFacts.sizes_delete_absent by done.
      unfold JsSet.size in *. simpl in *. lia.
Qed.

Lemma removeListener_well_kept c l e : well_kept e → well_kept (removeListener c l e).2.
Proof.
  intros [Hsets Hcnt]. unfold removeListener.
  destruct (listeners e !! c) as [ls|] eqn:Hc; simpl; [|done].
  case_bool_decide as Hin; simpl; [|done].
  destruct (Hsets c ls Hc) as [_ Hnd].
  pose proof (SSEEventEmitterFacts.delete_one_size l ls Hnd Hin) as Hsz.
  unfold JsSet.delete in Hsz. simpl in Hsz.
  unfold total_size in *.
  rewrite (SSEEventEmitterFacts.sizes_delete _ c ls) in Hcnt by done.
  split.
  - intros c' ls'. simpl. case_bool_decide as Hz.
    + intros Hl. apply lookup_delete_Some in Hl as [_ Hl]. eauto.
    + destruct (decide (c = c')) as [<-|Hne].
      * rewrite lookup_insert_eq. intros [= <-]. split; [|by apply NoDup_filter].
        intros Hnil. apply Hz. by rewrite Hnil.
      * rewrite lookup_insert_ne by done. eauto.
  - unfold total_size. simpl. case_bool_decide as Hz; simpl.
    + lia.
    + rewrite SSEEventEmitterFacts.sizes_insert. lia.
Qed.

Lemma removeAllListeners_well_kept oc e :
  well_kept e → well_kept (removeAllListeners oc e).
Proof.
  intros [Hsets Hcnt]. unfold removeAllListeners.
  destruct (truthy oc) as [c|].
  - destruct (listeners e !! c) as [ls|] eqn:Hc; [|done].
    unfold total_size in *.
    rewrite (SSEEventEmitterFacts.sizes_delete _ c ls) in Hcnt by done.
    split.
    + intros c' ls'. simpl. intros Hl. apply lookup_delete_Some in Hl as [_ Hl]. eauto.
    + unfold total_size. simpl. lia.
  - split; [|reflexivity]. intros c ls. simpl. by rewrite lookup_empty.
Qed.

Lemma apply_ops_well_kept ops e : well_kept e → well_kept (apply_ops e ops).
Proof.
  revert e. induction ops as [|o ops IH]; intros e He; [done|].
  simpl. apply IH. destruct o; simpl.
  - by apply addListener_well_kept.
  - by apply removeListener_well_kept.
  - by apply removeAllListeners_well_kept.
Qed.

Lemma create_well_kept : well_kept (create (L := L)).
Proof.
  split; [|reflexivity]. intros c ls. simpl. by rewrite lookup_empty.
Qed.

(** X6: after any run of [addListener], [removeListener] and
    [removeAllListeners] calls on a new emitter, duplicate adds included:
    no channel is stored with an empty set, no set holds a listener twice,
    [hasListeners(c)] is true exactly for the stored channels, and
    [getListenerCount()] is never below the sum of the set sizes. *)
Theorem listener_sets_well_kept (ops : list (SetOp (L := L))) :
  let e := apply_ops create ops in
  (∀ c ls, listeners e !! c = Some ls → ls ≠ [] ∧ NoDup ls)
  ∧ (∀ c, hasListeners c e = true ↔ is_Some (listeners e !! c))
  ∧ total_size e ≤ getListenerCount None e.
Proof.
  intros e. destruct (apply_ops_well_kept ops create create_well_kept) as [Hsets Hcnt].
  fold e in Hsets, Hcnt. split; [exact Hsets|]. split; [|exact Hcnt].
  intros c. unfold hasListeners. destruct (listeners e !! c) as [ls|] eqn:Hc.
  - destruct (Hsets c ls Hc) as [Hne _]. split; [eauto|]. intros _.
    apply bool_decide_eq_true_2. unfold JsSet.size. destruct ls; [done|simpl; lia].
  - split; [done|]. by intros [? ?].
Qed.

Lemma removeListener_addListener c l e :
  l ∉ channel_listeners c e →
  (∀ ls, listeners e !! c = Some ls → ls ≠ []) →
  removeListener c l (addListener c l e) = (true, e).
Proof.
  intros Hnew Hne. unfold channel_listeners in Hnew.
  unfold removeListener, addListener. simpl. rewrite lookup_insert_eq.
  unfold JsSet.add. rewrite decide_False by done.
  unfold JsSet.delete. simpl.
  rewrite bool_decide_eq_true_2 by (apply elem_of_app; right; apply list_elem_of_here).
  assert (Hrest : filter (λ y, y ≠ l) (default [] (listeners e !! c) ++ [l])
                  = default [] (listeners e !! c)).
  { rewrite filter_app, filter_cons_False, filter_nil, app_nil_r by (intros ?; done).
    apply filter_id, Forall_forall. intros y Hy ->. done. }
  rewrite Hrest. f_equal. destruct e as [ls0 mx cnt]. simpl in *.
  case_bool_decide as Hz.
  - f_equal; [|lia]. rewrite delete_insert_eq. apply delete_id.
    destruct (ls0 !! c) as [ls|] eqn:Hc; [|done]. exfalso.
    apply (Hne ls eq_refl). simpl in Hz. unfold JsSet.size in Hz.
    apply nil_length_inv. lia.
  - f_equal; [|lia]. rewrite insert_insert_eq. apply insert_id.
    destruct (ls0 !! c) as [ls|] eqn:Hc; [done|]. by destruct Hz.
Qed.

(** X7: calling the cleanup function [addListener] returned, right after
    adding a listener that was not yet on the channel, reports a removal
    and gives back the emitter as it was before the add: sets, channels
    and counter. *)
Theorem addListener_then_cleanup c l e :
  l ∉ channel_listeners c e →
  (∀ ls, listeners e !! c = Some ls → ls ≠ []) →
  removeListener c l (addListener c l e) = (true, e).
Proof. apply removeListener_addListener. Qed.

End Sets.

Lemma addListener_then_cleanup_witness :
  let e := addListener "sse" 1%nat create in
  removeListener "sse" 2%nat (addListener "sse" 2%nat e) = (true, e).
Proof.
  intros e. apply (addListener_then_cleanup "sse" 2%nat e).
  - vm_compute. intros Hin. apply list_elem_of_singleton in Hin. discriminate Hin.
  - intros ls. vm_compute. intros [= <-]. discriminate.
Defined.

Section Delivery.
Context {L : Type} `{EqDecision L} {W : Type}.
Variable call : L → SSEEvent → W → completion unit * W.
Implicit Types (b : bus L W) (l : L).

Lemma for_of_other_channels event xs b c :
  c ≠ "sse" →
  channel_listeners c (emitter (for_of xs (deliver call event) b).2)
  = channel_listeners c (emitter b).
Proof.
  intros Hc. revert b. induction xs as [|x xs IH]; intros b; [done|].
  destruct (SSEEventEmitterFacts.deliver_spec call event x b)
    as (b1 & Hd & _ & _ & Hok & Hthrow).
  simpl. unfold bind. rewrite Hd, IH.
  destruct (call x event (outside b)).1 as [[]|err] eqn:Hcall.
  - rewrite Hok by eauto. done.
  - rewrite Hthrow by eauto.
    by apply SSEEventEmitterFacts.removeListener_other_channel.
Qed.

(** X8: [emit] completes normally; it calls exactly the listeners that
    were on the ["sse"] channel when it started, each once and in
    registration order, with the emitted event; listeners of other
    channels are not called and their sets are left as they were; with
    nobody on ["sse"] nothing changes at all. *)
Theorem emit_reaches_exactly_the_channel type payload eid b :
  let event := mkEvent type payload eid in
  let b' := (emit call type payload eid b).2 in
  (emit call type payload eid b).1 = Normal tt
  ∧ invoked b' = invoked b ++ ((λ l, (l, event)) <$> sse_listeners b)
  ∧ (∀ c, c ≠ "sse" → channel_listeners c (emitter b') = channel_listeners c (emitter b))
  ∧ (sse_listeners b = [] → b' = b).
Proof.
  intros event b'.
  destruct (SSEEventEmitterFacts.emit_spec call type payload eid b)
    as (b1 & He & Hinv & _).
  unfold b'. rewrite He. simpl. split; [done|]. split; [done|]. split.
  - intros c Hc.
    rewrite <- (for_of_other_channels (mkEvent type payload eid) (sse_listeners b) b c Hc).
    rewrite <- SSEEventEmitterFacts.emit_unfold. by rewrite He.
  - intros Hnone. rewrite SSEEventEmitterFacts.emit_unfold, Hnone in He.
    simpl in He. by injection He.
Qed.

(** X9: the listener cap is a threshold for a warning only: whatever
    [setMaxListeners] was given, [addListener] puts the listener on the
    channel, keeps the listeners that were there, and the next [emit]
    calls the new listener. *)
Theorem listener_beyond_cap_is_served n l (e : t L) w log type payload eid :
  let e' := addListener "sse" l (setMaxListeners n e) in
  let event := mkEvent type payload eid in
  l ∈ channel_listeners "sse" e'
  ∧ (∀ l', l' ∈ channel_listeners "sse" e → l' ∈ channel_listeners "sse" e')
  ∧ ∃ calls, invoked (emit call type payload eid (mkBus e' w log)).2 = log ++ calls
             ∧ (l, event) ∈ calls.
Proof.
  intros e' event.
  assert (Hmem : ∀ x, x ∈ channel_listeners "sse" e'
                      ↔ x = l ∨ x ∈ channel_listeners "sse" e).
  { intros x. unfold e', channel_listeners, addListener. simpl.
    rewrite lookup_insert_eq. simpl. unfold JsSet.add.
    destruct (decide (l ∈ default [] (listeners e !! "sse"))) as [Hin|Hnot].
    - split; [by right|]. intros [->|?]; done.
    - rewrite elem_of_app, list_elem_of_singleton. tauto. }
  split; [apply Hmem; by left|]. split; [intros l' Hl'; apply Hmem; by right|].
  destruct (SSEEventEmitterFacts.emit_spec call type payload eid (mkBus e' w log))
    as (b1 & He & Hinv & _).
  rewrite He. simpl in *. eexists. split; [exact Hinv|].
  apply list_elem_of_fmap. exists l. split; [done|]. apply Hmem. by left.
Qed.

End Delivery.

End SSEEventEmitterMore.

(** ** The connection registry: presence signals and the stale sweep *)

Module SSEManagerMore.
Import SSEManager.

Implicit Types (m : t) (cid user : string) (c : SSEConnection).

Lemma removeConnection_connections cid m :
  connections (removeConnection cid m).2 = delete cid (connections m).
Proof.
  unfold removeConnection. destruct (connections m !! cid) as [c|] eqn:Hc.
  - by destruct (userConnections m !! userId c).
  - simpl. symmetry. by apply delete_id.
Qed.

Lemma remove_all_connections cids m :
  connections (foldl (λ acc cid, (removeConnection cid acc).2) m cids)
  = foldl (λ acc cid, delete cid acc) (connections m) cids.
Proof.
  revert m. induction cids as [|cid cids IH]; intros m; [done|].
  simpl. by rewrite IH, removeConnection_connections.
Qed.

Lemma lookup_delete_all (conns : gmap string SSEConnection) cids cid :
  foldl (λ acc k, delete k acc) conns cids !! cid
  = if decide (cid ∈ cids) then None else conns !! cid.
Proof.
  revert conns. induction cids as [|k cids IH]; intros conns; cbn [foldl].
  - destruct (decide (cid ∈ [])) as [Hin|_]; [by apply elem_of_nil in Hin|done].
  - rewrite IH. destruct (decide (cid ∈ cids)) as [Hin|Hnot].
    + destruct (decide (cid ∈ k :: cids)) as [_|Hno]; [done|].
      destruct Hno. by right.
    + destruct (decide (k = cid)) as [->|Hne].
      * destruct (decide (cid ∈ cid :: cids)) as [_|Hno];
          [apply lookup_delete_eq | destruct Hno; apply list_elem_of_here].
      * rewrite lookup_delete_ne by done.
        destruct (decide (cid ∈ k :: cids)) as [[->|?]%elem_of_cons|_]; done.
Qed.

Lemma elem_of_staleConnections now m cid :
  cid ∈ staleConnections now m
  ↔ ∃ c, connections m !! cid = Some c
         ∧ SSE_CONFIG.HEARTBEAT_TIMEOUT < now - lastHeartbeat c.
Proof.
  unfold staleConnections. rewrite list_elem_of_fmap. split.
  - intros ([k c] & -> & Hin). apply elem_of_map_to_list in Hin.
    apply map_lookup_filter_Some in Hin as [Hc Hstale]. eauto.
  - intros (c & Hc & Hstale). exists (cid, c). split; [done|].
    apply elem_of_map_to_list, map_lookup_filter_Some. done.
Qed.

(** What the sweep leaves of one connection. *)
Lemma cleanupStaleConnections_lookup now m cid :
  connections (cleanupStaleConnections now m) !! cid
  = match connections m !! cid with
    | Some c => if decide (SSE_CONFIG.HEARTBEAT_TIMEOUT < now - lastHeartbeat c)
                then None else Some c
    | None => None
    end.
Proof.
  unfold cleanupStaleConnections. rewrite remove_all_connections, lookup_delete_all.
  destruct (connections m !! cid) as [c|] eqn:Hc.
  - destruct (decide (SSE_CONFIG.HEARTBEAT_TIMEOUT < now - lastHeartbeat c)) as [Hs|Hs].
    + rewrite decide_True; [done|]. apply elem_of_staleConnections. eauto.
    + rewrite decide_False; [done|]. intros (c' & Hc' & Hs')%elem_of_staleConnections.
      congruence.
  - by destruct (decide (cid ∈ staleConnections now m)).
Qed.

Lemma removeConnection_addConnection fresh now user room ctrl m :
  connections m !! fresh = None → consistent m →
  (addConnection fresh now user room ctrl m).1
  = (fresh, negb (hasUserConnection user m))
  ∧ removeConnection fresh (addConnection fresh now user room ctrl m).2
    = ({| removed := true;
          isLastConnection := negb (hasUserConnection user m);
          removedUserId := Some user |}, m).
Proof.
  intros Hnew [Hsets Hown].
  assert (Hnotin : fresh ∉ default [] (userConnections m !! user)).
  { destruct (userConnections m !! user) as [s0|] eqn:Hs; simpl; [|apply not_elem_of_nil].
    intros Hin. apply (Hsets user s0 Hs) in Hin as (c & Hc & _). congruence. }
  assert (Hrest : filter (λ y, y ≠ fresh)
                         (JsSet.add fresh (default [] (userConnections m !! user)))
                  = default [] (userConnections m !! user)).
  { unfold JsSet.add. rewrite decide_False by done.
    rewrite filter_app, filter_cons_False, filter_nil, app_nil_r by (intros ?; done).
    apply filter_id, Forall_forall. intros y Hy ->. done. }
  unfold addConnection, removeConnection, hasUserConnection. simpl.
  rewrite !lookup_insert_eq. simpl. rewrite Hrest.
  destruct m as [conns ucs]. simpl in *.
  destruct (ucs !! user) as [s0|] eqn:Hs; simpl.
  - destruct (Hsets user s0 Hs) as [Hne _].
    assert (Hsz : JsSet.size s0 ≠ 0).
    { unfold JsSet.size. destruct s0; [done|simpl; lia]. }
    rewrite (bool_decide_eq_false_2 (JsSet.size s0 = 0)) by done.
    rewrite (bool_decide_eq_true_2 (0 < JsSet.size s0)) by (unfold JsSet.size in *; lia).
    simpl. split; [done|]. f_equal. f_equal.
    + rewrite delete_insert_eq. by apply delete_id.
    + rewrite insert_insert_eq. by apply insert_id.
  - simpl. split; [done|]. f_equal. f_equal.
    + rewrite delete_insert_eq. by apply delete_id.
    + rewrite delete_insert_eq. by apply delete_id.
Qed.

(** X10: [addConnection] with an id that is new to a consistent registry,
    followed by [removeConnection] of that id, gives the registry back as
    it was, both maps; [isNewUser] is true exactly when the user had no
    connection, and the removal's [isLastConnection] repeats it: the
    online and offline signals pair up. *)
Theorem addConnection_then_removeConnection fresh now user room ctrl m :
  connections m !! fresh = None → consistent m →
  (addConnection fresh now user room ctrl m).1
  = (fresh, negb (hasUserConnection user m))
  ∧ removeConnection fresh (addConnection fresh now user room ctrl m).2
    = ({| removed := true;
          isLastConnection := negb (hasUserConnection user m);
          removedUserId := Some user |}, m).
Proof. apply removeConnection_addConnection. Qed.

Lemma addConnection_then_removeConnection_witness :
  let m := (addConnection "c1" 5 "alice" "room" 0 create).2 in
  (addConnection "c2" 6 "alice" "room" 1 m).1 = ("c2", negb (hasUserConnection "alice" m))
  ∧ removeConnection "c2" (addConnection "c2" 6 "alice" "room" 1 m).2
    = ({| removed := true;
          isLastConnection := negb (hasUserConnection "alice" m);
          removedUserId := Some "alice" |}, m).
Proof.
  intros m. apply (addConnection_then_removeConnection "c2" 6 "alice" "room" 1%nat m).
  - vm_compute. reflexivity.
  - apply SSEManagerFacts.addConnection_consistent;
      [reflexivity | apply SSEManagerFacts.create_consistent].
Defined.

(** X11: removing a registered connection from a consistent registry
    reports [removed], the owner's id, and [isLastConnection] exactly when
    the table holds no other connection of that owner, which is exactly
    when [hasUserConnection(owner)] is false afterwards; the table loses
    that entry and no other. *)
Theorem removeConnection_registered cid c m :
  consistent m → connections m !! cid = Some c →
  let r := (removeConnection cid m).1 in
  let m' := (removeConnection cid m).2 in
  removed r = true
  ∧ removedUserId r = Some (userId c)
  ∧ connections m' = delete cid (connections m)
  ∧ isLastConnection r = negb (hasUserConnection (userId c) m')
  ∧ (isLastConnection r = true
     ↔ ∀ cid' c', connections m !! cid' = Some c' → userId c' = userId c → cid' = cid).
Proof.
  intros [Hsets Hown] Hc r m'.
  destruct (Hown cid c Hc) as [s0 Hs0].
  destruct (Hsets _ _ Hs0) as [_ Hmem].
  assert (Heq : removeConnection cid m
    = ({| removed := true;
          isLastConnection := bool_decide (JsSet.size (filter (λ y, y ≠ cid) s0) = 0);
          removedUserId := Some (userId c) |},
       {| connections := delete cid (connections m);
          userConnections :=
            if bool_decide (JsSet.size (filter (λ y, y ≠ cid) s0) = 0)
            then delete (userId c) (userConnections m)
            else <[userId c := filter (λ y, y ≠ cid) s0]> (userConnections m) |})).
  { unfold removeConnection. rewrite Hc, Hs0. reflexivity. }
  unfold r, m'. rewrite Heq. unfold hasUserConnection. simpl.
  split; [done|]. split; [done|]. split; [done|]. split.
  - case_bool_decide as Hz; simpl.
    + by rewrite lookup_delete_eq.
    + rewrite lookup_insert_eq. rewrite bool_decide_eq_true_2; [done|].
      unfold JsSet.size in *. lia.
  - rewrite bool_decide_eq_true. unfold JsSet.size. split.
    + intros Hz cid' c' Hc' Hu. destruct (decide (cid' = cid)) as [|Hne]; [done|].
      assert (Hin : cid' ∈ filter (λ y, y ≠ cid) s0).
      { apply list_elem_of_filter. split; [done|]. apply Hmem. eauto. }
      destruct (filter (λ y, y ≠ cid) s0); [by apply elem_of_nil in Hin|].
      simpl in Hz. lia.
    + intros Honly. destruct (filter (λ y, y ≠ cid) s0) as [|x rest] eqn:Hf; [done|].
      assert (Hin : x ∈ filter (λ y, y ≠ cid) s0) by (rewrite Hf; apply list_elem_of_here).
      apply list_elem_of_filter in Hin as [Hne Hx].
      apply Hmem in Hx as (c' & Hc' & Hu). destruct Hne. by eapply Honly.
Qed.

Lemma removeConnection_registered_witness :
  let m := (addConnection "c2" 6 "alice" "room" 1
              (addConnection "c1" 5 "alice" "room" 0 create).2).2 in
  let c := mkConn "c1" "alice" 5 5 5 "room" (Some 0%nat) in
  let r := (removeConnection "c1" m).1 in
  let m' := (removeConnection "c1" m).2 in
  removed r = true
  ∧ removedUserId r = Some (userId c)
  ∧ connections m' = delete "c1" (connections m)
  ∧ isLastConnection r = negb (hasUserConnection (userId c) m')
  ∧ (isLastConnection r = true
     ↔ ∀ cid' c', connections m !! cid' = Some c' → userId c' = userId c → cid' = "c1").
Proof.
  intros m c. apply (removeConnection_registered "c1" c m).
  - repeat apply SSEManagerFacts.addConnection_consistent;
      try reflexivity; apply SSEManagerFacts.create_consistent.
  - vm_compute. reflexivity.
Defined.

(** X12: the stale sweep removes exactly the connections whose last
    heartbeat acknowledgment is more than HEARTBEAT_TIMEOUT (45 s) old: the
    table afterwards is the table before restricted to the connections
    with [now - lastHeartbeat <= 45000], each unchanged; and on a
    consistent registry the user map still mirrors the table. *)
Theorem cleanupStaleConnections_exact now m :
  connections (cleanupStaleConnections now m)
  = filter (λ kc, now - lastHeartbeat kc.2 ≤ SSE_CONFIG.HEARTBEAT_TIMEOUT) (connections m)
  ∧ (consistent m → mirrors (cleanupStaleConnections now m)).
Proof.
  split.
  - apply map_eq. intros cid. rewrite cleanupStaleConnections_lookup.
    apply option_eq. intros c'. rewrite map_lookup_filter_Some. simpl.
    destruct (connections m !! cid) as [c|]; [|split; [done | by intros [? _]]].
    destruct (decide (SSE_CONFIG.HEARTBEAT_TIMEOUT < now - lastHeartbeat c)).
    + split; [done|]. intros [[= <-] ?]. lia.
    + split; [intros [= <-]; split; [done|lia] | by intros [? _]].
  - intros Hm. apply SSEManagerFacts.consistent_mirrors.
    by apply SSEManagerFacts.cleanupStaleConnections_consistent.
Qed.

(** X13: a heartbeat acknowledgment for a registered connection reports
    success, sets [lastHeartbeat] to its first reading of the clock,
    [now1], and [lastActivity] to its second, [now2], and leaves the other
    fields as they were; the connection then survives every stale sweep
    that runs up to HEARTBEAT_TIMEOUT after [now1], whatever the second
    reading was. *)
Theorem acknowledged_connection_survives_sweep now1 now2 now' cid c m :
  connections m !! cid = Some c →
  now' - now1 ≤ SSE_CONFIG.HEARTBEAT_TIMEOUT →
  (acknowledgeHeartbeat now1 now2 cid m).1 = true
  ∧ connections (cleanupStaleConnections now' (acknowledgeHeartbeat now1 now2 cid m).2)
      !! cid
    = Some {| connectionId := connectionId c; userId := userId c;
              connectedAt := connectedAt c; lastActivity := now2;
              lastHeartbeat := now1; roomId := roomId c;
              controller := controller c |}.
Proof.
  intros Hc Hle. rewrite cleanupStaleConnections_lookup.
  unfold acknowledgeHeartbeat. rewrite Hc. simpl. split; [done|].
  rewrite lookup_insert_eq. simpl. by rewrite decide_False by lia.
Qed.

Lemma acknowledged_connection_survives_sweep_witness :
  let m := (addConnection "c1" 0 "alice" "room" 0 create).2 in
  (acknowledgeHeartbeat 30000 30001 "c1" m).1 = true
  ∧ connections (cleanupStaleConnections 75000 (acknowledgeHeartbeat 30000 30001 "c1" m).2)
      !! "c1"
    = Some {| connectionId := "c1"; userId := "alice"; connectedAt := 0;
              lastActivity := 30001; lastHeartbeat := 30000; roomId := "room";
              controller := Some 0%nat |}.
Proof.
  intros m.
  apply (acknowledged_connection_survives_sweep 30000 30001 75000 "c1"
           (mkConn "c1" "alice" 0 0 0 "room" (Some 0%nat)) m).
  - vm_compute. reflexivity.
  - vm_compute. discriminate.
Defined.

End SSEManagerMore.

(** ** The server: what every reachable state satisfies *)

Section EnvInvariant.
Context `{UuidSupply}.
Variable P : Env → Prop.
Hypothesis P_frame :
  ∀ w w', next_uuid w' = next_uuid w → messageQueue w' = messageQueue w → P w → P w'.
Hypothesis P_randomUUID : ∀ w, P w → P (randomUUID w).2.
Hypothesis P_enqueue : ∀ room ev payload w, P w → P (enqueue room ev payload w).2.
Hypothesis P_cleanup :
  ∀ now w, P w → P (set_messageQueue (MessageQueue.cleanup now (messageQueue w)).2 w).
Hypothesis P_clear :
  ∀ w, P w → P (set_messageQueue (MessageQueue.clear (messageQueue w)) w).

Lemma P_controller_enqueue ctrl chunk w : P w → P (controller_enqueue ctrl chunk w).2.
Proof.
  destruct (controller_enqueue_queue ctrl chunk w) as [Hn Hq]. by apply P_frame.
Qed.

Lemma P_onSSE room ctrl event w : P w → P (onSSE room ctrl event w).2.
Proof.
  intros Hw. unfold onSSE.
  pose proof (P_randomUUID w Hw) as H1.
  destruct (randomUUID w) as [eventId w1]. simpl in H1.
  pose proof (P_controller_enqueue ctrl (formatSSEEvent event eventId) w1 H1) as H2.
  destruct (controller_enqueue ctrl (formatSSEEvent event eventId) w1) as [[[]|err] w2];
    simpl in *; [|done].
  destruct (decide (ev_type event ≠ heartbeat)); simpl; [|done].
  by apply P_enqueue.
Qed.

Lemma P_emit type payload eid s : P (env s) → P (env (emit type payload eid s).2).
Proof. apply emit_env_invariant. intros room ctrl w. apply P_onSSE. Qed.

Lemma P_sendToConnection cid event eventId s :
  P (env s) → P (env (sendToConnection cid event eventId s).2).
Proof.
  intros Hs. unfold sendToConnection.
  destruct (SSEManager.connections (manager s) !! cid) as [c|]; [|done].
  destruct (SSEManager.controller c) as [ctrl|]; [|done].
  assert (H1 : P (match eventId with Some i => (i, env s) | None => randomUUID (env s) end).2).
  { destruct eventId; [done | by apply P_randomUUID]. }
  destruct (match eventId with Some i => (i, env s) | None => randomUUID (env s) end)
    as [i w1]. simpl in H1.
  pose proof (P_controller_enqueue ctrl (formatSSEEvent event i) w1 H1) as H2.
  destruct (controller_enqueue ctrl (formatSSEEvent event i) w1) as [[[]|err] w2];
    simpl in *; [|done].
  by apply P_enqueue.
Qed.

Lemma P_sendToUser_fold event ids sent s :
  P (env s) →
  P (env (foldl (λ '(sent, acc) connId,
                   let '(ok, acc') := sendToConnection connId event None acc in
                   (if ok then sent + 1 else sent, acc'))
                (sent, s) ids).2).
Proof.
  revert sent s. induction ids as [|cid ids IH]; intros sent s Hs; [done|].
  simpl. pose proof (P_sendToConnection cid event None s Hs) as H1.
  destruct (sendToConnection cid event None s) as [ok s1]. by apply IH.
Qed.

Lemma P_sendHeartbeats_fold now kcs w : P w → P (foldl (sendHeartbeat now) w kcs).
Proof.
  revert w. induction kcs as [|kc kcs IH]; intros w Hw; [done|].
  simpl. apply IH. unfold sendHeartbeat.
  destruct (SSEManager.controller kc.2) as [ctrl|]; [|done].
  pose proof (P_randomUUID w Hw) as H1.
  destruct (randomUUID w) as [i w1]. by apply P_controller_enqueue.
Qed.

Lemma P_broadcast type payload room s :
  P (env s) → P (env (broadcast type payload room s).2).
Proof.
  intros Hs. unfold broadcast.
  pose proof (P_randomUUID (env s) Hs) as H1.
  destruct (randomUUID (env s)) as [eventId w1]. simpl in H1.
  apply P_emit. simpl.
  destruct (SSEEventEmitter.truthy room); [by apply P_enqueue | done].
Qed.

(** A property of the environment that the primitive changes preserve is
    preserved by every step of the server. *)
Lemma step_env_invariant s o : P (env s) → P (env (step s o)).
Proof.
  intros Hs. destruct o; simpl.
  - unfold addConnection. by apply P_randomUUID.
  - unfold removeConnection. by destruct (SSEManager.removeConnection cid (manager s)).
  - done.
  - destruct (acknowledgeHeartbeat_env cid elapsed s) as (Hn & Hq & _).
    by eapply P_frame; [| |exact Hs].
  - done.
  - by apply P_sendToConnection.
  - by apply P_sendToUser_fold.
  - by apply P_broadcast.
  - by apply P_emit.
  - by apply P_sendHeartbeats_fold.
  - destruct (heartbeat_POST_env caller body elapsed s) as (Hn & Hq & _).
    by eapply P_frame; [| |exact Hs].
  - done.
  - done.
  - done.
  - by apply P_enqueue.
  - by apply P_cleanup.
  - by apply P_clear.
  - by eapply P_frame; [| |exact Hs].
  - by eapply P_frame; [| |exact Hs].
  - by apply P_controller_enqueue.
  - by eapply P_frame; [| |exact Hs].
Qed.

Lemma run_env_invariant ops s : P (env s) → P (env (run s ops)).
Proof.
  revert s. induction ops as [|o ops IH]; intros s Hs; [done|].
  simpl. by apply IH, step_env_invariant.
Qed.

End EnvInvariant.

Section QueueSound.
Context `{UuidSupply} `{!UuidFresh}.
Implicit Types (w : Env) (q : MessageQueue.t).

Lemma NoDup_ids_filter (P : MessageQueue.QueuedMessage → Prop) `{∀ x, Decision (P x)}
    (l : list MessageQueue.QueuedMessage) :
  NoDup (MessageQueue.id <$> l) → NoDup (MessageQueue.id <$> filter P l).
Proof.
  induction l as [|x l IH]; [done|]. rewrite fmap_cons, NoDup_cons. intros [Hx Hl].
  rewrite filter_cons. destruct (decide (P x)); [|by apply IH].
  rewrite fmap_cons. apply NoDup_cons. split; [|by apply IH].
  intros (y & Hid & Hy)%list_elem_of_fmap. apply list_elem_of_filter in Hy as [_ Hy].
  apply Hx. rewrite Hid. by apply list_elem_of_fmap_2.
Qed.

(** What [enqueue] stores for the room: a tail of the old log with the
    new message pushed. *)
Lemma enqueue_stores_tail fresh now room ev payload q :
  ∃ k, MessageQueue.queues (MessageQueue.enqueue fresh now room ev payload q).2 !! room
       = Some (drop k (MessageQueue.log room q
                       ++ [MessageQueue.mkMsg fresh ev payload now room])).
Proof.
  rewrite MessageQueueFacts.enqueue_queue_is_log.
  destruct (decide (MessageQueue.maxSize q = 0%nat)) as [Hz|Hnz].
  - exists 0%nat. by rewrite MessageQueueFacts.enqueue_log_unbounded.
  - rewrite MessageQueueFacts.enqueue_log by lia. eexists. reflexivity.
Qed.

Lemma enqueue_other_room fresh now room ev payload q room' :
  room' ≠ room →
  MessageQueue.queues (MessageQueue.enqueue fresh now room ev payload q).2 !! room'
  = MessageQueue.queues q !! room'.
Proof. intros Hne. unfold MessageQueue.enqueue. simpl. by rewrite lookup_insert_ne. Qed.

Lemma queue_sound_enqueue room ev payload w :
  queue_sound w → queue_sound (enqueue room ev payload w).2.
Proof.
  intros (Hall & Hne & Hnd & Hbound).
  destruct (enqueue_env room ev payload w) as [Hnext Hq].
  set (msg := MessageQueue.mkMsg (uuid (next_uuid w)) ev payload (clock w) room).
  destruct (enqueue_stores_tail (uuid (next_uuid w)) (clock w) room ev payload
              (messageQueue w)) as [k Hk]. fold msg in Hk.
  assert (Hlast := MessageQueueFacts.enqueue_last (uuid (next_uuid w)) (clock w)
                     room ev payload (messageQueue w)).
  pose proof (MessageQueueFacts.enqueue_queue_is_log (uuid (next_uuid w)) (clock w)
                room ev payload (messageQueue w)) as Hislog.
  split; [|split; [|split]].
  - eapply queue_ids_allocated_grows; [apply enqueue_grows | done].
  - intros room' queue. rewrite Hq. destruct (decide (room' = room)) as [->|Hneq].
    + rewrite Hislog. intros Hsome Hnil.
      assert (Hl : last queue = Some msg) by (unfold msg; rewrite <- Hlast; congruence).
      by rewrite Hnil in Hl.
    + rewrite enqueue_other_room by done. apply Hne.
  - intros room' queue. rewrite Hq. destruct (decide (room' = room)) as [->|Hneq].
    + rewrite Hk. intros [= <-]. rewrite fmap_drop.
      eapply sublist_NoDup; [|apply sublist_drop].
      rewrite fmap_app. apply NoDup_app. split; [|split].
      * unfold MessageQueue.log.
        destruct (MessageQueue.queues (messageQueue w) !! room) as [old|] eqn:Hold;
          simpl; [by eapply Hnd | constructor].
      * intros i Hi Hnew. apply list_elem_of_singleton in Hnew. simpl in Hnew.
        apply list_elem_of_fmap in Hi as (m & -> & Hm).
        unfold MessageQueue.log in Hm.
        destruct (MessageQueue.queues (messageQueue w) !! room) as [old|] eqn:Hold;
          simpl in Hm; [|by apply elem_of_nil in Hm].
        destruct (Hall room old m Hold Hm) as (j & Hj & Hid).
        rewrite Hid in Hnew. apply uuid_inj in Hnew. lia.
      * simpl. apply NoDup_singleton.
    + rewrite enqueue_other_room by done. apply Hnd.
  - rewrite Hq. change (MessageQueue.maxSize (MessageQueue.enqueue _ _ _ _ _ _).2)
      with (MessageQueue.maxSize (messageQueue w)).
    intros Hpos room' queue. destruct (decide (room' = room)) as [->|Hneq].
    + rewrite Hislog, MessageQueueFacts.enqueue_log by done. intros [= <-].
      rewrite lastn_length. lia.
    + rewrite enqueue_other_room by done. by apply Hbound.
Qed.

Lemma cleanup_lookup now q room queue' :
  MessageQueue.queues (MessageQueue.cleanup now q).2 !! room = Some queue' →
  ∃ queue, MessageQueue.queues q !! room = Some queue
           ∧ (queue' = queue
              ∨ queue' = filter (λ m, now - MessageQueue.timestamp m < MessageQueue.ttl q) queue
                ∧ queue' ≠ []).
Proof.
  unfold MessageQueue.cleanup. simpl. rewrite lookup_omap.
  destruct (MessageQueue.queues q !! room) as [queue|]; simpl; [|done].
  unfold MessageQueue.cleanup_room. intros Hc. exists queue. split; [done|].
  repeat case_bool_decide; simplify_eq; [|by left].
  right. split; [done|]. intros Hnil. by rewrite Hnil in *.
Qed.

Lemma queue_sound_cleanup now w :
  queue_sound w →
  queue_sound (set_messageQueue (MessageQueue.cleanup now (messageQueue w)).2 w).
Proof.
  intros (Hall & Hne & Hnd & Hbound). split; [|split; [|split]].
  - intros room queue' m. simpl. intros Hq Hm.
    destruct (MessageQueueFacts.cleanup_elem _ _ _ _ _ Hq Hm) as (q0 & Hq0 & Hm0). eauto.
  - intros room queue'. simpl. intros Hq.
    destruct (cleanup_lookup _ _ _ _ Hq) as (queue & Hq0 & [->|[_ ?]]); eauto.
  - intros room queue'. simpl. intros Hq.
    destruct (cleanup_lookup _ _ _ _ Hq) as (queue & Hq0 & [->|[-> _]]); [eauto|].
    apply NoDup_ids_filter. eauto.
  - simpl. intros Hpos room queue' Hq.
    destruct (cleanup_lookup _ _ _ _ Hq) as (queue & Hq0 & [->|[-> _]]); [eauto|].
    etransitivity; [apply length_filter|]. eauto.
Qed.

Lemma queue_sound_empty w :
  MessageQueue.queues (messageQueue w) = ∅ → queue_sound w.
Proof.
  intros Hempty. unfold queue_sound, queue_ids_allocated, MessageQueue.rooms_nonempty,
    MessageQueue.ids_distinct. rewrite Hempty.
  split; [|split; [|split]].
  - intros room queue m Hq. by rewrite lookup_empty in Hq.
  - intros room queue Hq. by rewrite lookup_empty in Hq.
  - intros room queue Hq. by rewrite lookup_empty in Hq.
  - intros _ room queue Hq. by rewrite lookup_empty in Hq.
Qed.

Lemma queue_sound_step s o : queue_sound (env s) → queue_sound (env (step s o)).
Proof.
  apply (step_env_invariant queue_sound).
  - intros w w' Hn Hq (Hall & Hne & Hnd & Hbound). unfold queue_sound, queue_ids_allocated.
    rewrite Hn, Hq. done.
  - intros w (Hall & Hne & Hnd & Hbound). split; [|done].
    eapply queue_ids_allocated_grows; [apply randomUUID_grows | done].
  - intros. by apply queue_sound_enqueue.
  - intros. by apply queue_sound_cleanup.
  - intros w _. by apply queue_sound_empty.
Qed.

Lemma maxSize_step max s o :
  MessageQueue.maxSize (messageQueue (env s)) = max →
  MessageQueue.maxSize (messageQueue (env (step s o))) = max.
Proof.
  apply (step_env_invariant (λ w, MessageQueue.maxSize (messageQueue w) = max)).
  - intros w w' _ Hq. by rewrite Hq.
  - done.
  - done.
  - done.
  - done.
Qed.

Lemma run_queue_sound ttl0 max ops :
  queue_sound (env (run (boot ttl0 max) ops))
  ∧ MessageQueue.maxSize (messageQueue (env (run (boot ttl0 max) ops))) = max.
Proof.
  split.
  - apply (run_env_invariant queue_sound).
    + intros w w' Hn Hq (Hall & Hne & Hnd & Hbound).
      unfold queue_sound, queue_ids_allocated. rewrite Hn, Hq. done.
    + intros w (Hall & Hne & Hnd & Hbound). split; [|done].
      eapply queue_ids_allocated_grows; [apply randomUUID_grows | done].
    + intros. by apply queue_sound_enqueue.
    + intros. by apply queue_sound_cleanup.
    + intros w _. by apply queue_sound_empty.
    + by apply queue_sound_empty.
  - apply (run_env_invariant (λ w, MessageQueue.maxSize (messageQueue w) = max)); try done.
    intros w w' _ Hq. by rewrite Hq.
Qed.

(** X14: in every state the server can reach from start-up, through
    broadcasts, per-connection sends, listener deliveries, TTL cleanups
    and clears: no room is stored with an empty log, no two entries of a
    room's log share an id, and, when the queue was configured with a
    max size of at least 1, no room's log is longer than that. *)
Theorem queue_stays_sound ttl0 max ops :
  let q := messageQueue (env (run (boot ttl0 max) ops)) in
  (∀ room queue, MessageQueue.queues q !! room = Some queue → queue ≠ [])
  ∧ (∀ room, NoDup (MessageQueue.id <$> MessageQueue.log room q))
  ∧ ((0 < max)%nat → ∀ room, (length (MessageQueue.log room q) ≤ max)%nat).
Proof.
  intros q. destruct (run_queue_sound ttl0 max ops) as [(_ & Hne & Hnd & Hbound) Hmax].
  fold q in Hne, Hnd, Hbound, Hmax. split; [exact Hne|]. split.
  - intros room. unfold MessageQueue.log.
    destruct (MessageQueue.queues q !! room) as [queue|] eqn:Hq; simpl;
      [by eapply Hnd | constructor].
  - intros Hpos room. unfold MessageQueue.log.
    destruct (MessageQueue.queues q !! room) as [queue|] eqn:Hq; simpl; [|lia].
    rewrite <- Hmax. eapply Hbound; [lia | done].
Qed.

End QueueSound.

Section RegistryExact.
Context `{UuidSupply} `{!UuidFresh}.
Implicit Types (s : Server) (m : SSEManager.t).

Lemma step_registry_change s o :
  registry_change (next_uuid (env s)) (manager s) (manager (step s o)).
Proof.
  destruct o; simpl; try apply rc_same.
  - unfold addConnection. simpl. apply rc_add.
  - unfold removeConnection.
    pose proof (rc_remove (next_uuid (env s)) (manager s) cid) as Hr.
    by destruct (SSEManager.removeConnection cid (manager s)).
  - apply rc_activity.
  - rewrite acknowledgeHeartbeat_manager. apply rc_heartbeat.
  - apply rc_sweep.
  - replace (manager (sendToConnection cid event eventId s).2) with (manager s);
      [apply rc_same | symmetry; apply sendToConnection_grows].
  - replace (manager (sendToUser user event s).2) with (manager s);
      [apply rc_same | symmetry; apply sendToUser_fold].
  - replace (manager (broadcast type payload room s).2) with (manager s);
      [apply rc_same | symmetry; apply broadcast_grows].
  - rewrite emit_manager. apply rc_same.
  - destruct (heartbeat_POST_manager caller body elapsed s) as [->|[cid ->]];
      [apply rc_same | apply rc_heartbeat].
Qed.

Lemma removeConnection_exact cid m :
  registry_exact m → registry_exact (SSEManager.removeConnection cid m).2.
Proof.
  intros (Hcons & Hnd & Hkey). split; [by apply SSEManagerFacts.removeConnection_consistent|].
  unfold SSEManager.removeConnection.
  destruct (SSEManager.connections m !! cid) as [c0|] eqn:Hc0; [|done].
  destruct (SSEManager.userConnections m !! SSEManager.userId c0) as [s0|] eqn:Hs0;
    simpl; split.
  - intros user set. case_bool_decide.
    + intros Hl. apply lookup_delete_Some in Hl as [_ Hl]. eauto.
    + destruct (decide (SSEManager.userId c0 = user)) as [<-|Hne].
      * rewrite lookup_insert_eq. intros [= <-]. apply NoDup_filter. eauto.
      * rewrite lookup_insert_ne by done. eauto.
  - intros x c Hx. apply lookup_delete_Some in Hx as [_ Hx]. eauto.
  - done.
  - intros x c Hx. apply lookup_delete_Some in Hx as [_ Hx]. eauto.
Qed.

Lemma remove_all_exact cids m :
  registry_exact m →
  registry_exact (foldl (λ acc cid, (SSEManager.removeConnection cid acc).2) m cids).
Proof.
  revert m. induction cids as [|cid cids IH]; intros m Hm; [done|].
  simpl. by apply IH, removeConnection_exact.
Qed.

Lemma registry_change_exact n m m' :
  connection_ids_allocated n m → registry_change n m m' →
  registry_exact m → registry_exact m'.
Proof.
  intros Hids Hchange (Hcons & Hnd & Hkey). destruct Hchange.
  - done.
  - split; [|split].
    + apply SSEManagerFacts.addConnection_consistent; [by apply allocated_fresh | done].
    + intros user' set. unfold SSEManager.addConnection. simpl.
      destruct (decide (user = user')) as [<-|Hne].
      * rewrite lookup_insert_eq. intros [= <-].
        apply SSEEventEmitterMore.add_proper.
        destruct (SSEManager.userConnections m !! user) as [s0|] eqn:Hs0; simpl;
          [eauto | constructor].
      * rewrite lookup_insert_ne by done. eauto.
    + intros cid c. unfold SSEManager.addConnection. simpl.
      destruct (decide (uuid n = cid)) as [<-|Hne].
      * rewrite lookup_insert_eq. by intros [= <-].
      * rewrite lookup_insert_ne by done. eauto.
  - by apply removeConnection_exact.
  - split; [by apply SSEManagerFacts.updateActivity_consistent|].
    unfold SSEManager.updateActivity.
    destruct (SSEManager.connections m !! cid) as [c0|] eqn:Hc0; [|done].
    simpl. split; [done|]. intros x c. destruct (decide (cid = x)) as [->|Hne].
    + rewrite lookup_insert_eq. intros [= <-]. simpl. eauto.
    + rewrite lookup_insert_ne by done. eauto.
  - split; [by apply SSEManagerFacts.acknowledgeHeartbeat_consistent|].
    unfold SSEManager.acknowledgeHeartbeat.
    destruct (SSEManager.connections m !! cid) as [c0|] eqn:Hc0; [|done].
    simpl. split; [done|]. intros x c. destruct (decide (cid = x)) as [->|Hne].
    + rewrite lookup_insert_eq. intros [= <-]. simpl. eauto.
    + rewrite lookup_insert_ne by done. eauto.
  - by apply remove_all_exact.
Qed.

Lemma create_exact : registry_exact SSEManager.create.
Proof.
  split; [apply SSEManagerFacts.create_consistent|]. split.
  - intros user set. simpl. by rewrite lookup_empty.
  - intros cid c. simpl. by rewrite lookup_empty.
Qed.

Lemma run_registry_exact ops s :
  wf s → registry_exact (manager s) → registry_exact (manager (run s ops)).
Proof.
  revert s. induction ops as [|o ops IH]; intros s Hwf Hex; [done|].
  simpl. apply IH; [by apply step_wf|].
  destruct Hwf as (_ & Hids & _).
  eapply registry_change_exact; [exact Hids | apply step_registry_change | done].
Qed.

(** X15: in every state the server can reach from start-up,
    [hasUserConnection(user)] is true exactly when the connection table
    holds a connection of that user, [getUserConnectionIds(user)] lists
    exactly the ids of the user's connections, each once, and every
    connection is stored under its own [connectionId]. *)
Theorem presence_queries_exact ttl0 max ops user :
  let m := manager (run (boot ttl0 max) ops) in
  (SSEManager.hasUserConnection user m = true
   ↔ ∃ cid c, SSEManager.connections m !! cid = Some c ∧ SSEManager.userId c = user)
  ∧ (∀ cid, cid ∈ SSEManager.getUserConnectionIds user m
            ↔ ∃ c, SSEManager.connections m !! cid = Some c ∧ SSEManager.userId c = user)
  ∧ NoDup (SSEManager.getUserConnectionIds user m)
  ∧ (∀ cid c, SSEManager.connections m !! cid = Some c → SSEManager.connectionId c = cid).
Proof.
  intros m.
  destruct (run_registry_exact ops (boot ttl0 max) (boot_wf ttl0 max) create_exact)
    as ([Hsets Hown] & Hnd & Hkey). fold m in Hsets, Hown, Hnd, Hkey.
  assert (Hmem : ∀ cid, cid ∈ SSEManager.getUserConnectionIds user m
            ↔ ∃ c, SSEManager.connections m !! cid = Some c ∧ SSEManager.userId c = user).
  { intros cid. unfold SSEManager.getUserConnectionIds.
    destruct (SSEManager.userConnections m !! user) as [s0|] eqn:Hs0; simpl.
    - by apply (Hsets user s0 Hs0).
    - split; [by intros ?%elem_of_nil|]. intros (c & Hc & Hu).
      destruct (Hown cid c Hc) as [s1 Hs1]. congruence. }
  split; [|split; [exact Hmem|split; [|exact Hkey]]].
  - unfold SSEManager.hasUserConnection.
    destruct (SSEManager.userConnections m !! user) as [s0|] eqn:Hs0.
    + destruct (Hsets user s0 Hs0) as [Hne Hin]. split.
      * intros _. destruct s0 as [|cid s0]; [done|]. exists cid.
        apply Hin, list_elem_of_here.
      * intros _. apply bool_decide_eq_true_2. unfold JsSet.size.
        destruct s0; [done|simpl; lia].
    + split; [done|]. intros (cid & c & Hc & Hu).
      destruct (Hown cid c Hc) as [s1 Hs1]. congruence.
  - unfold SSEManager.getUserConnectionIds.
    destruct (SSEManager.userConnections m !! user) as [s0|] eqn:Hs0; simpl;
      [eauto | constructor].
Qed.

End RegistryExact.

(** ** The server: sends, broadcasts and heartbeats *)

Section BusMore.
Context {L : Type} `{EqDecision L} {W : Type}.
Variable call : L → SSEEvent → W → completion unit * W.

(** A loop over listeners that all return leaves the emitter alone, and
    the state outside is the calls' effects in order. *)
Lemma for_of_all_return event xs (b : SSEEventEmitter.bus L W) :
  (∀ l w, l ∈ xs → (call l event w).1 = Normal tt) →
  SSEEventEmitter.emitter (SSEEventEmitter.for_of xs (SSEEventEmitter.deliver call event) b).2
  = SSEEventEmitter.emitter b.
Proof.
  revert b. induction xs as [|x xs IH]; intros b Hret; [done|].
  destruct (SSEEventEmitterFacts.deliver_spec call event x b)
    as (b1 & Hd & _ & _ & Hok & _).
  simpl. unfold SSEEventEmitter.bind. rewrite Hd, IH.
  - apply Hok. exists tt. apply Hret. by left.
  - intros l w Hl. apply Hret. by right.
Qed.

Lemma for_of_outside_fold event xs (b : SSEEventEmitter.bus L W) :
  SSEEventEmitter.outside (SSEEventEmitter.for_of xs (SSEEventEmitter.deliver call event) b).2
  = foldl (λ w l, (call l event w).2) (SSEEventEmitter.outside b) xs.
Proof.
  revert b. induction xs as [|x xs IH]; intros b; [done|].
  destruct (SSEEventEmitterFacts.deliver_spec call event x b)
    as (b1 & Hd & _ & Hout & _).
  simpl. unfold SSEEventEmitter.bind. by rewrite Hd, IH, Hout.
Qed.

End BusMore.

Section Sends.
Context `{UuidSupply}.
Implicit Types (w : Env) (s : Server).

Lemma onSSE_returns room ctrl event w : (onSSE room ctrl event w).1 = Normal tt.
Proof.
  unfold onSSE. destruct (randomUUID w) as [i w1].
  destruct (controller_enqueue ctrl (formatSSEEvent event i) w1) as [[[]|err] w2]; [|done].
  by destruct (decide (ev_type event ≠ heartbeat)).
Qed.

Lemma emit_sseEmitter type payload eid s :
  sseEmitter (emit type payload eid s).2 = sseEmitter s.
Proof.
  unfold emit, sseEmitter.
  pose proof (for_of_all_return call_listener (mkEvent type payload eid)
                (SSEEventEmitter.sse_listeners (bus s)) (bus s)) as Hsame.
  rewrite <- SSEEventEmitterFacts.emit_unfold in Hsame.
  destruct (SSEEventEmitter.emit call_listener type payload eid (bus s)) as [r b'].
  simpl in *. apply Hsame. intros l w _. apply onSSE_returns.
Qed.

Lemma emit_env_fold type payload eid s :
  env (emit type payload eid s).2
  = foldl (λ w l, (onSSE (l_room l) (l_ctrl l) (mkEvent type payload eid) w).2)
          (env s) (SSEEventEmitter.sse_listeners (bus s)).
Proof.
  rewrite emit_env, SSEEventEmitterFacts.emit_unfold. apply for_of_outside_fold.
Qed.

(** X16: neither [emit] nor [broadcast] ever unregisters a listener of
    the endpoint or touches the connection registry, and both complete
    normally: [onSSE] catches its own write errors, so the bus's removal
    of throwing listeners never applies to it and a listener whose stream
    is dead stays subscribed. *)
Theorem broadcast_keeps_listeners type payload room eid s :
  (emit type payload eid s).1 = Normal tt
  ∧ sseEmitter (emit type payload eid s).2 = sseEmitter s
  ∧ manager (emit type payload eid s).2 = manager s
  ∧ (broadcast type payload room s).1 = Normal tt
  ∧ sseEmitter (broadcast type payload room s).2 = sseEmitter s
  ∧ manager (broadcast type payload room s).2 = manager s.
Proof.
  split; [apply emit_completes|]. split; [apply emit_sseEmitter|].
  split; [apply emit_manager|].
  unfold broadcast. destruct (randomUUID (env s)) as [eventId w1].
  split; [apply emit_completes|]. split.
  - by rewrite emit_sseEmitter.
  - by rewrite emit_manager.
Qed.

Lemma sendHeartbeat_queue now w kc :
  messageQueue (sendHeartbeat now w kc) = messageQueue w.
Proof.
  unfold sendHeartbeat. destruct (SSEManager.controller kc.2) as [ctrl|]; [|done].
  destruct (randomUUID w) as [i w1] eqn:Hr.
  destruct (controller_enqueue_queue ctrl
              (formatSSEEvent (mkEvent heartbeat (heartbeat_data kc.1 now) None) i) w1)
    as [_ Hq].
  rewrite Hq. unfold randomUUID in Hr. by injection Hr as _ <-.
Qed.

Lemma sendHeartbeats_queue_fold now kcs w :
  messageQueue (foldl (sendHeartbeat now) w kcs) = messageQueue w.
Proof.
  revert w. induction kcs as [|kc kcs IH]; intros w; [done|].
  simpl. by rewrite IH, sendHeartbeat_queue.
Qed.

Lemma onSSE_heartbeat_queue room ctrl payload eid w :
  messageQueue (onSSE room ctrl (mkEvent heartbeat payload eid) w).2 = messageQueue w.
Proof.
  unfold onSSE. simpl.
  destruct (controller_enqueue_queue ctrl
              (formatSSEEvent (mkEvent heartbeat payload eid) (uuid (next_uuid w)))
              (randomUUID w).2) as [_ Hq].
  unfold randomUUID in *. simpl in *.
  by destruct (controller_enqueue ctrl _ _) as [[[]|err] w2].
Qed.

(** X17: heartbeats do not enter the catch-up log on the periodic path:
    [sendHeartbeats] leaves the queue, the registry and the bus as they
    were, and a heartbeat event sent over the bus is written by the
    listeners but queued by none of them. *)
Theorem heartbeats_are_not_queued s payload eid :
  messageQueue (env (sendHeartbeats s)) = messageQueue (env s)
  ∧ manager (sendHeartbeats s) = manager s
  ∧ sseEmitter (sendHeartbeats s) = sseEmitter s
  ∧ messageQueue (env (emit heartbeat payload eid s).2) = messageQueue (env s).
Proof.
  split; [apply sendHeartbeats_queue_fold|]. split; [done|]. split; [done|].
  apply (emit_env_invariant (λ w, messageQueue w = messageQueue (env s))); [|done].
  intros room ctrl w Hw. by rewrite onSSE_heartbeat_queue.
Qed.

End Sends.

Section Multiplicity.
Context `{UuidSupply}.
Implicit Types (w : Env) (s : Server).

Lemma enqueue_log_bounded fresh now room ev payload q :
  MessageQueue.log room (MessageQueue.enqueue fresh now room ev payload q).2
  = MessageQueue.bounded_tail (MessageQueue.maxSize q)
      (MessageQueue.log room q ++ [MessageQueue.mkMsg fresh ev payload now room]).
Proof.
  unfold MessageQueue.bounded_tail.
  destruct (decide (MessageQueue.maxSize q = 0%nat)) as [Hz|Hnz].
  - by apply MessageQueueFacts.enqueue_log_unbounded.
  - apply MessageQueueFacts.enqueue_log. lia.
Qed.

Lemma bounded_tail_app max l l2 :
  MessageQueue.bounded_tail max (MessageQueue.bounded_tail max l ++ l2)
  = MessageQueue.bounded_tail max (l ++ l2).
Proof.
  unfold MessageQueue.bounded_tail. destruct (decide (max = 0%nat)); [done|].
  apply lastn_app_lastn.
Qed.

Lemma stream_open_controller_enqueue ctrl chunk w ctrl' :
  stream_open (controller_enqueue ctrl chunk w).2 ctrl' = stream_open w ctrl'.
Proof.
  unfold controller_enqueue, stream_open.
  destruct (streams w !! ctrl) as [st|] eqn:Hst; [|done].
  destruct (closed st) eqn:Hcl; [done|]. simpl.
  destruct (decide (ctrl = ctrl')) as [<-|Hne].
  - by rewrite lookup_insert_eq, Hst, Hcl.
  - by rewrite lookup_insert_ne.
Qed.

Lemma controller_enqueue_open ctrl chunk w :
  stream_open w ctrl = true → (controller_enqueue ctrl chunk w).1 = Normal tt.
Proof.
  unfold controller_enqueue, stream_open.
  destruct (streams w !! ctrl) as [st|]; [|done]. by destruct (closed st).
Qed.

Lemma controller_enqueue_closed ctrl chunk w :
  stream_open w ctrl = false →
  ∃ err, controller_enqueue ctrl chunk w = (Throw err, w).
Proof.
  unfold controller_enqueue, stream_open.
  destruct (streams w !! ctrl) as [st|]; [|eauto]. destruct (closed st); [eauto|done].
Qed.

Lemma onSSE_eq room ctrl event w :
  onSSE room ctrl event w
  = match controller_enqueue ctrl (formatSSEEvent event (uuid (next_uuid w)))
                             (randomUUID w).2 with
    | (Normal _, w2) =>
        if decide (ev_type event ≠ heartbeat)
        then (Normal tt, (enqueue room (type_name (ev_type event)) (ev_data event) w2).2)
        else (Normal tt, w2)
    | (Throw _, w2) => (Normal tt, w2)
    end.
Proof. reflexivity. Qed.

(** One listener call on an event that is not a heartbeat, seen from the
    log of [room]. *)
Lemma onSSE_log room l type payload eid w :
  type ≠ heartbeat →
  let w' := (onSSE (l_room l) (l_ctrl l) (mkEvent type payload eid) w).2 in
  (∀ ctrl, stream_open w' ctrl = stream_open w ctrl)
  ∧ MessageQueue.maxSize (messageQueue w') = MessageQueue.maxSize (messageQueue w)
  ∧ ∃ m, MessageQueue.event m = type_name type ∧ MessageQueue.data m = payload
         ∧ MessageQueue.log room (messageQueue w')
           = if is_live room w l
             then MessageQueue.bounded_tail (MessageQueue.maxSize (messageQueue w))
                    (MessageQueue.log room (messageQueue w) ++ [m])
             else MessageQueue.log room (messageQueue w).
Proof.
  intros Hty w'. unfold w'. rewrite onSSE_eq. cbn [ev_type ev_data].
  set (w1 := (randomUUID w).2).
  set (chunk := formatSSEEvent _ _).
  assert (Hopen1 : ∀ ctrl, stream_open w1 ctrl = stream_open w ctrl) by done.
  assert (Hq1 : messageQueue w1 = messageQueue w) by done.
  pose proof (stream_open_controller_enqueue (l_ctrl l) chunk w1) as Hopen2.
  destruct (controller_enqueue_queue (l_ctrl l) chunk w1) as [Hn2 Hq2].
  unfold is_live. destruct (stream_open w (l_ctrl l)) eqn:Hopen.
  - pose proof (controller_enqueue_open (l_ctrl l) chunk w1) as Hok.
    rewrite Hopen1 in Hok. specialize (Hok Hopen).
    destruct (controller_enqueue (l_ctrl l) chunk w1) as [r w2].
    cbn [fst snd] in *. subst r. rewrite decide_True by done. cbn [snd].
    destruct (enqueue_env (l_room l) (type_name type) payload w2) as [_ Hq3].
    split; [|split].
    + intros ctrl. transitivity (stream_open w2 ctrl); [done|].
      rewrite Hopen2. apply Hopen1.
    + rewrite Hq3, MessageQueueFacts.enqueue_maxSize. congruence.
    + exists (MessageQueue.mkMsg (uuid (next_uuid w2)) (type_name type) payload
                (clock w2) (l_room l)).
      split; [done|]. split; [done|].
      rewrite Hq3, andb_true_r. case_bool_decide as Hroom.
      * rewrite <- Hroom, enqueue_log_bounded, Hq2, Hq1. reflexivity.
      * rewrite MessageQueueFacts.enqueue_log_other by done. congruence.
  - assert (Hclosed : stream_open w1 (l_ctrl l) = false) by (by rewrite Hopen1).
    destruct (controller_enqueue_closed (l_ctrl l) chunk w1 Hclosed) as [err ->].
    cbn [snd]. split; [done|]. split; [done|].
    exists (MessageQueue.mkMsg "" (type_name type) payload 0 "").
    split; [done|]. split; [done|]. by rewrite andb_false_r.
Qed.

Lemma live_listeners_same_streams room w w' ls :
  (∀ ctrl, stream_open w' ctrl = stream_open w ctrl) →
  live_listeners room w' ls = live_listeners room w ls.
Proof.
  intros Hsame. unfold live_listeners. apply list_filter_iff. intros l.
  unfold is_live. by rewrite Hsame.
Qed.

(** The listener loop of one emit, seen from the log of [room]. *)
Lemma deliveries_log room type payload eid ls w :
  type ≠ heartbeat →
  let w' := foldl (λ w l, (onSSE (l_room l) (l_ctrl l) (mkEvent type payload eid) w).2)
                  w ls in
  (∀ ctrl, stream_open w' ctrl = stream_open w ctrl)
  ∧ MessageQueue.maxSize (messageQueue w') = MessageQueue.maxSize (messageQueue w)
  ∧ ∃ msgs, length msgs = length (live_listeners room w ls)
            ∧ Forall (λ m, MessageQueue.event m = type_name type
                           ∧ MessageQueue.data m = payload) msgs
            ∧ MessageQueue.log room (messageQueue w')
              = if decide (msgs = []) then MessageQueue.log room (messageQueue w)
                else MessageQueue.bounded_tail (MessageQueue.maxSize (messageQueue w))
                       (MessageQueue.log room (messageQueue w) ++ msgs).
Proof.
  intros Hty. revert w. induction ls as [|l ls IH]; intros w.
  - simpl. split; [done|]. split; [done|]. exists []. by rewrite decide_True.
  - simpl. destruct (onSSE_log room l type payload eid w Hty)
      as (Hopen & Hmax & m & Hev & Hdata & Hlog).
    set (w1 := (onSSE (l_room l) (l_ctrl l) (mkEvent type payload eid) w).2) in *.
    destruct (IH w1) as (Hopen' & Hmax' & msgs & Hlen & Hall & Hlog').
    split; [intros ctrl; by rewrite Hopen', Hopen|]. split; [congruence|].
    rewrite (live_listeners_same_streams room w w1) in Hlen by done.
    unfold live_listeners. rewrite filter_cons. fold (live_listeners room w ls).
    destruct (is_live room w l) eqn:Hlive.
    + rewrite decide_True by done. exists (m :: msgs).
      split; [simpl; lia|]. split; [by constructor|].
      rewrite decide_False by done. rewrite Hlog', Hlog, Hmax.
      destruct (decide (msgs = [])) as [->|_]; [done|].
      rewrite bounded_tail_app, <- app_assoc. reflexivity.
    + rewrite decide_False by done. exists msgs.
      split; [done|]. split; [done|]. by rewrite Hlog', Hlog, Hmax.
Qed.

(** X18: [broadcast(type, data, room)] of an event that is not a heartbeat,
    to a non-empty room id, pushes onto the room's log one entry of its
    own and one more for every listener of that room on the bus whose
    stream accepts the write, all with the broadcast's type and payload;
    the log afterwards is what the size bound keeps of the old log
    followed by these entries.  With [k] clients connected to the room,
    one broadcast is logged [k + 1] times. *)
Theorem broadcast_is_queued_once_per_listener type payload room s :
  room ≠ "" → type ≠ heartbeat →
  let live := live_listeners room (env s) (SSEEventEmitter.sse_listeners (bus s)) in
  ∃ msgs,
    length msgs = S (length live)
    ∧ Forall (λ m, MessageQueue.event m = type_name type
                   ∧ MessageQueue.data m = payload) msgs
    ∧ MessageQueue.log room (messageQueue (env (broadcast type payload (Some room) s).2))
      = MessageQueue.bounded_tail (MessageQueue.maxSize (messageQueue (env s)))
          (MessageQueue.log room (messageQueue (env s)) ++ msgs).
Proof.
  intros Hroom Hty live.
  set (w1 := (randomUUID (env s)).2).
  set (w2 := (enqueue room (type_name type) payload w1).2).
  assert (Henv : env (broadcast type payload (Some room) s).2
            = foldl (λ w l, (onSSE (l_room l) (l_ctrl l)
                               (mkEvent type payload (Some (uuid (next_uuid (env s))))) w).2)
                    w2 (SSEEventEmitter.sse_listeners (bus s))).
  { unfold broadcast. cbn [randomUUID]. unfold SSEEventEmitter.truthy.
    rewrite decide_False by done.
    apply (emit_env_fold type payload (Some (uuid (next_uuid (env s)))) (set_env w2 s)). }
  rewrite Henv.
  destruct (deliveries_log room type payload (Some (uuid (next_uuid (env s))))
              (SSEEventEmitter.sse_listeners (bus s)) w2 Hty)
    as (_ & _ & msgs & Hlen & Hall & Hlog).
  destruct (enqueue_env room (type_name type) payload w1) as [_ Hq2]. fold w2 in Hq2.
  assert (Hlog2 : MessageQueue.log room (messageQueue w2)
            = MessageQueue.bounded_tail (MessageQueue.maxSize (messageQueue (env s)))
                (MessageQueue.log room (messageQueue (env s))
                 ++ [MessageQueue.mkMsg (uuid (next_uuid w1)) (type_name type) payload
                       (clock w1) room])).
  { rewrite Hq2. apply enqueue_log_bounded. }
  assert (Hmax2 : MessageQueue.maxSize (messageQueue w2)
                  = MessageQueue.maxSize (messageQueue (env s))) by (by rewrite Hq2).
  assert (Hlive : live_listeners room w2 (SSEEventEmitter.sse_listeners (bus s)) = live).
  { apply live_listeners_same_streams. intros ctrl. done. }
  exists (MessageQueue.mkMsg (uuid (next_uuid w1)) (type_name type) payload
            (clock w1) room :: msgs).
  split; [simpl; rewrite Hlen, Hlive; reflexivity|].
  split; [constructor; [split; reflexivity | exact Hall]|].
  rewrite Hlog, Hlog2, Hmax2.
  destruct (decide (msgs = [])) as [->|_]; [done|].
  rewrite bounded_tail_app, <- app_assoc. reflexivity.
Qed.

End Multiplicity.

Lemma queue_stays_sound_witness :
  let ops := [Enqueue "room1" "chatMessage" "{0}";
              Broadcast chatMessage "{1}" (Some "room1");
              Tick 400000; QueueCleanup; Enqueue "room2" "chatMessage" "{2}"] in
  let q := messageQueue (env (run (H := counter_uuid) (boot SSE_CONFIG.MESSAGE_QUEUE_TTL 1) ops)) in
  (∀ room queue, MessageQueue.queues q !! room = Some queue → queue ≠ [])
  ∧ (∀ room, NoDup (MessageQueue.id <$> MessageQueue.log room q))
  ∧ ((0 < 1)%nat → ∀ room, (length (MessageQueue.log room q) ≤ 1)%nat).
Proof.
  apply (@queue_stays_sound counter_uuid counter_uuid_fresh).
Defined.

Lemma presence_queries_exact_witness :
  let ops := [AddConnection "alice" "room1" 0; AddConnection "alice" "room1" 1;
              AddConnection "bob" "room1" 2; RemoveConnection "uuid-0"] in
  let m := manager (run (H := counter_uuid)
                        (boot SSE_CONFIG.MESSAGE_QUEUE_TTL SSE_CONFIG.MESSAGE_QUEUE_MAX_SIZE)
                        ops) in
  (SSEManager.hasUserConnection "alice" m = true
   ↔ ∃ cid c, SSEManager.connections m !! cid = Some c ∧ SSEManager.userId c = "alice")
  ∧ (∀ cid, cid ∈ SSEManager.getUserConnectionIds "alice" m
            ↔ ∃ c, SSEManager.connections m !! cid = Some c ∧ SSEManager.userId c = "alice")
  ∧ NoDup (SSEManager.getUserConnectionIds "alice" m)
  ∧ (∀ cid c, SSEManager.connections m !! cid = Some c → SSEManager.connectionId c = cid).
Proof.
  apply (@presence_queries_exact counter_uuid counter_uuid_fresh).
Defined.

Lemma broadcast_is_queued_once_per_listener_witness :
  let s := run (H := counter_uuid)
               (boot SSE_CONFIG.MESSAGE_QUEUE_TTL SSE_CONFIG.MESSAGE_QUEUE_MAX_SIZE)
               [OpenStream 0; OpenStream 1;
                AddListener "sse" {| lid := 0; l_room := "room1"; l_ctrl := 0 |};
                AddListener "sse" {| lid := 1; l_room := "room1"; l_ctrl := 1 |}] in
  "room1" ≠ "" ∧ chatMessage ≠ heartbeat
  ∧ ∃ msgs,
      length msgs = 3%nat
      ∧ Forall (λ m, MessageQueue.event m = type_name chatMessage
                     ∧ MessageQueue.data m = "{1}") msgs
      ∧ MessageQueue.log "room1"
          (messageQueue (env (broadcast (H := counter_uuid) chatMessage "{1}"
                                        (Some "room1") s).2))
        = MessageQueue.bounded_tail (MessageQueue.maxSize (messageQueue (env s)))
            (MessageQueue.log "room1" (messageQueue (env s)) ++ msgs).
Proof.
  intros s. split; [discriminate|]. split; [discriminate|].
  apply (@broadcast_is_queued_once_per_listener counter_uuid chatMessage "{1}" "room1" s);
    discriminate.
Defined.

(** ** The server: sends to one connection and to one user *)

Section Unicast.
Context `{UuidSupply}.
Implicit Types (w : Env) (s : Server).

Lemma controller_enqueue_written ctrl chunk w :
  stream_open w ctrl = true →
  let w' := (controller_enqueue ctrl chunk w).2 in
  written_to w' ctrl = written_to w ctrl ++ [chunk]
  ∧ (∀ ctrl', ctrl' ≠ ctrl → written_to w' ctrl' = written_to w ctrl')
  ∧ messageQueue w' = messageQueue w ∧ next_uuid w' = next_uuid w ∧ clock w' = clock w.
Proof.
  unfold controller_enqueue, stream_open, written_to.
  destruct (streams w !! ctrl) as [st|] eqn:Hst; [|done].
  destruct (closed st); [done|]. intros _. simpl.
  rewrite lookup_insert_eq. split; [done|]. split; [|done].
  intros ctrl' Hne. by rewrite lookup_insert_ne.
Qed.

Lemma enqueue_streams room ev payload w :
  streams (enqueue room ev payload w).2 = streams w.
Proof. destruct (enqueue_env room ev payload w) as [_ Hq]. reflexivity. Qed.

(** X19: [sendToConnection] returns true exactly when the id names a
    registered connection whose controller's stream accepts the write.
    Then that stream, and no other, gets one more frame, carrying the
    given event id or else the next UUID, and the log of the connection's
    room gets one entry with the event's type and payload, heartbeats
    included.  When it returns false neither the queue nor any stream
    changed.  The registry, the bus and which streams are open never
    change. *)
Theorem sendToConnection_outcome cid event eventId s :
  let ok := (sendToConnection cid event eventId s).1 in
  let s' := (sendToConnection cid event eventId s).2 in
  ok = deliverable s cid
  ∧ manager s' = manager s ∧ sseEmitter s' = sseEmitter s
  ∧ (∀ ctrl, stream_open (env s') ctrl = stream_open (env s) ctrl)
  ∧ (ok = false →
     messageQueue (env s') = messageQueue (env s) ∧ streams (env s') = streams (env s))
  ∧ (ok = true →
     ∃ c ctrl m,
       SSEManager.connections (manager s) !! cid = Some c
       ∧ SSEManager.controller c = Some ctrl
       ∧ written_to (env s') ctrl
         = written_to (env s) ctrl
           ++ [formatSSEEvent event (default (uuid (next_uuid (env s))) eventId)]
       ∧ (∀ ctrl', ctrl' ≠ ctrl → written_to (env s') ctrl' = written_to (env s) ctrl')
       ∧ MessageQueue.event m = type_name (ev_type event)
       ∧ MessageQueue.data m = ev_data event
       ∧ MessageQueue.log (SSEManager.roomId c) (messageQueue (env s'))
         = MessageQueue.bounded_tail (MessageQueue.maxSize (messageQueue (env s)))
             (MessageQueue.log (SSEManager.roomId c) (messageQueue (env s)) ++ [m])).
Proof.
  intros ok s'. unfold ok, s', sendToConnection, deliverable.
  destruct (SSEManager.connections (manager s) !! cid) as [c|] eqn:Hc; [|done].
  destruct (SSEManager.controller c) as [ctrl|] eqn:Hctrl; [|done].
  set (iw := match eventId with Some i => (i, env s) | None => randomUUID (env s) end).
  assert (Hi : iw.1 = default (uuid (next_uuid (env s))) eventId)
    by (by destruct eventId).
  assert (Hopen1 : ∀ ctrl', stream_open iw.2 ctrl' = stream_open (env s) ctrl')
    by (by destruct eventId).
  assert (Hw1 : ∀ ctrl', written_to iw.2 ctrl' = written_to (env s) ctrl')
    by (by destruct eventId).
  assert (Hq1 : messageQueue iw.2 = messageQueue (env s)) by (by destruct eventId).
  assert (Hs1 : streams iw.2 = streams (env s)) by (by destruct eventId).
  destruct iw as [i w1]. cbn [fst snd] in *. subst i.
  set (chunk := formatSSEEvent event _).
  pose proof (stream_open_controller_enqueue ctrl chunk w1) as Hopen2.
  destruct (stream_open (env s) ctrl) eqn:Hopen.
  - assert (Hopen' : stream_open w1 ctrl = true) by (by rewrite Hopen1).
    pose proof (controller_enqueue_open ctrl chunk w1 Hopen') as Hok.
    destruct (controller_enqueue_written ctrl chunk w1 Hopen')
      as (Hwr & Hoth & Hq2 & _).
    destruct (controller_enqueue ctrl chunk w1) as [r w2]. cbn [fst snd] in *. subst r.
    cbn [fst snd].
    destruct (enqueue_env (SSEManager.roomId c) (type_name (ev_type event))
                (ev_data event) w2) as [_ Hq3].
    pose proof (enqueue_streams (SSEManager.roomId c) (type_name (ev_type event))
                  (ev_data event) w2) as Hs3.
    set (w3 := (enqueue _ _ _ w2).2) in *.
    change (env (set_env w3 s)) with w3.
    assert (Hwto : ∀ ctrl', written_to w3 ctrl' = written_to w2 ctrl')
      by (intros ctrl'; unfold written_to; by rewrite Hs3).
    split; [done|]. split; [done|]. split; [done|]. split.
    { intros ctrl'. transitivity (stream_open w2 ctrl').
      - unfold stream_open. by rewrite Hs3.
      - by rewrite Hopen2. }
    split; [done|]. intros _.
    exists c, ctrl,
      (MessageQueue.mkMsg (uuid (next_uuid w2)) (type_name (ev_type event))
         (ev_data event) (clock w2) (SSEManager.roomId c)).
    split; [done|]. split; [done|]. split; [by rewrite Hwto, Hwr, Hw1|].
    split; [intros ctrl' Hne; by rewrite Hwto, Hoth, Hw1|].
    split; [done|]. split; [done|].
    rewrite Hq3, enqueue_log_bounded, Hq2, Hq1. reflexivity.
  - assert (Hclosed : stream_open w1 ctrl = false) by (by rewrite Hopen1).
    destruct (controller_enqueue_closed ctrl chunk w1 Hclosed) as [err ->].
    cbn [fst snd]. change (env (set_env w1 s)) with w1.
    split; [done|]. split; [done|]. split; [done|]. split; [done|].
    split; [done|]. done.
Qed.

Lemma sendToConnection_frame cid event eventId s :
  (sendToConnection cid event eventId s).1 = deliverable s cid
  ∧ manager (sendToConnection cid event eventId s).2 = manager s
  ∧ sseEmitter (sendToConnection cid event eventId s).2 = sseEmitter s
  ∧ ∀ ctrl, stream_open (env (sendToConnection cid event eventId s).2) ctrl
            = stream_open (env s) ctrl.
Proof.
  unfold sendToConnection, deliverable.
  destruct (SSEManager.connections (manager s) !! cid) as [c|]; [|done].
  destruct (SSEManager.controller c) as [ctrl|]; [|done].
  set (iw := match eventId with Some i => (i, env s) | None => randomUUID (env s) end).
  assert (Hopen1 : ∀ ctrl', stream_open iw.2 ctrl' = stream_open (env s) ctrl')
    by (by destruct eventId).
  destruct iw as [i w1]. cbn [fst snd] in *.
  set (chunk := formatSSEEvent event i).
  pose proof (stream_open_controller_enqueue ctrl chunk w1) as Hopen2.
  destruct (stream_open (env s) ctrl) eqn:Hopen.
  - assert (Hopen' : stream_open w1 ctrl = true) by (by rewrite Hopen1).
    pose proof (controller_enqueue_open ctrl chunk w1 Hopen') as Hok.
    destruct (controller_enqueue ctrl chunk w1) as [r w2]. cbn [fst snd] in *. subst r.
    cbn [fst snd].
    pose proof (enqueue_streams (SSEManager.roomId c) (type_name (ev_type event))
                  (ev_data event) w2) as Hs3.
    set (w3 := (enqueue _ _ _ w2).2) in *.
    change (env (set_env w3 s)) with w3.
    split; [done|]. split; [done|]. split; [done|].
    intros ctrl'. transitivity (stream_open w2 ctrl').
    + unfold stream_open. by rewrite Hs3.
    + by rewrite Hopen2.
  - assert (Hclosed : stream_open w1 ctrl = false) by (by rewrite Hopen1).
    destruct (controller_enqueue_closed ctrl chunk w1 Hclosed) as [err ->].
    cbn [fst snd]. change (env (set_env w1 s)) with w1. done.
Qed.

Lemma deliverable_same s s' cid :
  manager s' = manager s →
  (∀ ctrl, stream_open (env s') ctrl = stream_open (env s) ctrl) →
  deliverable s' cid = deliverable s cid.
Proof.
  intros Hm Hopen. unfold deliverable. rewrite Hm.
  destruct (SSEManager.connections (manager s) !! cid) as [c|]; [|done].
  destruct (SSEManager.controller c); [apply Hopen | done].
Qed.

Lemma sendToUser_count_fold event s ids sent acc :
  manager acc = manager s → sseEmitter acc = sseEmitter s →
  (∀ ctrl, stream_open (env acc) ctrl = stream_open (env s) ctrl) →
  let r := foldl (λ '(sent, acc) connId,
                    let '(ok, acc') := sendToConnection connId event None acc in
                    (if ok then sent + 1 else sent, acc'))
                 (sent, acc) ids in
  r.1 = sent + Z.of_nat (length (filter (λ cid, deliverable s cid = true) ids))
  ∧ manager r.2 = manager s ∧ sseEmitter r.2 = sseEmitter s
  ∧ ∀ ctrl, stream_open (env r.2) ctrl = stream_open (env s) ctrl.
Proof.
  revert sent acc. induction ids as [|cid ids IH]; intros sent acc Hm He Hopen.
  - simpl. split; [lia|done].
  - cbn [foldl].
    destruct (sendToConnection_frame cid event None acc) as (Hok & Hm' & He' & Hopen').
    destruct (sendToConnection cid event None acc) as [ok acc']. cbn [fst snd] in *.
    rewrite (deliverable_same s acc cid Hm Hopen) in Hok.
    destruct (IH (if ok then sent + 1 else sent) acc') as (Hn & Hrest).
    + congruence.
    + congruence.
    + intros ctrl. by rewrite Hopen', Hopen.
    + split; [|exact Hrest]. rewrite Hn, filter_cons. subst ok.
      destruct (deliverable s cid); [rewrite decide_True by done|rewrite decide_False by done];
        simpl; lia.
Qed.

(** X20: [sendToUser] returns the number of the user's connection ids
    that name a registered connection with a writable stream, as counted
    before the call: one send never makes another of the same call fail
    or succeed.  The registry and the bus are unchanged. *)
Theorem sendToUser_counts_deliverable user event s :
  (sendToUser user event s).1
  = Z.of_nat (length (filter (λ cid, deliverable s cid = true)
                             (SSEManager.getUserConnectionIds user (manager s))))
  ∧ manager (sendToUser user event s).2 = manager s
  ∧ sseEmitter (sendToUser user event s).2 = sseEmitter s.
Proof.
  destruct (sendToUser_count_fold event s (SSEManager.getUserConnectionIds user (manager s))
              0 s eq_refl eq_refl (λ _, eq_refl)) as (Hn & Hm & He & _).
  unfold sendToUser. split; [|done]. rewrite Hn. lia.
Qed.

End Unicast.

(** ** The heartbeat endpoint *)

Section HeartbeatEndpoint.
Context `{UuidSupply}.
Implicit Types (s : Server).

(** X21: the answers of POST /api/sse/heartbeat.  The status is 200
    exactly when the caller is authenticated and the body's
    [connectionId] is a non-empty string naming a registered connection
    of the caller; [success] is true exactly then.  Every other answer
    leaves the server as it was.  A 500 only comes from a body that
    cannot be read: the "Failed to acknowledge" answer is never given.
    On 200 the named connection's [lastHeartbeat] is the first reading
    of the clock and its [lastActivity] the second, taken [elapsed] (or
    no time, for a negative [elapsed]) later; its other fields and all
    other connections are kept; the clock stands at the second reading;
    and the user map, the emitter, the queue, the streams and the UUID
    supply are unchanged. *)
Theorem heartbeat_POST_status_table caller body elapsed s :
  let resp := (heartbeat_POST caller body elapsed s).1 in
  let s' := (heartbeat_POST caller body elapsed s).2 in
  (status resp = 200
   ↔ ∃ user cid c, caller = Some user ∧ body = FieldString cid ∧ cid ≠ ""
                   ∧ SSEManager.connections (manager s) !! cid = Some c
                   ∧ SSEManager.userId c = user)
  ∧ success resp = bool_decide (status resp = 200)
  ∧ (status resp ≠ 200 → s' = s)
  ∧ (status resp = 500 → body = BodyThrows ∧ error resp = Some "Internal server error")
  ∧ (status resp = 200 →
     ∃ cid c, body = FieldString cid
       ∧ SSEManager.connections (manager s) !! cid = Some c
       ∧ SSEManager.connections (manager s')
         = <[cid := {| SSEManager.connectionId := SSEManager.connectionId c;
                       SSEManager.userId := SSEManager.userId c;
                       SSEManager.connectedAt := SSEManager.connectedAt c;
                       SSEManager.lastActivity := clock (env s) + Z.max elapsed 0;
                       SSEManager.lastHeartbeat := clock (env s);
                       SSEManager.roomId := SSEManager.roomId c;
                       SSEManager.controller := SSEManager.controller c |}]>
             (SSEManager.connections (manager s))
       ∧ SSEManager.userConnections (manager s') = SSEManager.userConnections (manager s)
       ∧ sseEmitter s' = sseEmitter s
       ∧ env s' = set_clock (clock (env s) + Z.max elapsed 0) (env s)).
Proof.
  intros resp s'. unfold resp, s', heartbeat_POST.
  destruct caller as [user|].
  2:{ simpl. split; [split; [done|by intros (? & ? & ? & ? & _)]|done]. }
  destruct body as [| |b|cid].
  1-3: simpl; (split; [split; [done|by intros (? & ? & ? & _ & ? & _)]|done]).
  destruct (decide (cid = "")) as [->|Hcid].
  { simpl. split; [split; [done|]|done].
    intros (? & ? & ? & _ & [= <-] & ? & _). done. }
  unfold SSEManager.getConnection.
  destruct (SSEManager.connections (manager s) !! cid) as [c|] eqn:Hc.
  2:{ simpl. split; [split; [done|]|done].
      intros (? & ? & ? & _ & [= <-] & _ & ? & _). congruence. }
  destruct (decide (SSEManager.userId c ≠ user)) as [Hu|Hu].
  { simpl. split; [split; [done|]|done].
    intros (? & ? & ? & [= <-] & [= <-] & _ & ? & ?). congruence. }
  apply dec_stable in Hu.
  unfold acknowledgeHeartbeat, SSEManager.acknowledgeHeartbeat. rewrite Hc. simpl.
  split; [split; [intros _; by exists user, cid, c|done]|].
  split; [done|]. split; [done|]. split; [done|]. intros _. by exists cid, c.
Qed.

End HeartbeatEndpoint.

(** ** The SSE endpoint: what a request writes and registers *)

Section GetEndpoint.
Context `{UuidSupply}.
Variable status_json : string → string → Z → string.
Implicit Types (w : Env) (s : Server).

Lemma stream_open_lookup w ctrl :
  stream_open w ctrl = true →
  streams w !! ctrl = Some {| closed := false; written := written_to w ctrl |}.
Proof.
  unfold stream_open, written_to.
  destruct (streams w !! ctrl) as [[[] wr]|]; done.
Qed.

Lemma controller_enqueue_open_eq ctrl chunk w :
  stream_open w ctrl = true →
  controller_enqueue ctrl chunk w
  = (Normal tt,
     set_streams (<[ctrl := {| closed := false; written := written_to w ctrl ++ [chunk] |}]>
                    (streams w)) w).
Proof.
  intros Hopen. unfold controller_enqueue.
  rewrite (stream_open_lookup _ _ Hopen). reflexivity.
Qed.

Lemma replay_open ctrl missed w :
  stream_open w ctrl = true →
  replay ctrl missed w
  = (Normal tt,
     set_streams (<[ctrl := {| closed := false;
                               written := written_to w ctrl ++ (format_queued <$> missed) |}]>
                    (streams w)) w).
Proof.
  revert w. induction missed as [|msg rest IH]; intros w Hopen.
  - simpl. rewrite app_nil_r, insert_id by (by apply stream_open_lookup). by destruct w.
  - cbn [replay]. rewrite controller_enqueue_open_eq by done.
    rewrite IH by (unfold stream_open; simpl; by rewrite lookup_insert_eq).
    f_equal. unfold set_streams, written_to. simpl.
    rewrite lookup_insert_eq, insert_insert_eq. simpl. by rewrite <- app_assoc.
Qed.

Lemma GET_stream_eq user room lastEventId ctrl lid s :
  stream_open (env s) ctrl = true →
  GET_stream status_json user room lastEventId ctrl lid s
  = (Normal tt,
     set_emitter
       (SSEEventEmitter.addListener "sse" (OnSSE lid room ctrl) (sseEmitter s))
       (set_env
          {| next_uuid := S (next_uuid (env s)); clock := clock (env s);
             messageQueue := messageQueue (env s);
             streams :=
               <[ctrl := {| closed := false;
                            written :=
                              written_to (env s) ctrl
                              ++ formatSSEEvent
                                   (mkEvent userStatusUpdate
                                      (status_json user "connected" (clock (env s))) None)
                                   (uuid (next_uuid (env s)))
                                 :: (format_queued
                                       <$> match SSEEventEmitter.truthy lastEventId with
                                           | Some last =>
                                               MessageQueue.getMessagesSince room last
                                                 (messageQueue (env s))
                                           | None => []
                                           end) |}]>
                 (streams (env s)) |} s)).
Proof.
  intros Hopen. unfold GET_stream. cbn [randomUUID].
  set (w1 := {| next_uuid := S (next_uuid (env s)); clock := clock (env s);
                messageQueue := messageQueue (env s); streams := streams (env s) |}).
  assert (Hopen1 : stream_open w1 ctrl = true) by exact Hopen.
  rewrite (controller_enqueue_open_eq ctrl _ w1 Hopen1).
  set (w2 := set_streams _ w1).
  assert (Hopen2 : stream_open w2 ctrl = true)
    by (unfold stream_open, w2; simpl; by rewrite lookup_insert_eq).
  assert (Hw2 : written_to w2 ctrl
            = written_to (env s) ctrl
              ++ [formatSSEEvent
                    (mkEvent userStatusUpdate
                       (status_json user "connected" (clock (env s))) None)
                    (uuid (next_uuid (env s)))]).
  { unfold written_to at 1. unfold w2. simpl. by rewrite lookup_insert_eq. }
  destruct (SSEEventEmitter.truthy lastEventId) as [last|].
  - rewrite (replay_open ctrl _ w2 Hopen2), Hw2, <- app_assoc. simpl.
    unfold set_emitter, set_env, set_streams, sseEmitter. simpl.
    by rewrite insert_insert_eq.
  - unfold set_emitter, set_env, set_streams, sseEmitter. simpl. reflexivity.
Qed.

(** X22: what [start] writes and subscribes once the connection is
    registered, on a stream that accepts writes: it completes, the stream
    gets the connect frame (carrying the next UUID) followed by one frame
    per message [getMessagesSince(roomId, lastEventId)] returns, in that
    order and carrying the ids of the queue, or by nothing when no
    non-empty [Last-Event-ID] was presented; no other stream is written
    to; the queue and the registry are unchanged; and the request's
    [onSSE] closure joins the "sse" channel. *)
Theorem GET_stream_replays_missed user room lastEventId ctrl lid s :
  stream_open (env s) ctrl = true →
  let r := GET_stream status_json user room lastEventId ctrl lid s in
  let missed := match SSEEventEmitter.truthy lastEventId with
                | Some last =>
                    MessageQueue.getMessagesSince room last (messageQueue (env s))
                | None => []
                end in
  r.1 = Normal tt
  ∧ written_to (env r.2) ctrl
    = written_to (env s) ctrl
      ++ formatSSEEvent (mkEvent userStatusUpdate
                           (status_json user "connected" (clock (env s))) None)
                        (uuid (next_uuid (env s)))
         :: (format_queued <$> missed)
  ∧ (∀ ctrl', ctrl' ≠ ctrl → written_to (env r.2) ctrl' = written_to (env s) ctrl')
  ∧ messageQueue (env r.2) = messageQueue (env s)
  ∧ manager r.2 = manager s
  ∧ SSEEventEmitter.sse_listeners (bus r.2)
    = JsSet.add (OnSSE lid room ctrl) (SSEEventEmitter.sse_listeners (bus s)).
Proof.
  intros Hopen r missed. unfold r. rewrite (GET_stream_eq _ _ _ _ _ _ Hopen).
  cbn [fst snd]. split; [done|]. split.
  { unfold written_to at 1. simpl. by rewrite lookup_insert_eq. }
  split.
  { intros ctrl' Hne. unfold written_to at 1. simpl. by rewrite lookup_insert_ne. }
  split; [done|]. split; [done|].
  unfold SSEEventEmitter.sse_listeners, SSEEventEmitter.channel_listeners. simpl.
  by rewrite lookup_insert_eq.
Qed.

Lemma missed_after_known_id room q pre m post :
  MessageQueue.log room q = pre ++ m :: post →
  MessageQueue.id m ∉ (MessageQueue.id <$> pre) →
  MessageQueue.getMessagesSince room (MessageQueue.id m) q = post.
Proof.
  intros Hlog Hpre. rewrite MessageQueueFacts.getMessagesSince_spec. simpl.
  rewrite Hlog.
  rewrite (MessageQueueMore.findIndex_first
             (λ x, MessageQueue.id x = MessageQueue.id m) pre m post); [| |done].
  - rewrite bool_decide_eq_false_2 by lia.
    replace (Z.of_nat (length pre) + 1) with (Z.of_nat (S (length pre))) by lia.
    rewrite slice_from_start.
    change (m :: post) with ([m] ++ post). rewrite app_assoc.
    rewrite drop_app_length'; [done|]. rewrite length_app. simpl. lia.
  - apply Forall_forall. intros x Hx Hid. apply Hpre. rewrite <- Hid.
    by apply list_elem_of_fmap_2.
Qed.

(** X23: in every state the server can reach from start-up, a request
    that presents as [Last-Event-ID] the id of any entry of its room's
    log gets on its stream the connect frame and then exactly the frames
    of the entries logged after that entry, oldest first: nothing older,
    nothing twice, nothing left out. *)
Theorem reconnect_replays_exactly_the_newer `{!UuidFresh}
    ttl0 max ops user room ctrl lid pre m post :
  let s := run (boot ttl0 max) ops in
  stream_open (env s) ctrl = true →
  MessageQueue.log room (messageQueue (env s)) = pre ++ m :: post →
  written_to
    (env (GET_stream status_json user room (Some (MessageQueue.id m)) ctrl lid s).2) ctrl
  = written_to (env s) ctrl
    ++ formatSSEEvent (mkEvent userStatusUpdate
                         (status_json user "connected" (clock (env s))) None)
                      (uuid (next_uuid (env s)))
       :: (format_queued <$> post).
Proof.
  intros s Hopen Hlog.
  destruct (run_queue_sound ttl0 max ops) as [(Hall & _ & Hnd & _) _]. fold s in Hall, Hnd.
  assert (Hq : MessageQueue.queues (messageQueue (env s)) !! room = Some (pre ++ m :: post)).
  { unfold MessageQueue.log in Hlog.
    destruct (MessageQueue.queues (messageQueue (env s)) !! room) as [queue|];
      simpl in Hlog; [by subst|]. by destruct pre. }
  assert (Hid : MessageQueue.id m ≠ "").
  { destruct (Hall room _ m Hq) as (k & _ & ->); [|apply uuid_nonempty].
    apply elem_of_app. right. apply list_elem_of_here. }
  assert (Hpre : MessageQueue.id m ∉ (MessageQueue.id <$> pre)).
  { specialize (Hnd room _ Hq). rewrite fmap_app, fmap_cons in Hnd.
    apply NoDup_app in Hnd as (_ & Hdis & _). intros Hin.
    apply (Hdis _ Hin), list_elem_of_here. }
  rewrite (GET_stream_eq _ _ _ _ _ _ Hopen). cbn [snd].
  unfold written_to at 1. simpl. rewrite lookup_insert_eq. simpl.
  unfold SSEEventEmitter.truthy. rewrite decide_False by done.
  by rewrite (missed_after_known_id room _ pre m post Hlog Hpre).
Qed.

End GetEndpoint.

Lemma GET_stream_replays_missed_witness :
  let s := run (H := counter_uuid)
               (boot SSE_CONFIG.MESSAGE_QUEUE_TTL SSE_CONFIG.MESSAGE_QUEUE_MAX_SIZE)
               [OpenStream 0; Enqueue "room1" "chatMessage" "{0}";
                Enqueue "room1" "chatMessage" "{1}"] in
  let status_json := λ user st (now : Z), user +:+ ":" +:+ st in
  let r := GET_stream (H := counter_uuid) status_json "alice" "room1" (Some "uuid-0") 0 7 s in
  stream_open (env s) 0 = true
  ∧ r.1 = Normal tt
  ∧ written_to (env r.2) 0
    = [formatSSEEvent (mkEvent userStatusUpdate "alice:connected" None) "uuid-2";
       format_queued (MessageQueue.mkMsg "uuid-1" "chatMessage" "{1}" 0 "room1")]
  ∧ SSEEventEmitter.sse_listeners (bus r.2) = [OnSSE 7 "room1" 0].
Proof.
  intros s status_json r.
  assert (Hopen : stream_open (env s) 0 = true) by (vm_compute; reflexivity).
  split; [exact Hopen|].
  destruct (@GET_stream_replays_missed counter_uuid status_json "alice" "room1"
              (Some "uuid-0") 0%nat 7%nat s Hopen) as (Hr & Hw & _ & _ & _ & Hl).
  split; [exact Hr|]. split; [exact Hw|]. exact Hl.
Defined.

Lemma reconnect_replays_exactly_the_newer_witness :
  let s := run (H := counter_uuid)
               (boot SSE_CONFIG.MESSAGE_QUEUE_TTL SSE_CONFIG.MESSAGE_QUEUE_MAX_SIZE)
               [OpenStream 0; Enqueue "room1" "chatMessage" "{0}";
                Enqueue "room1" "chatMessage" "{1}"; Enqueue "room1" "chatMessage" "{2}"] in
  let status_json := λ user st (now : Z), user +:+ ":" +:+ st in
  written_to
    (env (GET_stream (H := counter_uuid) status_json "alice" "room1" (Some "uuid-1") 0 7 s).2)
    0
  = [formatSSEEvent (mkEvent userStatusUpdate "alice:connected" None) "uuid-3";
     format_queued (MessageQueue.mkMsg "uuid-2" "chatMessage" "{2}" 0 "room1")].
Proof.
  intros s status_json.
  apply (@reconnect_replays_exactly_the_newer counter_uuid status_json counter_uuid_fresh
           SSE_CONFIG.MESSAGE_QUEUE_TTL SSE_CONFIG.MESSAGE_QUEUE_MAX_SIZE
           [OpenStream 0; Enqueue "room1" "chatMessage" "{0}";
            Enqueue "room1" "chatMessage" "{1}"; Enqueue "room1" "chatMessage" "{2}"]
           "alice" "room1" 0%nat 7%nat
           [MessageQueue.mkMsg "uuid-0" "chatMessage" "{0}" 0 "room1"]
           (MessageQueue.mkMsg "uuid-1" "chatMessage" "{1}" 0 "room1")
           [MessageQueue.mkMsg "uuid-2" "chatMessage" "{2}" 0 "room1"]).
  - vm_compute. reflexivity.
  - vm_compute. reflexivity.
Defined.

(** ** The SSE endpoint: a request from start to cancel *)

Section RequestLifecycle.
Context `{UuidSupply}.
Variable status_json : string → string → Z → string.
Implicit Types (w : Env) (s : Server).




Lemma announce_frame user st s :
  manager (announce status_json user st s) = manager s
  ∧ sseEmitter (announce status_json user st s) = sseEmitter s
  ∧ ∀ ctrl, stream_open (env (announce status_json user st s)) ctrl
            = stream_open (env s) ctrl.
Proof.
  unfold announce. split; [apply emit_manager|]. split; [apply emit_sseEmitter|].
  rewrite emit_env_fold.
  by destruct (deliveries_log "" userStatusUpdate
                 (status_json user st (Date_now (env s))) None
                 (SSEEventEmitter.sse_listeners (bus s)) (env s)) as [Hopen _].
Qed.

Lemma GET_register_frame user room ctrl db_ok s :
  (GET_register status_json user room ctrl db_ok s).1
  = (SSEManager.addConnection (uuid (next_uuid (env s))) (clock (env s)) user room ctrl
       (manager s)).1
  ∧ manager (GET_register status_json user room ctrl db_ok s).2
    = (SSEManager.addConnection (uuid (next_uuid (env s))) (clock (env s)) user room ctrl
         (manager s)).2
  ∧ sseEmitter (GET_register status_json user room ctrl db_ok s).2 = sseEmitter s
  ∧ ∀ ctrl', stream_open (env (GET_register status_json user room ctrl db_ok s).2) ctrl'
             = stream_open (env s) ctrl'.
Proof.
  unfold GET_register, addConnection. cbn [randomUUID Date_now clock].
  set (a := SSEManager.addConnection _ _ user room ctrl (manager s)).
  destruct a as [[connId isNewUser] m1] eqn:Ha. cbn [fst snd].
  split; [done|].
  destruct (isNewUser && db_ok); [|done].
  destruct (announce_frame user "online"
              (set_manager m1
                 (set_env {| next_uuid := S (next_uuid (env s)); clock := clock (env s);
                             messageQueue := messageQueue (env s);
                             streams := streams (env s) |} s)))
    as (Hm & He & Hopen).
  split; [exact Hm|]. split; [exact He|]. intros ctrl'. by rewrite Hopen.
Qed.


(** X25: the request handler.  Without an authenticated user the answer
    is 401 and the server is untouched.  With one the answer is 200 and,
    when the handler is done, the registry holds a connection under the
    UUID drawn for it, owned by the user, in the handler's room, holding
    the new stream's controller and stamped with the clock; the user
    counts as connected; the request's [onSSE] closure is on the "sse"
    channel; and the stream accepts writes, so a [sendToConnection] to
    the new id would go through. *)
Theorem GET_registers_and_subscribes caller room lastEventId ctrl lid db_ok s :
  let r := GET status_json caller room lastEventId ctrl lid db_ok s in
  match caller with
  | None => r = (401, s)
  | Some user =>
      r.1 = 200
      ∧ SSEManager.connections (manager r.2) !! uuid (next_uuid (env s))
        = Some {| SSEManager.connectionId := uuid (next_uuid (env s));
                  SSEManager.userId := user;
                  SSEManager.connectedAt := clock (env s);
                  SSEManager.lastActivity := clock (env s);
                  SSEManager.lastHeartbeat := clock (env s);
                  SSEManager.roomId := room;
                  SSEManager.controller := Some ctrl |}
      ∧ SSEManager.hasUserConnection user (manager r.2) = true
      ∧ OnSSE lid room ctrl ∈ SSEEventEmitter.sse_listeners (bus r.2)
      ∧ deliverable r.2 (uuid (next_uuid (env s))) = true
  end.
Proof.
  intros r. destruct caller as [user|]; [|done]. unfold r, GET. cbn [fst snd].
  split; [done|].
  set (s0 := set_env _ s).
  assert (Hopen0 : stream_open (env s0) ctrl = true).
  { unfold stream_open, s0. simpl. by rewrite lookup_insert_eq. }
  destruct (GET_register_frame user room ctrl db_ok s0) as (_ & Hm1 & He1 & Hopen1).
  change (next_uuid (env s0)) with (next_uuid (env s)) in Hm1.
  change (clock (env s0)) with (clock (env s)) in Hm1.
  change (manager s0) with (manager s) in Hm1.
  unfold GET_start.
  destruct (GET_register status_json user room ctrl db_ok s0) as [[cid isNew] s1].
  cbn [fst snd] in *.
  assert (Hopen : stream_open (env s1) ctrl = true) by (by rewrite Hopen1).
  rewrite (GET_stream_eq status_json user room lastEventId ctrl lid s1 Hopen).
  cbn [snd].
  set (w3 := {| next_uuid := S (next_uuid (env s1)) |}).
  set (e3 := SSEEventEmitter.addListener "sse" _ (sseEmitter s1)).
  change (manager (set_emitter e3 (set_env w3 s1))) with (manager s1).
  rewrite Hm1.
  assert (Hc : SSEManager.connections
                 (SSEManager.addConnection (uuid (next_uuid (env s))) (clock (env s))
                    user room ctrl (manager s)).2 !! uuid (next_uuid (env s))
               = Some {| SSEManager.connectionId := uuid (next_uuid (env s));
                         SSEManager.userId := user;
                         SSEManager.connectedAt := clock (env s);
                         SSEManager.lastActivity := clock (env s);
                         SSEManager.lastHeartbeat := clock (env s);
                         SSEManager.roomId := room;
                         SSEManager.controller := Some ctrl |}).
  { unfold SSEManager.addConnection. simpl. by rewrite lookup_insert_eq. }
  split; [exact Hc|]. split; [|split].
  - unfold SSEManager.hasUserConnection, SSEManager.addConnection. simpl.
    rewrite lookup_insert_eq. apply bool_decide_eq_true_2.
    unfold JsSet.size, JsSet.add.
    destruct (decide (uuid (next_uuid (env s))
                      ∈ default [] (SSEManager.userConnections (manager s) !! user)))
      as [Hin|_].
    + destruct (default [] _); [by apply elem_of_nil in Hin | simpl; lia].
    + rewrite length_app. simpl. lia.
  - unfold SSEEventEmitter.sse_listeners, SSEEventEmitter.channel_listeners, e3. simpl.
    rewrite lookup_insert_eq. simpl. unfold JsSet.add.
    destruct (decide (OnSSE lid room ctrl
                      ∈ default [] (SSEEventEmitter.listeners (sseEmitter s1) !! "sse")))
      as [Hin|_]; [exact Hin|].
    apply elem_of_app. right. apply list_elem_of_here.
  - unfold deliverable.
    change (manager (set_emitter e3 (set_env w3 s1))) with (manager s1).
    rewrite Hm1, Hc. cbn [SSEManager.controller].
    unfold stream_open, w3. simpl. by rewrite lookup_insert_eq.
Qed.

End RequestLifecycle.


(** ** The client: rescheduling after a disconnection *)

Module SSEClientMore.
Import SSEClient.

Lemma exponentialDelay_after_increment k :
  exponentialDelay SSE_CONFIG.INITIAL_RECONNECT_DELAY SSE_CONFIG.MAX_RECONNECT_DELAY (S k)
  = 1000 * Z.min (2 ^ Z.of_nat (S k)) 60
  ∧ 2 ≤ Z.min (2 ^ Z.of_nat (S k)) 60 ≤ 60.
Proof.
  unfold exponentialDelay, SSE_CONFIG.INITIAL_RECONNECT_DELAY,
    SSE_CONFIG.MAX_RECONNECT_DELAY.
  assert (Hp : 2 ≤ 2 ^ Z.of_nat (S k)).
  { rewrite Nat2Z.inj_succ, Z.pow_succ_r by lia.
    assert (0 < 2 ^ Z.of_nat k) by (apply Z.pow_pos_nonneg; lia). lia. }
  lia.
Qed.

(** X26: [handleDisconnection] always schedules a reconnect, whatever
    the number of attempts so far: the client is left reconnecting, with
    no transport handle and no heartbeat timer, one attempt further, and
    with a reconnect timer armed for at least 2000 ms and at most
    75000 ms.  There is no attempt after which it stops trying. *)
Theorem reconnect_is_always_scheduled (r : Q) c :
  (0 <= r)%Q → (r < 1)%Q →
  let c' := handleDisconnection r c in
  status c' = reconnecting
  ∧ reconnectAttempts c' = S (reconnectAttempts c)
  ∧ heartbeatTimer c' = None ∧ eventSource c' = false
  ∧ ∃ d, reconnectTimer c' = Some d ∧ 2000 ≤ d ≤ 75000.
Proof.
  intros Hr0 Hr1 c'.
  destruct (SSEClientFacts.handleDisconnection_spec r c) as (Hs & Ha & Ht & Hh & He).
  fold c' in Hs, Ha, Ht, Hh, He.
  split; [exact Hs|]. split; [exact Ha|]. split; [exact Hh|]. split; [exact He|].
  eexists. split; [exact Ht|].
  destruct (exponentialDelay_after_increment (reconnectAttempts c)) as [Hd Hb].
  destruct (SSEClientFacts.calculateBackoff_with_bounds
              SSE_CONFIG.INITIAL_RECONNECT_DELAY SSE_CONFIG.MAX_RECONNECT_DELAY r
              (S (reconnectAttempts c))) as [Hlo Hhi]; [lia|done|done|].
  lia.
Qed.

(** X27: for the same jitter draw, a later attempt never waits less than
    an earlier one. *)
Theorem backoff_never_shrinks (r : Q) j k :
  (0 <= r)%Q → (j ≤ k)%nat →
  calculateBackoff_with SSE_CONFIG.INITIAL_RECONNECT_DELAY SSE_CONFIG.MAX_RECONNECT_DELAY r j
  ≤ calculateBackoff_with SSE_CONFIG.INITIAL_RECONNECT_DELAY SSE_CONFIG.MAX_RECONNECT_DELAY
      r k.
Proof.
  intros Hr Hjk. unfold calculateBackoff_with.
  pose proof (SSEClientFacts.exponentialDelay_monotone
                SSE_CONFIG.INITIAL_RECONNECT_DELAY SSE_CONFIG.MAX_RECONNECT_DELAY j k
                ltac:(done) Hjk) as Hmono.
  set (dj := exponentialDelay _ _ j) in *. set (dk := exponentialDelay _ _ k) in *.
  apply Qfloor_resp_le.
  assert (HQ : (inject_Z dj <= inject_Z dk)%Q) by (by rewrite <- Zle_Qle).
  set (a := inject_Z dj) in *. set (b := inject_Z dk) in *. clearbody a b. nra.
Qed.

(** X28: right after a disconnection from attempt count [a],
    [getReconnectDelay] reports [min(2^a, 60)] seconds while the timer
    was armed for at least [min(2^(a+1), 60)] seconds: the report never
    overstates the wait, and below the cap the wait is at least twice
    what is reported. *)
Theorem reported_delay_understates (r : Q) c :
  (0 <= r)%Q → (r < 1)%Q →
  let c' := handleDisconnection r c in
  let a := Z.of_nat (reconnectAttempts c) in
  getReconnectDelay c' = Some (Z.min (2 ^ a) 60)
  ∧ ∃ d, reconnectTimer c' = Some d
         ∧ 1000 * Z.min (2 ^ (a + 1)) 60 ≤ d
         ∧ 1000 * Z.min (2 ^ a) 60 ≤ d.
Proof.
  intros Hr0 Hr1 c' a.
  destruct (SSEClientFacts.handleDisconnection_spec r c) as (Hs & Ha & Ht & _).
  fold c' in Hs, Ha, Ht.
  assert (Hpos : 0 < 2 ^ a) by (apply Z.pow_pos_nonneg; lia).
  split.
  - unfold getReconnectDelay. rewrite Hs, Ha. f_equal.
    replace (Z.of_nat (S (reconnectAttempts c)) - 1) with a by lia.
    assert (Hp : ((2 # 1) ^ a == inject_Z (2 ^ a))%Q).
    { symmetry. apply (Zpower_Qpower 2). lia. }
    rewrite <- (Qceiling_Z (Z.min (2 ^ a) 60)). apply Qceiling_comp.
    unfold SSE_CONFIG.INITIAL_RECONNECT_DELAY, SSE_CONFIG.MAX_RECONNECT_DELAY.
    destruct (Z.le_gt_cases (2 ^ a) 60) as [Hle|Hgt].
    + rewrite Z.min_l by lia. rewrite Q.min_l.
      * rewrite Hp. field.
      * rewrite Hp, <- inject_Z_mult, <- Zle_Qle. lia.
    + rewrite Z.min_r by lia. rewrite Q.min_r.
      * reflexivity.
      * rewrite Hp, <- inject_Z_mult, <- Zle_Qle. lia.
  - eexists. split; [exact Ht|].
    destruct (exponentialDelay_after_increment (reconnectAttempts c)) as [Hd Hb].
    destruct (SSEClientFacts.calculateBackoff_with_bounds
                SSE_CONFIG.INITIAL_RECONNECT_DELAY SSE_CONFIG.MAX_RECONNECT_DELAY r
                (S (reconnectAttempts c))) as [Hlo _]; [lia|done|done|].
    rewrite Hd in Hlo. rewrite Nat2Z.inj_succ in Hlo. fold a in Hlo.
    unfold Z.succ in Hlo.
    assert (2 ^ a ≤ 2 ^ (a + 1)) by (apply Z.pow_le_mono_r; lia).
    lia.
Qed.

Lemma reconnect_is_always_scheduled_witness :
  let c' := handleDisconnection (1 # 2)
              {| status := connected; reconnectAttempts := 40; heartbeatTimer := Some 45000;
                 reconnectTimer := None; eventSource := true |} in
  status c' = reconnecting
  ∧ reconnectAttempts c' = 41%nat
  ∧ heartbeatTimer c' = None ∧ eventSource c' = false
  ∧ ∃ d, reconnectTimer c' = Some d ∧ 2000 ≤ d ≤ 75000.
Proof.
  apply (reconnect_is_always_scheduled (1 # 2)); vm_compute; congruence.
Defined.

Lemma backoff_never_shrinks_witness :
  calculateBackoff_with SSE_CONFIG.INITIAL_RECONNECT_DELAY SSE_CONFIG.MAX_RECONNECT_DELAY
    (1 # 2) 2
  ≤ calculateBackoff_with SSE_CONFIG.INITIAL_RECONNECT_DELAY SSE_CONFIG.MAX_RECONNECT_DELAY
      (1 # 2) 3.
Proof.
  apply (backoff_never_shrinks (1 # 2) 2 3); [vm_compute; congruence | lia].
Defined.

Lemma reported_delay_understates_witness :
  let c' := handleDisconnection (1 # 2)
              {| status := connected; reconnectAttempts := 2; heartbeatTimer := None;
                 reconnectTimer := None; eventSource := true |} in
  getReconnectDelay c' = Some 4
  ∧ ∃ d, reconnectTimer c' = Some d ∧ 8000 ≤ d ∧ 4000 ≤ d.
Proof.
  apply (reported_delay_understates (1 # 2)
           {| status := connected; reconnectAttempts := 2; heartbeatTimer := None;
              reconnectTimer := None; eventSource := true |}); vm_compute; congruence.
Defined.

End SSEClientMore.

(** ** The registry's statistics *)

Section RegistryStats.
Context `{UuidSupply} `{!UuidFresh}.

Lemma size_list_to_set_le (l : list string) :
  (size (list_to_set (C := gset string) l) ≤ length l)%nat.
Proof.
  induction l as [|x l IH]; simpl.
  - done.
  - rewrite size_union_alt, size_singleton.
    assert (Hsub : list_to_set (C := gset string) l ∖ {[x]} ⊆ list_to_set l).
    { intros y Hy. by apply elem_of_difference in Hy as [Hy _]. }
    apply subseteq_size in Hsub. lia.
Qed.

(** X29: in every state the server can reach from start-up,
    [getActiveUserIds()] lists, each once, exactly the users that own a
    connection, and in [getStats()] [uniqueUsers] never exceeds
    [totalConnections] and is zero exactly when [totalConnections] is. *)
Theorem stats_users_within_connections ttl0 max ops :
  let m := manager (run (boot ttl0 max) ops) in
  (∀ user, user ∈ SSEManager.getActiveUserIds m
           ↔ ∃ cid c, SSEManager.connections m !! cid = Some c
                      ∧ SSEManager.userId c = user)
  ∧ NoDup (SSEManager.getActiveUserIds m)
  ∧ (SSEManager.getStats m).2 ≤ (SSEManager.getStats m).1
  ∧ ((SSEManager.getStats m).2 = 0 ↔ (SSEManager.getStats m).1 = 0).
Proof.
  intros m.
  destruct (run_wf ops (boot ttl0 max) (boot_wf ttl0 max)) as (_ & _ & Hcons).
  fold m in Hcons.
  destruct (SSEManagerFacts.consistent_mirrors m Hcons) as [Hdom _].
  destruct Hcons as [Hsets Hown].
  assert (Hmem : ∀ user, is_Some (SSEManager.userConnections m !! user)
            ↔ ∃ cid c, SSEManager.connections m !! cid = Some c
                       ∧ SSEManager.userId c = user).
  { intros user. split.
    - intros [set Hset]. destruct (Hsets user set Hset) as [Hne Hin].
      destruct set as [|cid set]; [done|]. exists cid. apply Hin, list_elem_of_here.
    - intros (cid & c & Hc & <-). by eapply Hown. }
  split; [|split; [|split]].
  - intros user. rewrite <- Hmem. unfold SSEManager.getActiveUserIds.
    rewrite list_elem_of_fmap. split.
    + intros ([u set] & -> & Hin). apply elem_of_map_to_list in Hin. by exists set.
    + intros [set Hset]. exists (user, set). split; [done|]. by apply elem_of_map_to_list.
  - apply NoDup_fst_map_to_list.
  - unfold SSEManager.getStats. cbn [fst snd].
    rewrite <- (size_dom (D := gset string) (SSEManager.userConnections m)), Hdom.
    unfold SSEManager.owners.
    pose proof (size_list_to_set_le
                  (SSEManager.userId <$> (map_to_list (SSEManager.connections m)).*2)) as Hle.
    rewrite !length_fmap, length_map_to_list in Hle. lia.
  - unfold SSEManager.getStats. cbn [fst snd].
    split; intros Hz.
    + assert (Hu : SSEManager.userConnections m = ∅) by (apply map_size_empty_iff; lia).
      assert (Hc : SSEManager.connections m = ∅).
      { apply map_empty. intros cid.
        destruct (SSEManager.connections m !! cid) as [c|] eqn:Hc; [|done].
        destruct (Hown cid c Hc) as [set Hset]. rewrite Hu, lookup_empty in Hset. done. }
      rewrite Hc, map_size_empty. done.
    + assert (Hc : SSEManager.connections m = ∅) by (apply map_size_empty_iff; lia).
      assert (Hu : SSEManager.userConnections m = ∅).
      { apply map_empty. intros user.
        destruct (SSEManager.userConnections m !! user) as [set|] eqn:Hset; [|done].
        destruct (proj1 (Hmem user) (mk_is_Some _ _ Hset)) as (cid & c & Hc' & _).
        rewrite Hc, lookup_empty in Hc'. done. }
      rewrite Hu, map_size_empty. done.
Qed.

End RegistryStats.

Lemma stats_users_within_connections_witness :
  let m := manager (run (H := counter_uuid)
                        (boot SSE_CONFIG.MESSAGE_QUEUE_TTL SSE_CONFIG.MESSAGE_QUEUE_MAX_SIZE)
                        [AddConnection "alice" "room1" 0; AddConnection "alice" "room1" 1;
                         AddConnection "bob" "room1" 2; RemoveConnection "uuid-2"]) in
  (∀ user, user ∈ SSEManager.getActiveUserIds m
           ↔ ∃ cid c, SSEManager.connections m !! cid = Some c
                      ∧ SSEManager.userId c = user)
  ∧ NoDup (SSEManager.getActiveUserIds m)
  ∧ (SSEManager.getStats m).2 ≤ (SSEManager.getStats m).1
  ∧ ((SSEManager.getStats m).2 = 0 ↔ (SSEManager.getStats m).1 = 0).
Proof.
  apply (@stats_users_within_connections counter_uuid counter_uuid_fresh).
Defined.
